(** * Verification of the leads resource (src/routes/leads.js)

    The development is a shallow embedding of the route module:
    - [JS]: the fragment of the JavaScript runtime the module relies on
      (IEEE doubles restricted to what the code computes, strings, the
      values Express and the JSON body parser hand to a handler,
      [parseInt], [Number], [String], [Math.max], ...);
    - [Sql]: the SQL fragments the module assembles, as syntax together with
      the exact text the template literals produce;
    - [Leads]: [buildWhereClause] and the five route handlers, over a model
      of the [leads] table and of what the database engine decides;
    - [ScanFacts], [BuilderFacts], [NumberFacts], [HandlerFacts]: lemmas on
      the rendered text, the builder, the numbers and the handlers;
    - [Examples]: the definitions run on small inputs;
    - [Claims]: the properties of the specification. *)

From Stdlib Require Import ZArith QArith Qreduction Qcanon Lia Ascii String List Bool.
From Stdlib Require Import Decimal DecimalString DecimalNat.
From Stdlib Require Qround.
From stdpp Require Import base option list strings gmap sorting.

Local Open Scope Z_scope.

(** ** The JavaScript runtime fragment *)

Module JS.

(** *** Numbers

    A JavaScript number is an IEEE 754 binary64 value.  Every finite double
    is a rational, so a number is modelled by its exact value:
    [Finite q] is the nonzero double of value [q] (kept in lowest terms),
    the two zeros and the two infinities are separate constructors.
    Arithmetic computes the exact rational result and rounds it to the
    nearest double, ties to even ([round_Q]). *)

Inductive number :=
  | NaN
  | Infinity (neg : bool)
  | Zero (neg : bool)
  | Finite (q : Q).

(** Nearest integer to [n / d], ties to even ([0 <= n], [0 < d]). *)
Definition rne (n d : Z) : Z :=
  let q := n / d in
  let r := n mod d in
  if 2 * r <? d then q
  else if d <? 2 * r then q + 1
  else if Z.even q then q else q + 1.

(** The binade of the positive rational [n / d]: the [e] with
    [2^e <= n/d < 2^(e+1)]. *)
Definition binade (n d : Z) : Z :=
  let e0 := Z.log2 n - Z.log2 d in
  if (if 0 <=? e0 then d * 2 ^ e0 <=? n else d <=? n * 2 ^ (- e0))
  then e0 else e0 - 1.

(** The double nearest to [± n / d] for [0 < n], [0 < d]: 53 significant
    bits, least exponent [-1074], overflow to infinity from [2^1024]. *)
Definition round_pos (neg : bool) (n d : Z) : number :=
  let u := Z.max (binade n d - 52) (-1074) in
  let k := if 0 <=? u then rne n (d * 2 ^ u) else rne (n * 2 ^ (- u)) d in
  let s := if neg then - k else k in
  if k =? 0 then Zero neg
  else if (971 <? u) || ((u =? 971) && (2 ^ 53 <=? k)) then Infinity neg
  else if 0 <=? u then Finite (inject_Z (s * 2 ^ u))
  else Finite (Qred (s # Z.to_pos (2 ^ (- u)))).

Definition round_Q (q : Q) : number :=
  match Qnum q with
  | Z0 => Zero false
  | Zpos n => round_pos false (Zpos n) (Zpos (Qden q))
  | Zneg n => round_pos true (Zpos n) (Zpos (Qden q))
  end.

(** The double of a mathematical integer. *)
Definition of_Z (z : Z) : number := round_Q (inject_Z z).

Definition is_neg (q : Q) : bool := Qnum q <? 0.

(** [x - y] *)
Definition sub (x y : number) : number :=
  match x, y with
  | NaN, _ | _, NaN => NaN
  | Infinity a, Infinity b => if eqb a b then NaN else Infinity a
  | Infinity a, _ => Infinity a
  | _, Infinity b => Infinity (negb b)
  | Zero a, Zero b => Zero (a && negb b)
  | Zero _, Finite q => Finite (Qred (- q))
  | Finite p, Zero _ => Finite p
  | Finite p, Finite q => round_Q (Qred (p - q))
  end.

(** [x * y] *)
Definition mul (x y : number) : number :=
  match x, y with
  | NaN, _ | _, NaN => NaN
  | Infinity a, Infinity b => Infinity (xorb a b)
  | Infinity _, Zero _ | Zero _, Infinity _ => NaN
  | Infinity a, Finite q => Infinity (xorb a (is_neg q))
  | Finite p, Infinity b => Infinity (xorb (is_neg p) b)
  | Zero a, Zero b => Zero (xorb a b)
  | Zero a, Finite q => Zero (xorb a (is_neg q))
  | Finite p, Zero b => Zero (xorb (is_neg p) b)
  | Finite p, Finite q => round_Q (Qred (p * q))
  end.

(** [x / y] *)
Definition div (x y : number) : number :=
  match x, y with
  | NaN, _ | _, NaN => NaN
  | Infinity _, Infinity _ => NaN
  | Infinity a, Zero b => Infinity (xorb a b)
  | Infinity a, Finite q => Infinity (xorb a (is_neg q))
  | Zero a, Infinity b => Zero (xorb a b)
  | Finite p, Infinity b => Zero (xorb (is_neg p) b)
  | Zero _, Zero _ => NaN
  | Zero a, Finite q => Zero (xorb a (is_neg q))
  | Finite p, Zero b => Infinity (xorb (is_neg p) b)
  | Finite p, Finite q => round_Q (Qred (p / q))
  end.

(** [x < y] on numbers other than [NaN]; the two zeros compare equal. *)
Definition lt (x y : number) : bool :=
  match x, y with
  | NaN, _ | _, NaN => false
  | Infinity a, Infinity b => a && negb b
  | Infinity a, _ => a
  | _, Infinity b => negb b
  | Zero _, Zero _ => false
  | Zero _, Finite q => negb (is_neg q)
  | Finite p, Zero _ => is_neg p
  | Finite p, Finite q =>
      match Qcompare p q with Lt => true | _ => false end
  end.

Definition is_NaN (x : number) : bool :=
  match x with NaN => true | _ => false end.

(** [Math.max(x, y)]: [NaN] if either is, [+0] above [-0]. *)
Definition Math_max (x y : number) : number :=
  if is_NaN x || is_NaN y then NaN
  else match x, y with
       | Zero a, Zero b => Zero (a && b)
       | _, _ => if lt x y then y else x
       end.

(** [Math.min(x, y)]: [NaN] if either is, [-0] below [+0]. *)
Definition Math_min (x y : number) : number :=
  if is_NaN x || is_NaN y then NaN
  else match x, y with
       | Zero a, Zero b => Zero (a || b)
       | _, _ => if lt y x then y else x
       end.

(** [Math.ceil(x)] *)
Definition Math_ceil (x : number) : number :=
  match x with
  | Finite q =>
      let c := - ((- Qnum q) / Zpos (Qden q)) in
      if c =? 0 then Zero true else Finite (inject_Z c)
  | _ => x
  end.


(** The number is an integer or an infinity. *)
Definition whole (x : number) : Prop :=
  match x with
  | NaN => False
  | Finite q => exists z, q = inject_Z z
  | _ => True
  end.

(** ToBoolean on a number: [NaN] and the zeros are falsy. *)
Definition truthy_number (x : number) : bool :=
  match x with NaN | Zero _ => false | _ => true end.

(** *** Strings

    A JavaScript string is modelled by the byte string of its UTF-8
    encoding; [codes] gives the bytes as numbers. *)

Definition codes (s : string) : list N :=
  map N_of_ascii (list_ascii_of_string s).

Definition of_codes (l : list N) : string :=
  string_of_list_ascii (map ascii_of_N l).

(** ToBoolean on a string: only the empty string is falsy. *)
Definition truthy_string (s : string) : bool :=
  match s with EmptyString => false | _ => true end.

(** White space and line terminators (what [trim], [parseInt] and [Number]
    skip): TAB, LF, VT, FF, CR, SP in one byte; U+00A0 in two; U+1680,
    U+2000..U+200A, U+2028, U+2029, U+202F, U+205F, U+3000 and U+FEFF in
    three. *)
Definition ws1 (a : N) : bool :=
  ((9 <=? a) && (a <=? 13) || (a =? 32))%N.

Definition ws2 (a b : N) : bool :=
  ((a =? 194) && (b =? 160))%N.

Definition ws3 (a b c : N) : bool :=
  ((a =? 225) && (b =? 154) && (c =? 128)
   || (a =? 226) && (b =? 128)
      && ((128 <=? c) && (c <=? 138) || (c =? 168) || (c =? 169) || (c =? 175))
   || (a =? 226) && (b =? 129) && (c =? 159)
   || (a =? 227) && (b =? 128) && (c =? 128)
   || (a =? 239) && (b =? 187) && (c =? 191))%N.

Fixpoint trim_start (l : list N) : list N :=
  match l with
  | [] => []
  | a :: t =>
      if ws1 a then trim_start t
      else match t with
           | b :: t2 =>
               if ws2 a b then trim_start t2
               else match t2 with
                    | c :: t3 => if ws3 a b c then trim_start t3 else l
                    | [] => l
                    end
           | [] => l
           end
  end.

(** The same from the end, on the reversed byte list. *)
Fixpoint trim_start_rev (l : list N) : list N :=
  match l with
  | [] => []
  | a :: t =>
      if ws1 a then trim_start_rev t
      else match t with
           | b :: t2 =>
               if ws2 b a then trim_start_rev t2
               else match t2 with
                    | c :: t3 => if ws3 c b a then trim_start_rev t3 else l
                    | [] => l
                    end
           | [] => l
           end
  end.

Definition trim_codes (l : list N) : list N :=
  rev (trim_start_rev (rev (trim_start l))).

(** [s.trim()] *)
Definition trim (s : string) : string := of_codes (trim_codes (codes s)).

(** [s.split(',')]: never empty; the empty string splits to [[""]]. *)
Fixpoint split_comma (s : string) : list string :=
  match s with
  | EmptyString => [EmptyString]
  | String c r =>
      if Ascii.eqb c ","%char then EmptyString :: split_comma r
      else match split_comma r with
           | [] => [String c EmptyString]
           | p :: ps => String c p :: ps
           end
  end.

(** [l.join(sep)] *)
Fixpoint join (sep : string) (l : list string) : string :=
  match l with
  | [] => EmptyString
  | [s] => s
  | s :: r => s +:+ sep +:+ join sep r
  end.

(** ASCII lower case, for comparison with [lower_is_true] below. *)
Definition lower_code (c : N) : N :=
  if ((65 <=? c) && (c <=? 90))%N then (c + 32)%N else c.

(** [s.toLowerCase() === 'true'].  The only characters whose lower-case
    mapping is one of [t], [r], [u], [e] are those letters and their ASCII
    capitals, so the test is decided on the bytes. *)
Definition lower_is_true (s : string) : bool :=
  match codes s with
  | [t; r; u; e] =>
      ((t =? 116) || (t =? 84)) && ((r =? 114) || (r =? 82))
      && ((u =? 117) || (u =? 85)) && ((e =? 101) || (e =? 69))
  | _ => false
  end%N.

(** The decimal numeral of an array index or counter, as a template
    literal prints it. *)
Definition decimal (n : nat) : string :=
  NilEmpty.string_of_uint (Nat.to_uint n).

(** Value of a digit in the given radix, if it is one. *)
Definition digit_of (radix c : N) : option Z :=
  (let v := if (48 <=? c) && (c <=? 57) then Some (c - 48)
            else if (97 <=? c) && (c <=? 122) then Some (c - 87)
            else if (65 <=? c) && (c <=? 90) then Some (c - 55)
            else None in
   match v with
   | Some d => if d <? radix then Some (Z.of_N d) else None
   | None => None
   end)%N.

(** Longest prefix of digits, and what follows it. *)
Fixpoint span_digits (radix : N) (l : list N) : list Z * list N :=
  match l with
  | [] => ([], [])
  | c :: t =>
      match digit_of radix c with
      | Some d => let '(ds, r) := span_digits radix t in (d :: ds, r)
      | None => ([], l)
      end
  end.

Definition digits_value (radix : Z) (ds : list Z) : Z :=
  fold_left (fun acc d => acc * radix + d) ds 0.

(** The double of [± m], keeping the sign of a zero. *)
Definition signed (neg : bool) (m : Z) : number :=
  if m =? 0 then Zero neg else round_pos neg m 1.

(** [parseInt(s)] with no radix argument: skip white space, read a sign,
    read [0x]/[0X] as the hexadecimal prefix, take the longest run of
    digits; [NaN] if there is none.  The integer read is rounded to the
    nearest double. *)
Definition parseInt_string (s : string) : number :=
  let l := trim_start (codes s) in
  let '(neg, l1) :=
    match l with
    | 45%N :: t => (true, t)
    | 43%N :: t => (false, t)
    | _ => (false, l)
    end in
  let '(radix, l2) :=
    match l1 with
    | 48%N :: 120%N :: t | 48%N :: 88%N :: t => (16%N, t)
    | _ => (10%N, l1)
    end in
  match fst (span_digits radix l2) with
  | [] => NaN
  | ds => signed neg (digits_value (Z.of_N radix) ds)
  end.

(** A literal with a radix prefix ([0x], [0o], [0b]): digits of that radix
    up to the end of the string. *)
Definition radix_literal (radix : N) (l : list N) : number :=
  match span_digits radix l with
  | (d :: ds, []) => signed false (digits_value (Z.of_N radix) (d :: ds))
  | _ => NaN
  end.

(** An unsigned decimal literal: digits, an optional fraction, an optional
    exponent, with a digit before or after the point. *)
Definition decimal_literal (neg : bool) (l : list N) : number :=
  let '(ip, l1) := span_digits 10 l in
  let '(fp, l2) :=
    match l1 with
    | 46%N :: t => span_digits 10 t
    | _ => ([], l1)
    end in
  let ex : option Z :=
    match l2 with
    | [] => Some 0
    | c :: t =>
        if ((c =? 101) || (c =? 69))%N then
          let '(eneg, t1) :=
            match t with
            | 45%N :: t' => (true, t')
            | 43%N :: t' => (false, t')
            | _ => (false, t)
            end in
          match span_digits 10 t1 with
          | (d :: ds, []) =>
              let e := digits_value 10 (d :: ds) in
              Some (if eneg then - e else e)
          | _ => None
          end
        else None
    end in
  match ip, fp, ex with
  | [], [], _ => NaN
  | _, _, None => NaN
  | _, _, Some e =>
      let m := digits_value 10 (ip ++ fp) in
      let e10 := e - Z.of_nat (length fp) in
      if m =? 0 then Zero neg
      else if 0 <=? e10 then round_pos neg (m * 10 ^ e10) 1
      else round_pos neg m (10 ^ (- e10))
  end.

(** [Number(s)] on a string (StringToNumber): the string trimmed of white
    space is empty ([+0]), a literal with a radix prefix, a signed
    [Infinity], or a signed decimal literal; anything else is [NaN]. *)
Definition Number_string (s : string) : number :=
  match trim_codes (codes s) with
  | [] => Zero false
  | 48%N :: 120%N :: t | 48%N :: 88%N :: t => radix_literal 16 t
  | 48%N :: 111%N :: t | 48%N :: 79%N :: t => radix_literal 8 t
  | 48%N :: 98%N :: t | 48%N :: 66%N :: t => radix_literal 2 t
  | l =>
      let '(neg, l1) :=
        match l with
        | 45%N :: t => (true, t)
        | 43%N :: t => (false, t)
        | _ => (false, l)
        end in
      if String.eqb (of_codes l1) "Infinity" then Infinity neg
      else decimal_literal neg l1
  end.

(** *** Values

    What a handler receives is plain data: strings, numbers, booleans,
    [null], arrays and objects of those.  [compound A] is such data over
    the atoms [A].  The query-string parser produces data whose atoms are
    strings ([qvalue]); the JSON body parser and the values bound to a
    statement range over all primitives ([value]). *)

#[local] Set Warnings "-register-all".

Inductive compound (A : Type) : Type :=
  | Atom (a : A)
  | Arr (items : list (compound A))
  | Obj (props : list (string * compound A)).

Arguments Atom {A} a.
Arguments Arr {A} items.
Arguments Obj {A} props.

Inductive prim :=
  | Undefined
  | Null
  | Bool (b : bool)
  | Num (n : number)
  | Str (s : string).

Abbreviation qvalue := (compound string).
Abbreviation value := (compound prim).

(** A parsed string seen as a value. *)
Fixpoint embed (v : qvalue) : value :=
  match v with
  | Atom s => Atom (Str s)
  | Arr items => Arr (map embed items)
  | Obj props => Obj (map (fun p => (fst p, embed (snd p))) props)
  end.

(** Whether the object has an own property of that name. *)
Definition has_own {A} (key : string) (props : list (string * compound A)) : bool :=
  existsb (fun p => String.eqb (fst p) key) props.

(** ToString, as [String(v)], a template literal and [parseInt] apply it:
    a string is itself; an array is its elements joined by commas; a plain
    object is ["[object Object]"], unless it has an own [toString] property
    (which, being data, is not callable), and then the conversion throws a
    TypeError: [None]. *)
Fixpoint ToString (v : qvalue) : option string :=
  match v with
  | Atom s => Some s
  | Arr items =>
      join "," <$>
        (fix all (l : list qvalue) : option (list string) :=
           match l with
           | [] => Some []
           | x :: r =>
               match ToString x, all r with
               | Some s, Some ss => Some (s :: ss)
               | _, _ => None
               end
           end) items
  | Obj props =>
      if has_own "toString" props then None else Some "[object Object]"
  end.

(** ToBoolean: arrays and objects are truthy. *)
Definition truthy_q (v : qvalue) : bool :=
  match v with
  | Atom s => truthy_string s
  | _ => true
  end.

Definition truthy (v : value) : bool :=
  match v with
  | Atom Undefined | Atom Null => false
  | Atom (Bool b) => b
  | Atom (Num n) => truthy_number n
  | Atom (Str s) => truthy_string s
  | _ => true
  end.

(** [Number(v)]: a string is read as a numeric literal; an array or an
    object is first converted to a string. *)
Definition Number (v : qvalue) : option number :=
  Number_string <$> ToString v.

(** [parseInt(v)], where a missing property gives [undefined], whose
    string has no digits. *)
Definition parseInt (v : option qvalue) : option number :=
  match v with
  | None => Some NaN
  | Some v => parseInt_string <$> ToString v
  end.

(** [x || d] on numbers. *)
Definition or_default (x d : number) : number :=
  if truthy_number x then x else d.

End JS.

(** ** The SQL fragments *)

Module Sql.

Import JS.

(** One element of [conditions].  The three shapes are the three kinds of
    template literal [buildWhereClause] pushes; [render] is the text the
    literal produces. *)
Inductive condition :=
  | Compare (lhs op : string) (ph : nat)
  | InList (field : string) (phs : list nat)
  | Between (field : string) (ph1 ph2 : nat).

Definition placeholder (k : nat) : string := "$" +:+ decimal k.

Definition render (c : condition) : string :=
  match c with
  | Compare lhs op k => lhs +:+ " " +:+ op +:+ " " +:+ placeholder k
  | InList f phs => f +:+ " IN (" +:+ join "," (map placeholder phs) +:+ ")"
  | Between f a b =>
      f +:+ " BETWEEN " +:+ placeholder a +:+ " AND " +:+ placeholder b
  end.

(** The placeholders a condition refers to, in the order they occur. *)
Definition condition_placeholders (c : condition) : list nat :=
  match c with
  | Compare _ _ k => [k]
  | InList _ phs => phs
  | Between _ a b => [a; b]
  end.

(** Scanning a statement text for placeholders: a [$] followed by the
    longest run of decimal digits.  [cur] is the placeholder being read. *)
Definition is_digit (c : ascii) : option nat :=
  let n := nat_of_ascii c in
  if (48 <=? n)%nat && (n <=? 57)%nat then Some (n - 48)%nat else None.

Definition flush (cur : option nat) : list nat :=
  match cur with Some n => [n] | None => [] end.

Fixpoint scan (cur : option nat) (s : string) : list nat :=
  match s with
  | EmptyString => flush cur
  | String c r =>
      if Ascii.eqb c "$"%char then flush cur ++ scan (Some 0%nat) r
      else match cur, is_digit c with
           | Some n, Some d => scan (Some (10 * n + d)%nat) r
           | _, _ => flush cur ++ scan None r
           end
  end.

Definition placeholders_of (s : string) : list nat := scan None s.

(** No character of the string opens a placeholder. *)
Fixpoint dollar_free (s : string) : bool :=
  match s with
  | EmptyString => true
  | String c r => negb (Ascii.eqb c "$"%char) && dollar_free r
  end.

(** The string is empty or starts with something else than a digit: it
    ends a numeral written before it. *)
Definition boundary (s : string) : bool :=
  match s with
  | EmptyString => true
  | String c _ => match is_digit c with Some _ => false | None => true end
  end.

(** The text of a condition whose names are free of [$] scans to its
    placeholders, whatever follows it. *)
Definition clean (c : condition) : bool :=
  match c with
  | Compare lhs op _ => dollar_free lhs && dollar_free op
  | InList f _ => dollar_free f
  | Between f _ _ => dollar_free f
  end.

End Sql.

(** ** The route module *)

Module Leads.

Import JS Sql.

(** *** buildWhereClause (leads.js, lines 8-149)

    [q] is the object [{ ...req.query, userId: req.user.id }]: the parsed
    query string, a map from parameter names to strings, arrays or objects,
    with [userId] set last, so that a query parameter of that name is
    overridden.  No other property read by the function is called [userId];
    the object is therefore the pair of [userId] and the query map. *)

Record query_object := {
  userId : value;
  params : gmap string qvalue
}.

(** The three locals the function mutates. *)
Record builder := {
  conditions : list condition;
  values : list value;
  i : nat
}.

(** [conditions.push(c); values.push(...vs); i += n] *)
Definition push (c : condition) (vs : list value) (n : nat) (st : builder) : builder :=
  {| conditions := conditions st ++ [c];
     values := values st ++ vs;
     i := i st + n |}.

(** [if (q[key]) { ... }] *)
Definition if_truthy (o : option qvalue)
    (body : qvalue -> builder -> option builder) (st : builder) : option builder :=
  match o with
  | Some v => if truthy_q v then body v st else Some st
  | None => Some st
  end.

(** [if (q[key] !== undefined) { ... }] *)
Definition if_defined (o : option qvalue)
    (body : qvalue -> builder -> option builder) (st : builder) : option builder :=
  match o with
  | Some v => body v st
  | None => Some st
  end.

Definition str (s : string) : value := Atom (Str s).
Definition num (n : number) : value := Atom (Num n).

Section fields.

Variable q : gmap string qvalue.

(** Lines 18-29. *)
Definition stringField (field : string) (st : builder) : option builder :=
  st ← if_truthy (q !! (field +:+ "_equals"))
         (fun v st => Some (push (Compare field "=" (i st)) [embed v] 1 st)) st;
  if_truthy (q !! (field +:+ "_contains"))
    (fun v st =>
       s ← ToString v;
       Some (push (Compare field "ILIKE" (i st)) [str ("%" +:+ s +:+ "%")] 1 st)) st.

(** Lines 38-55.  (The list spread into [values.push] is as long as the
    query string allows; the engine's limit on the number of arguments is
    not modelled.) *)
Definition enumField (field : string) (st : builder) : option builder :=
  st ← if_truthy (q !! field)
         (fun v st => Some (push (Compare field "=" (i st)) [embed v] 1 st)) st;
  if_truthy (q !! (field +:+ "_in"))
    (fun v st =>
       s ← ToString v;
       let list := filter (fun x => truthy_string x = true) (map trim (split_comma s)) in
       match list with
       | [] => Some st
       | _ =>
           let placeholders := seq (i st) (length list) in
           Some (push (InList field placeholders) (map str list) (length list) st)
       end) st.

(** Lines 60-84. *)
Definition numberField (field : string) (st : builder) : option builder :=
  st ← if_defined (q !! field)
         (fun v st =>
            n ← Number v;
            Some (push (Compare field "=" (i st)) [num n] 1 st)) st;
  st ← if_defined (q !! (field +:+ "_gt"))
         (fun v st =>
            n ← Number v;
            Some (push (Compare field ">" (i st)) [num n] 1 st)) st;
  st ← if_defined (q !! (field +:+ "_lt"))
         (fun v st =>
            n ← Number v;
            Some (push (Compare field "<" (i st)) [num n] 1 st)) st;
  if_truthy (q !! (field +:+ "_between"))
    (fun v st =>
       s ← ToString v;
       match split_comma s with
       | min :: max :: _ =>
           Some (push (Between field (i st) (i st + 1))
                   [num (Number_string min); num (Number_string max)] 2 st)
       | _ => Some st
       end) st.

(** Lines 101-125. *)
Definition dateField (field : string) (st : builder) : option builder :=
  st ← if_truthy (q !! (field +:+ "_on"))
         (fun v st =>
            Some (push (Compare (field +:+ "::date") "=" (i st)) [embed v] 1 st)) st;
  st ← if_truthy (q !! (field +:+ "_before"))
         (fun v st =>
            Some (push (Compare (field +:+ "::date") "<=" (i st)) [embed v] 1 st)) st;
  st ← if_truthy (q !! (field +:+ "_after"))
         (fun v st =>
            Some (push (Compare (field +:+ "::date") ">=" (i st)) [embed v] 1 st)) st;
  if_truthy (q !! (field +:+ "_between"))
    (fun v st =>
       s ← ToString v;
       match split_comma s with
       | from :: to :: _ =>
           if truthy_string from && truthy_string to
           then Some (push (Between field (i st) (i st + 1)) [str from; str to] 2 st)
           else Some st
       | _ => Some st
       end) st.

End fields.

(** Lines 9-15: the empty arrays, [i = 1], then the owner scope. *)
Definition owner_scope (uid : value) : builder :=
  push (Compare "user_id" "=" 1) [uid] 1
    {| conditions := []; values := []; i := 1 |}.

(** Lines 17-146: every filter in the order of the source. *)
Definition build (qo : query_object) : option builder :=
  let q := params qo in
  st ← Some (owner_scope (userId qo));
  st ← stringField q "email" st;
  st ← stringField q "company" st;
  st ← stringField q "city" st;
  st ← stringField q "first_name" st;
  st ← stringField q "last_name" st;
  st ← enumField q "status" st;
  st ← enumField q "source" st;
  st ← numberField q "score" st;
  st ← numberField q "lead_value" st;
  st ← if_defined (q !! "value_min")
         (fun v st =>
            n ← Number v;
            Some (push (Compare "lead_value" ">=" (i st)) [num n] 1 st)) st;
  st ← if_defined (q !! "value_max")
         (fun v st =>
            n ← Number v;
            Some (push (Compare "lead_value" "<=" (i st)) [num n] 1 st)) st;
  st ← dateField q "created_at" st;
  st ← dateField q "last_activity_at" st;
  st ← if_truthy (q !! "created_after")
         (fun v st =>
            Some (push (Compare "created_at::date" ">=" (i st)) [embed v] 1 st)) st;
  st ← if_truthy (q !! "created_before")
         (fun v st =>
            Some (push (Compare "created_at::date" "<=" (i st)) [embed v] 1 st)) st;
  if_defined (q !! "is_qualified")
    (fun v st =>
       s ← ToString v;
       Some (push (Compare "is_qualified" "=" (i st))
               [Atom (Bool (lower_is_true s))] 1 st)) st.

(** What the function returns: the text [where_] and the bound [values].
    [where_conditions] is the list of conditions of which [where_] is the
    text; the statement semantics below reads the conditions. *)
Record where_clause := {
  where_conditions : list condition;
  where_ : string;
  bound : list value
}.

(** Line 148. *)
Definition where_text (cs : list condition) : string :=
  match cs with
  | [] => "TRUE"
  | _ => join " AND " (map render cs)
  end.

(** [buildWhereClause(q)]; [None] when a conversion throws. *)
Definition buildWhereClause (qo : query_object) : option where_clause :=
  st ← build qo;
  Some {| where_conditions := conditions st;
          where_ := where_text (conditions st);
          bound := values st |}.

(** The parameter [$k] of a statement. *)
Definition param (vs : list value) (k : nat) : option value :=
  match k with
  | O => None
  | S k' => vs !! k'
  end.

(** The same function as a list of steps run in order. *)
Definition steps (q : gmap string qvalue) : list (builder -> option builder) :=
  [ stringField q "email"; stringField q "company"; stringField q "city";
    stringField q "first_name"; stringField q "last_name";
    enumField q "status"; enumField q "source";
    numberField q "score"; numberField q "lead_value";
    if_defined (q !! "value_min")
      (fun v st =>
         n ← Number v;
         Some (push (Compare "lead_value" ">=" (i st)) [num n] 1 st));
    if_defined (q !! "value_max")
      (fun v st =>
         n ← Number v;
         Some (push (Compare "lead_value" "<=" (i st)) [num n] 1 st));
    dateField q "created_at"; dateField q "last_activity_at";
    if_truthy (q !! "created_after")
      (fun v st =>
         Some (push (Compare "created_at::date" ">=" (i st)) [embed v] 1 st));
    if_truthy (q !! "created_before")
      (fun v st =>
         Some (push (Compare "created_at::date" "<=" (i st)) [embed v] 1 st));
    if_defined (q !! "is_qualified")
      (fun v st =>
         s ← ToString v;
         Some (push (Compare "is_qualified" "=" (i st))
                 [Atom (Bool (lower_is_true s))] 1 st)) ].

Fixpoint run (l : list (builder -> option builder)) (st : builder) : option builder :=
  match l with
  | [] => Some st
  | f :: r => f st ≫= run r
  end.

(** The builder refers to its values by consecutive placeholders: the
    placeholders of the conditions pushed so far are [1 .. values.length],
    and [i] is the next one. *)
Definition consecutive (st : builder) : Prop :=
  concat (map condition_placeholders (conditions st)) = seq 1 (length (values st))
  /\ i st = S (length (values st))
  /\ forallb clean (conditions st) = true.

(** A later state only adds to an earlier one. *)
Definition extends (st st' : builder) : Prop :=
  exists cs vs,
    conditions st' = conditions st ++ cs /\ values st' = values st ++ vs.

(** A step keeps the placeholders consecutive and only adds. *)
Definition sound (f : builder -> option builder) : Prop :=
  forall st st', consecutive st -> f st = Some st' ->
    consecutive st' /\ extends st st'.

(** [shape k] is bound to [v]: the condition is among the conditions, for
    some placeholder [$k], and [values[k - 1]] is [v]. *)
Definition binds (cs : list condition) (vs : list value)
    (shape : nat -> condition) (v : value) : Prop :=
  exists k, In (shape k) cs /\ param vs k = Some v.

(** The same for the two ends of a BETWEEN. *)
Definition binds_between (cs : list condition) (vs : list value)
    (f : string) (v1 v2 : value) : Prop :=
  exists k, In (Between f k (k + 1)) cs
            /\ param vs k = Some v1 /\ param vs (k + 1) = Some v2.

(** A property of the builder that later steps cannot undo, a step that
    brings it about, and a step that never throws. *)
Definition stable (P : builder -> Prop) : Prop :=
  forall st st', extends st st' -> P st -> P st'.

Definition establishes (P : builder -> Prop) (f : builder -> option builder) : Prop :=
  forall st st', consecutive st -> f st = Some st' -> P st'.

Definition never_throws (f : builder -> option builder) : Prop :=
  forall st, is_Some (f st).

(** The numeric operators: the query parameter and the comparison it
    adds. *)
Definition numeric_operators : list (string * (nat -> condition)) :=
  [ ("score", Compare "score" "=");
    ("score_gt", Compare "score" ">");
    ("score_lt", Compare "score" "<");
    ("lead_value", Compare "lead_value" "=");
    ("lead_value_gt", Compare "lead_value" ">");
    ("lead_value_lt", Compare "lead_value" "<");
    ("value_min", Compare "lead_value" ">=");
    ("value_max", Compare "lead_value" "<=") ].

(** Every query parameter is a plain string (given once, without
    brackets). *)
Definition string_valued (q : gmap string qvalue) : Prop :=
  forall k v, q !! k = Some v -> exists s, v = Atom s.

(** *** The [leads] table

    A row has the columns of the schema.  [id], [user_id] and the two
    time stamps are typed; a data column holds the value that was bound
    for it when the row was written (how the engine converts a parameter
    to the column type is not part of the model: a row that would not
    convert is one the engine does not admit, see [admissible]). *)

Record lead := {
  id : Z;
  user_id : option Z;
  first_name : value;
  last_name : value;
  email : value;
  phone : value;
  company : value;
  city : value;
  state : value;
  source : value;
  status : value;
  score : value;
  lead_value : value;
  last_activity_at : value;
  is_qualified : value;
  created_at : Z;
  updated_at : Z
}.

(** The table, the next value of the [id] sequence and the clock that
    [CURRENT_TIMESTAMP] reads. *)
Record database := {
  rows : list lead;
  next_id : Z;
  now : Z
}.

(** What the module leaves to the database engine:
    - [pg_integer v]: how a parameter compared with an INTEGER column is
      read: [None], the engine rejects it and the statement fails;
      [Some None], it is NULL; [Some (Some z)], it is the integer [z];
    - [pg_bigint v]: the row count a LIMIT or OFFSET parameter stands for,
      [None] when the engine rejects it;
    - [filter_sem c ps]: the predicate a filter condition other than the
      owner scope denotes, given the values [ps] of the placeholders it
      names (in the order of [condition_placeholders], [None] for a
      placeholder without a value); the result is [None] when the engine
      rejects the condition (an ill-typed parameter);
    - [admissible rs]: the table satisfies the constraints of the schema
      (types and lengths, NOT NULL, UNIQUE, CHECK). *)
Record engine := {
  pg_integer : value -> option (option Z);
  pg_bigint : value -> option nat;
  filter_sem : condition -> list (option value) -> option (lead -> bool);
  admissible : list lead -> bool
}.

(** The statements the module issues. *)
Inductive statement :=
  | CountLeads (cs : list condition)
  | ListLeads (cs : list condition) (limit_ph offset_ph : nat)
  | SelectLead
  | SelectLeadId
  | InsertLead
  | UpdateLead
  | DeleteLead.

Definition nl : string := String (ascii_of_nat 10) EmptyString.

(** The text passed to [pool.query], as the string and template literals
    of the source spell it. *)
Definition sql (s : statement) : string :=
  match s with
  | CountLeads cs => "SELECT COUNT(*) FROM leads WHERE " +:+ where_text cs
  | ListLeads cs l o =>
      nl +:+ "      SELECT *" +:+
      nl +:+ "      FROM leads" +:+
      nl +:+ "      WHERE " +:+ where_text cs +:+
      nl +:+ "      ORDER BY created_at DESC" +:+
      nl +:+ "      LIMIT " +:+ placeholder l +:+ " OFFSET " +:+ placeholder o +:+
      nl +:+ "    "
  | SelectLead => "SELECT * FROM leads WHERE id = $1 AND user_id = $2"
  | SelectLeadId => "SELECT id FROM leads WHERE id = $1 AND user_id = $2"
  | InsertLead =>
      "INSERT INTO leads (" +:+
      nl +:+ "        user_id, first_name, last_name, email, phone, company, city, state," +:+
      nl +:+ "        source, status, score, lead_value, last_activity_at, is_qualified" +:+
      nl +:+ "      ) VALUES ($1,$2,$3,$4,$5,$6,$7,$8,$9,$10,$11,$12,$13,$14)" +:+
      nl +:+ "      RETURNING *"
  | UpdateLead =>
      "UPDATE leads SET" +:+
      nl +:+ "        first_name=$1, last_name=$2, email=$3, phone=$4, company=$5, city=$6, state=$7," +:+
      nl +:+ "        source=$8, status=$9, score=$10, lead_value=$11, last_activity_at=$12," +:+
      nl +:+ "        is_qualified=$13, updated_at=CURRENT_TIMESTAMP" +:+
      nl +:+ "      WHERE id=$14 AND user_id=$15" +:+
      nl +:+ "      RETURNING *"
  | DeleteLead => "DELETE FROM leads WHERE id = $1 AND user_id = $2 RETURNING id"
  end.

Definition not_older (a b : lead) : Prop := created_at b <= created_at a.

#[global] Instance not_older_dec : RelDecision not_older.
Proof. intros a b. unfold not_older. apply Z_le_dec. Defined.

(** [column = $k] on a nullable integer column: NULL equals nothing. *)
Definition matches_int (col : option Z) (p : option Z) : bool :=
  match col, p with
  | Some a, Some b => a =? b
  | _, _ => false
  end.

Section statements.

Variable E : engine.

(** The values of the placeholders a condition names. *)
Definition operands (c : condition) (vs : list value) : list (option value) :=
  map (param vs) (condition_placeholders c).

(** The predicate a condition denotes.  The owner scope compares the
    integer column [user_id]. *)
Definition condition_sem (c : condition) (vs : list value) : option (lead -> bool) :=
  match c with
  | Compare lhs op k =>
      if String.eqb lhs "user_id" && String.eqb op "=" then
        v ← param vs k;
        p ← pg_integer E v;
        Some (fun r => matches_int (user_id r) p)
      else filter_sem E c (operands c vs)
  | _ => filter_sem E c (operands c vs)
  end.

(** The conjunction of the conditions; it fails when one of them does. *)
Fixpoint where_sem (cs : list condition) (vs : list value) : option (lead -> bool) :=
  match cs with
  | [] => Some (fun _ => true)
  | c :: cs' =>
      p ← condition_sem c vs;
      ps ← where_sem cs' vs;
      Some (fun r => p r && ps r)
  end.

(** [WHERE id = $1 AND user_id = $2] (and [$14], [$15] in the update). *)
Definition by_id_and_owner (id_p uid_p : option value) : option (lead -> bool) :=
  v1 ← id_p;
  v2 ← uid_p;
  i ← pg_integer E v1;
  u ← pg_integer E v2;
  Some (fun r => matches_int (Some (id r)) i && matches_int (user_id r) u).

(** [ORDER BY created_at DESC] *)
Definition newest_first (rs : list lead) : list lead :=
  merge_sort not_older rs.

(** The counting SELECT: the count, which the driver hands over as a
    decimal string. *)
Definition exec_count (db : database) (cs : list condition) (vs : list value)
    : option string :=
  p ← where_sem cs vs;
  Some (decimal (length (List.filter p (rows db)))).

Definition exec_list (db : database) (cs : list condition) (l o : nat)
    (vs : list value) : option (list lead) :=
  p ← where_sem cs vs;
  vl ← param vs l;
  vo ← param vs o;
  n ← pg_bigint E vl;
  m ← pg_bigint E vo;
  Some (take n (drop m (newest_first (List.filter p (rows db))))).

Definition exec_select (db : database) (vs : list value) : option (list lead) :=
  p ← by_id_and_owner (param vs 1) (param vs 2);
  Some (List.filter p (rows db)).

(** [INSERT ... RETURNING *]: the row gets the next [id] and the current
    time; the statement fails if the table would not be admissible. *)
Definition exec_insert (db : database) (vs : list value)
    : option (list lead * database) :=
  match vs with
  | [u; fn; ln; em; ph; co; ci; st; so; sta; sc; lv; la; iq] =>
      owner ← pg_integer E u;
      let r := {| id := next_id db; user_id := owner;
                  first_name := fn; last_name := ln; email := em; phone := ph;
                  company := co; city := ci; state := st; source := so;
                  status := sta; score := sc; lead_value := lv;
                  last_activity_at := la; is_qualified := iq;
                  created_at := now db; updated_at := now db |} in
      if admissible E (rows db ++ [r])
      then Some ([r], {| rows := rows db ++ [r];
                         next_id := next_id db + 1; now := now db |})
      else None
  | _ => None
  end.

(** [UPDATE ... SET ... WHERE id=$14 AND user_id=$15 RETURNING *] *)
Definition exec_update (db : database) (vs : list value)
    : option (list lead * database) :=
  match vs with
  | [fn; ln; em; ph; co; ci; st; so; sta; sc; lv; la; iq; i; u] =>
      p ← by_id_and_owner (Some i) (Some u);
      let set r := {| id := id r; user_id := user_id r;
                      first_name := fn; last_name := ln; email := em; phone := ph;
                      company := co; city := ci; state := st; source := so;
                      status := sta; score := sc; lead_value := lv;
                      last_activity_at := la; is_qualified := iq;
                      created_at := created_at r; updated_at := now db |} in
      let rs := map (fun r => if (p r : bool) then set r else r) (rows db) in
      if admissible E rs
      then Some (map set (List.filter p (rows db)),
                 {| rows := rs; next_id := next_id db; now := now db |})
      else None
  | _ => None
  end.

(** [DELETE ... RETURNING id] *)
Definition exec_delete (db : database) (vs : list value)
    : option (list Z * database) :=
  p ← by_id_and_owner (param vs 1) (param vs 2);
  Some (map id (List.filter p (rows db)),
        {| rows := List.filter (fun r => negb (p r)) (rows db);
           next_id := next_id db; now := now db |}).

End statements.

(** *** Requests and responses *)

Record request := {
  authorization : option string;
  id_param : string;
  query : gmap string qvalue;
  body : gmap string value
}.

Record pagination_shape := {
  p_page : number;
  p_limit : number;
  p_total : number;
  pages : number
}.

(** The object built at lines 173-182. *)
Record payload := {
  data : list lead;
  page : number;
  limit : number;
  total : number;
  totalPages : number;
  leads : list lead;
  pagination : pagination_shape
}.

Inductive json :=
  | ErrorBody (error : string)
  | LeadBody (lead : lead)
  | MessageLeadBody (message : string) (lead : option lead)
  | MessageBody (message : string)
  | ListBody (p : payload)
  | OtherBody (text : string).

Record response := {
  code : nat;
  content : json
}.

(** What a request did: the response sent, the database it left, and the
    statements passed to [pool.query] in order, each with its values. *)
Record outcome := {
  sent : response;
  final : database;
  issued : list (statement * list value)
}.

Definition server_error : response :=
  {| code := 500; content := ErrorBody "Server error" |}.

Definition not_found : response :=
  {| code := 404; content := ErrorBody "Lead not found" |}.

Definition bad_request : response :=
  {| code := 400;
     content := ErrorBody "first_name, last_name, and email are required" |}.

(** [req.body.<name>]; a missing property is [undefined]. *)
Definition field (b : gmap string value) (name : string) : value :=
  default (Atom Undefined) (b !! name).

(** [x || d] *)
Definition or_else (x d : value) : value := if truthy x then x else d.

(** [typeof x === 'number' ? x : d] *)
Definition number_or (x d : value) : value :=
  match x with Atom (Num _) => x | _ => d end.

(** [typeof x === 'boolean' ? x : d] *)
Definition boolean_or (x d : value) : value :=
  match x with Atom (Bool _) => x | _ => d end.

(** [!first_name || !last_name || !email] *)
Definition missing_required (b : gmap string value) : bool :=
  negb (truthy (field b "first_name"))
  || negb (truthy (field b "last_name"))
  || negb (truthy (field b "email")).

(** The thirteen data values of an insert or update, lines 237-249 and
    295-307. *)
Definition data_values (b : gmap string value) : list value :=
  [ field b "first_name"; field b "last_name"; field b "email";
    or_else (field b "phone") (Atom Null);
    or_else (field b "company") (Atom Null);
    or_else (field b "city") (Atom Null);
    or_else (field b "state") (Atom Null);
    or_else (field b "source") (Atom Null);
    or_else (field b "status") (str "new");
    number_or (field b "score") (Atom Null);
    number_or (field b "lead_value") (Atom Null);
    or_else (field b "last_activity_at") (Atom Null);
    boolean_or (field b "is_qualified") (Atom (Bool false)) ].

(** Lines 154-156; [None] when [parseInt] throws. *)
Definition paging (query : gmap string qvalue) : option (number * number * number) :=
  p ← parseInt (query !! "page");
  let page := Math_max (or_default p (Finite 1)) (Finite 1) in
  l ← parseInt (query !! "limit");
  let limit := Math_min (Math_max (or_default l (Finite 20)) (Finite 1)) (Finite 100) in
  let offset := mul (sub page (Finite 1)) limit in
  Some (page, limit, offset).

Section handlers.

Variable E : engine.

(** GET /leads, lines 152-188.  Every [None] below is an exception, which
    the [catch] turns into the 500 response. *)
Definition get_leads (uid : value) (req : request) (db : database) : outcome :=
  match paging (query req) with
  | None => {| sent := server_error; final := db; issued := [] |}
  | Some (page, limit, offset) =>
    match buildWhereClause {| userId := uid; params := query req |} with
    | None => {| sent := server_error; final := db; issued := [] |}
    | Some w =>
      let count := (CountLeads (where_conditions w), bound w) in
      match exec_count E db (where_conditions w) (bound w) with
      | None => {| sent := server_error; final := db; issued := [count] |}
      | Some c =>
        let total := parseInt_string c in
        let n := length (bound w) in
        let list := (ListLeads (where_conditions w) (n + 1) (n + 2),
                     bound w ++ [num limit; num offset]) in
        match exec_list E db (where_conditions w) (n + 1) (n + 2) (snd list) with
        | None => {| sent := server_error; final := db; issued := [count; list] |}
        | Some rs =>
          let totalPages := Math_ceil (div total limit) in
          {| sent :=
               {| code := 200;
                  content := ListBody
                    {| data := rs; page := page; limit := limit; total := total;
                       totalPages := totalPages;
                       leads := rs;
                       pagination := {| p_page := page; p_limit := limit;
                                        p_total := total; pages := totalPages |} |} |};
             final := db;
             issued := [count; list] |}
        end
      end
    end
  end.

(** GET /leads/:id, lines 191-204. *)
Definition get_lead (uid : value) (req : request) (db : database) : outcome :=
  let vs := [str (id_param req); uid] in
  match exec_select E db vs with
  | None => {| sent := server_error; final := db; issued := [(SelectLead, vs)] |}
  | Some [] => {| sent := not_found; final := db; issued := [(SelectLead, vs)] |}
  | Some (r :: _) =>
      {| sent := {| code := 200; content := LeadBody r |};
         final := db; issued := [(SelectLead, vs)] |}
  end.

(** POST /leads, lines 207-258. *)
Definition post_lead (uid : value) (req : request) (db : database) : outcome :=
  if missing_required (body req)
  then {| sent := bad_request; final := db; issued := [] |}
  else
    let vs := uid :: data_values (body req) in
    match exec_insert E db vs with
    | None => {| sent := server_error; final := db; issued := [(InsertLead, vs)] |}
    | Some (rs, db') =>
        {| sent := {| code := 201;
                      content := MessageLeadBody "Lead created successfully" (head rs) |};
           final := db'; issued := [(InsertLead, vs)] |}
    end.

(** PUT /leads/:id, lines 261-318. *)
Definition put_lead (uid : value) (req : request) (db : database) : outcome :=
  let look := (SelectLeadId, [str (id_param req); uid]) in
  match exec_select E db (snd look) with
  | None => {| sent := server_error; final := db; issued := [look] |}
  | Some [] => {| sent := not_found; final := db; issued := [look] |}
  | Some (_ :: _) =>
      if missing_required (body req)
      then {| sent := bad_request; final := db; issued := [look] |}
      else
        let vs := data_values (body req) ++ [str (id_param req); uid] in
        match exec_update E db vs with
        | None =>
            {| sent := server_error; final := db;
               issued := [look; (UpdateLead, vs)] |}
        | Some (rs, db') =>
            {| sent := {| code := 200;
                          content := MessageLeadBody "Lead updated successfully" (head rs) |};
               final := db'; issued := [look; (UpdateLead, vs)] |}
        end
  end.

(** DELETE /leads/:id, lines 321-331. *)
Definition delete_lead (uid : value) (req : request) (db : database) : outcome :=
  let vs := [str (id_param req); uid] in
  match exec_delete E db vs with
  | None => {| sent := server_error; final := db; issued := [(DeleteLead, vs)] |}
  | Some ([], db') => {| sent := not_found; final := db'; issued := [(DeleteLead, vs)] |}
  | Some (_ :: _, db') =>
      {| sent := {| code := 200; content := MessageBody "Lead deleted successfully" |};
         final := db'; issued := [(DeleteLead, vs)] |}
  end.

(** Modelled from the spec: the authentication middleware
    ([../middleware/auth], not part of the sources at hand), "an
    authentication middleware (external collaborator, not specified here)
    that resolves the caller's identity": it either resolves the user id
    and lets the handler run with [req.user.id] set to it, or answers the
    request itself. *)
Inductive auth_result :=
  | Granted (uid : value)
  | Denied (r : response).

Variable auth : request -> auth_result.

Inductive route := GetLeads | GetLead | PostLead | PutLead | DeleteLeadRoute.

Definition handler (r : route) : value -> request -> database -> outcome :=
  match r with
  | GetLeads => get_leads
  | GetLead => get_lead
  | PostLead => post_lead
  | PutLead => put_lead
  | DeleteLeadRoute => delete_lead
  end.

(** [router.<verb>(path, auth, handler)] *)
Definition serve (r : route) (req : request) (db : database) : outcome :=
  match auth req with
  | Denied resp => {| sent := resp; final := db; issued := [] |}
  | Granted uid => handler r uid req db
  end.

(** The leads a response carries. *)
Definition returned_leads (r : response) : list lead :=
  match content r with
  | LeadBody l => [l]
  | MessageLeadBody _ (Some l) => [l]
  | ListBody p => data p ++ leads p
  | _ => []
  end.

End handlers.

(** No lead with the id [i] belongs to the user [u]. *)
Definition none_owned (db : database) (i u : option Z) : Prop :=
  forall l, In l (rows db) ->
    ~ (i = Some (id l) /\ u = user_id l /\ user_id l <> None).

(** The same request with another body. *)
Definition with_body (req : request) (b : gmap string value) : request :=
  {| authorization := authorization req; id_param := id_param req;
     query := query req; body := b |}.

(** No lead whose id is the id of the request belongs to the user, as the
    database reads the two parameters. *)
Definition no_such_lead (E : engine) (uid : value) (req : request)
    (db : database) : Prop :=
  forall l, In l (rows db) ->
    ~ (pg_integer E (str (id_param req)) = Some (Some (id l))
       /\ pg_integer E uid = Some (user_id l)
       /\ user_id l <> None).

(** "Not found" for a route on one lead: whenever no such lead belongs to
    the user, the answer is the 404 one and the table is left alone. *)
Definition not_found_unless_owned (r : route) : Prop :=
  forall E uid req db,
    no_such_lead E uid req db ->
    sent (handler E r uid req db) = not_found
    /\ final (handler E r uid req db) = db.

(** The step order "validate, and only then query" for a route: a body
    that fails the validation causes no statement. *)
Definition validates_before_querying (r : route) : Prop :=
  forall E auth req db,
    missing_required (body req) = true ->
    issued (serve E auth r req db) = [].

(** *** A small engine, middleware and table for examples *)

Definition in_int4 (z : Z) : bool := (- 2 ^ 31 <=? z) && (z <? 2 ^ 31).

(** A decimal numeral with an optional minus sign. *)
Definition sample_int4in (s : string) : option (option Z) :=
  let '(neg, l) :=
    match codes s with
    | 45%N :: t => (true, t)
    | l => (false, l)
    end in
  match span_digits 10 l with
  | (d :: ds, []) =>
      let z := digits_value 10 (d :: ds) in
      let z := if neg then - z else z in
      if in_int4 z then Some (Some z) else None
  | _ => None
  end.

Definition sample_integer (v : value) : option (option Z) :=
  match v with
  | Atom Undefined | Atom Null => Some None
  | Atom (Num (Zero _)) => Some (Some 0)
  | Atom (Num (Finite q)) =>
      if (Qden q =? 1)%positive && in_int4 (Qnum q) then Some (Some (Qnum q))
      else None
  | Atom (Str s) => sample_int4in s
  | _ => None
  end.

Definition sample_count (v : value) : option nat :=
  match sample_integer v with
  | Some (Some z) => if 0 <=? z then Some (Z.to_nat z) else None
  | _ => None
  end.

(** Filters: [status = $k] compares strings; the other filters are
    accepted and ignored. *)
Definition sample_filter (c : condition) (ps : list (option value))
    : option (lead -> bool) :=
  match c with
  | Compare "status" "=" _ =>
      match ps with
      | [Some (Atom (Str s))] =>
          Some (fun r => match status r with
                         | Atom (Str t) => String.eqb s t
                         | _ => false
                         end)
      | _ => None
      end
  | _ => Some (fun _ => true)
  end.

(** Constraints: the [id]s are distinct and [email] is a string. *)
Definition sample_admissible (rs : list lead) : bool :=
  bool_decide (NoDup (map id rs))
  && forallb (fun r => match email r with Atom (Str _) => true | _ => false end) rs.

Definition sample_engine : engine :=
  {| pg_integer := sample_integer;
     pg_bigint := sample_count;
     filter_sem := sample_filter;
     admissible := sample_admissible |}.

Definition sample_auth (req : request) : auth_result :=
  match authorization req with
  | Some "token-7" => Granted (num (Finite 7))
  | Some "token-8" => Granted (num (Finite 8))
  | _ => Denied {| code := 401; content := OtherBody "Unauthorized" |}
  end.

Definition sample_lead (i owner : Z) (mail st : string) (at_ : Z) : lead :=
  {| id := i; user_id := Some owner;
     first_name := str "Ada"; last_name := str "Byron"; email := str mail;
     phone := Atom Null; company := Atom Null; city := Atom Null;
     state := Atom Null; source := Atom Null; status := str st;
     score := Atom Null; lead_value := Atom Null;
     last_activity_at := Atom Null; is_qualified := Atom (Bool false);
     created_at := at_; updated_at := at_ |}.

Definition sample_db : database :=
  {| rows := [ sample_lead 1 7 "a@x.io" "won" 100;
               sample_lead 2 8 "b@x.io" "new" 200;
               sample_lead 3 7 "c@x.io" "new" 300 ];
     next_id := 4;
     now := 1000 |}.

Definition C10_sample_query : query_object :=
  {| userId := num (Finite 7);
     params := list_to_map
       [ ("email_contains", Atom "x.io"); ("status_in", Atom "new, won,,");
         ("score_between", Atom "10,200"); ("is_qualified", Atom "yes") ] |}.

Definition C6_sample_query : query_object :=
  {| userId := num (Finite 7);
     params := list_to_map
       [ ("score", Atom "abc"); ("score_between", Atom "10,x");
         ("value_max", Atom ""); ("is_qualified", Atom " true") ] |}.

Definition sample_request (token id_ : string)
    (q : list (string * qvalue)) (b : list (string * value)) : request :=
  {| authorization := Some token; id_param := id_;
     query := list_to_map q; body := list_to_map b |}.

Definition C7_sample_request : request :=
  sample_request "token-7" "" [("limit", Atom "1"); ("page", Atom "2")] [].

Definition malformed_id_request : request :=
  sample_request "token-7" "abc" [] [].

Definition C2_sample_request : request :=
  sample_request "token-7" "2" []
    [ ("first_name", str "Grace"); ("last_name", str "Hopper");
      ("email", str "g@x.io") ].

Definition C3_sample_request : request :=
  sample_request "token-7" "1" []
    [ ("first_name", str "Grace"); ("last_name", str "Hopper");
      ("email", str "") ].

Definition C8_sample_request : request :=
  sample_request "token-7" "1" []
    [ ("first_name", str "Grace"); ("last_name", str "Hopper");
      ("email", str "g@x.io") ].

Definition C4_sample_request : request :=
  sample_request "token-7" "1" [] [].

End Leads.

(** ** The filters of [buildWhereClause] as a table *)

Module Tables.

Import JS Sql Leads.

(** The seven kinds of [if] block in the function. *)
Inductive filter_kind :=
  | Plain (lhs op : string)
  | Contains (field : string)
  | InSet (field : string)
  | Numeric (lhs op : string)
  | NumericBetween (field : string)
  | DateBetween (field : string)
  | Flag (lhs : string).

(** The block of that kind, given what [q[key]] is. *)
Definition filter_step (k : filter_kind) (o : option qvalue)
    : builder -> option builder :=
  match k with
  | Plain lhs op =>
      if_truthy o
        (fun v st => Some (push (Compare lhs op (i st)) [embed v] 1 st))
  | Contains field =>
      if_truthy o
        (fun v st =>
           s ← ToString v;
           Some (push (Compare field "ILIKE" (i st)) [str ("%" +:+ s +:+ "%")] 1 st))
  | InSet field =>
      if_truthy o
        (fun v st =>
           s ← ToString v;
           let list := filter (fun x => truthy_string x = true) (map trim (split_comma s)) in
           match list with
           | [] => Some st
           | _ =>
               let placeholders := seq (i st) (length list) in
               Some (push (InList field placeholders) (map str list) (length list) st)
           end)
  | Numeric lhs op =>
      if_defined o
        (fun v st =>
           n ← Number v;
           Some (push (Compare lhs op (i st)) [num n] 1 st))
  | NumericBetween field =>
      if_truthy o
        (fun v st =>
           s ← ToString v;
           match split_comma s with
           | min :: max :: _ =>
               Some (push (Between field (i st) (i st + 1))
                       [num (Number_string min); num (Number_string max)] 2 st)
           | _ => Some st
           end)
  | DateBetween field =>
      if_truthy o
        (fun v st =>
           s ← ToString v;
           match split_comma s with
           | from :: to :: _ =>
               if truthy_string from && truthy_string to
               then Some (push (Between field (i st) (i st + 1)) [str from; str to] 2 st)
               else Some st
           | _ => Some st
           end)
  | Flag lhs =>
      if_defined o
        (fun v st =>
           s ← ToString v;
           Some (push (Compare lhs "=" (i st))
                   [Atom (Bool (lower_is_true s))] 1 st))
  end.

(** Every query parameter the function reads, in the order it reads
    them, with the kind of its block. *)
Definition filter_table : list (string * filter_kind) :=
  [ ("email_equals", Plain "email" "="); ("email_contains", Contains "email");
    ("company_equals", Plain "company" "="); ("company_contains", Contains "company");
    ("city_equals", Plain "city" "="); ("city_contains", Contains "city");
    ("first_name_equals", Plain "first_name" "=");
    ("first_name_contains", Contains "first_name");
    ("last_name_equals", Plain "last_name" "=");
    ("last_name_contains", Contains "last_name");
    ("status", Plain "status" "="); ("status_in", InSet "status");
    ("source", Plain "source" "="); ("source_in", InSet "source");
    ("score", Numeric "score" "="); ("score_gt", Numeric "score" ">");
    ("score_lt", Numeric "score" "<"); ("score_between", NumericBetween "score");
    ("lead_value", Numeric "lead_value" "="); ("lead_value_gt", Numeric "lead_value" ">");
    ("lead_value_lt", Numeric "lead_value" "<");
    ("lead_value_between", NumericBetween "lead_value");
    ("value_min", Numeric "lead_value" ">="); ("value_max", Numeric "lead_value" "<=");
    ("created_at_on", Plain "created_at::date" "=");
    ("created_at_before", Plain "created_at::date" "<=");
    ("created_at_after", Plain "created_at::date" ">=");
    ("created_at_between", DateBetween "created_at");
    ("last_activity_at_on", Plain "last_activity_at::date" "=");
    ("last_activity_at_before", Plain "last_activity_at::date" "<=");
    ("last_activity_at_after", Plain "last_activity_at::date" ">=");
    ("last_activity_at_between", DateBetween "last_activity_at");
    ("created_after", Plain "created_at::date" ">=");
    ("created_before", Plain "created_at::date" "<=");
    ("is_qualified", Flag "is_qualified") ].

Definition filter_keys : list string := map fst filter_table.

(** The blocks of the table for a query. *)
Definition table_steps (q : gmap string qvalue) : list (builder -> option builder) :=
  map (fun e => filter_step (snd e) (q !! fst e)) filter_table.

(** The kinds whose block converts the value with [String] or [Number]. *)
Definition converts (k : filter_kind) : bool :=
  match k with
  | Plain _ _ => false
  | _ => true
  end.

(** The kinds whose block is guarded by [if (q[key])]; the others are
    guarded by [q[key] !== undefined]. *)
Definition truthy_guarded (k : filter_kind) : bool :=
  match k with
  | Numeric _ _ | Flag _ => false
  | _ => true
  end.

Definition is_between (k : filter_kind) : bool :=
  match k with
  | NumericBetween _ | DateBetween _ => true
  | _ => false
  end.

(** The items of an [_in] list: trimmed, the empty ones dropped. *)
Definition items (s : string) : list string :=
  filter (fun x => truthy_string x = true) (map trim (split_comma s)).

(** The list condition on [f] is among the conditions, and its
    placeholders are bound to the strings [xs] in order. *)
Definition binds_list (cs : list condition) (vs : list value)
    (f : string) (xs : list string) : Prop :=
  exists k, In (InList f (seq k (length xs))) cs
            /\ forall j x, xs !! j = Some x -> param vs (k + j) = Some (str x).

(** The column (or column expression) a condition is on. *)
Definition column (c : condition) : string :=
  match c with
  | Compare lhs _ _ => lhs
  | InList f _ => f
  | Between f _ _ => f
  end.

(** The column a block of the table filters on. *)
Definition kind_column (k : filter_kind) : string :=
  match k with
  | Plain lhs _ => lhs
  | Contains f => f
  | InSet f => f
  | Numeric lhs _ => lhs
  | NumericBetween f => f
  | DateBetween f => f
  | Flag lhs => lhs
  end.

(** Queries for examples. *)
Definition paged_query : gmap string qvalue :=
  list_to_map [ ("page", Atom "3"); ("limit", Atom "50"); ("sort", Atom "email");
                ("status", Atom "new") ].

Definition status_query : gmap string qvalue :=
  list_to_map [ ("status", Atom "new") ].

Definition filters_query : query_object :=
  {| userId := num (Finite 7);
     params := list_to_map
       [ ("created_after", Atom "2024-01-01"); ("email_contains", Atom "x.io");
         ("status_in", Atom "new, won,,");
         ("created_at_between", Atom "2024-01-01,2024-02-01") ] |}.

Definition numbers_query : query_object :=
  {| userId := num (Finite 7);
     params := list_to_map
       [ ("score_gt", Arr [Atom "50"]); ("is_qualified", Atom "TRUE");
         ("lead_value_between", Atom "10,20,30") ] |}.

(** *** The table of leads *)


(** The [id] sequence is ahead of every row, and no two rows share an
    [id]: what a SERIAL PRIMARY KEY column maintains. *)
Definition fresh_ids (db : database) : Prop :=
  Forall (fun r => id r < next_id db) (rows db) /\ NoDup (map id (rows db)).

Definition created_response (l : lead) : response :=
  {| code := 201; content := MessageLeadBody "Lead created successfully" (Some l) |}.


(** Requests and rows for examples. *)
Definition create_request : request :=
  sample_request "token-7" ""  []
    [ ("first_name", str "Grace"); ("last_name", str "Hopper");
      ("email", str "g@x.io"); ("score", str "85"); ("city", str "") ].

Definition created_lead : lead :=
  {| id := 4; user_id := Some 7;
     first_name := str "Grace"; last_name := str "Hopper"; email := str "g@x.io";
     phone := Atom Null; company := Atom Null; city := Atom Null;
     state := Atom Null; source := Atom Null; status := str "new";
     score := Atom Null; lead_value := Atom Null;
     last_activity_at := Atom Null; is_qualified := Atom (Bool false);
     created_at := 1000; updated_at := 1000 |}.


Definition lead_request (id_ : string) : request :=
  sample_request "token-7" id_ [] [].

(** *** Whole numbers *)

(** The number whose value is the integer [z]: [+0] for zero. *)
Definition exact (z : Z) : number :=
  if z =? 0 then Zero false else Finite (inject_Z z).

(** The engine reads a whole number up to [top], bound to LIMIT or
    OFFSET, as that many rows. *)
Definition reads_counts (E : engine) (top : Z) : Prop :=
  forall z, 0 <= z <= top -> pg_bigint E (num (exact z)) = Some (Z.to_nat z).

(** *** Pages *)

(** The same request for page [P] with [L] leads a page. *)
Definition page_request (req : request) (P L : nat) : request :=
  {| authorization := authorization req; id_param := id_param req;
     query := <["page" := Atom (decimal P)]>
                (<["limit" := Atom (decimal L)]> (query req));
     body := body req |}.


(** The number of pages of [n] leads, [L] a page. *)
Definition page_count (n L : nat) : nat := ((n + L - 1) / L)%nat.

Definition all_request : request := sample_request "token-7" "" [] [].

(** *** Status codes *)

(** The status codes a route answers with. *)
Definition status_codes (r : route) : list nat :=
  match r with
  | GetLeads => [200; 500]
  | GetLead => [200; 404; 500]
  | PostLead => [201; 400; 500]
  | PutLead => [200; 400; 404; 500]
  | DeleteLeadRoute => [200; 404; 500]
  end%nat.

(** *** The schema (db.js, lines 372-390)

    The columns of [leads], each with whether it is declared NOT NULL
    (the primary key is), and the values the CHECK on [status] allows. *)
Definition leads_columns : list (string * bool) :=
  [ ("id", true); ("user_id", false);
    ("first_name", true); ("last_name", true); ("email", true);
    ("phone", false); ("company", false); ("city", false); ("state", false);
    ("source", false); ("status", false); ("score", false);
    ("lead_value", false); ("last_activity_at", false);
    ("is_qualified", false); ("created_at", false); ("updated_at", false) ].

Definition status_values : list string :=
  [ "new"; "contacted"; "qualified"; "lost"; "won" ].

(** The column list of the INSERT statement (leads.js, lines 231-232),
    in the order of its placeholders. *)
Definition insert_columns : list string :=
  [ "user_id"; "first_name"; "last_name"; "email"; "phone"; "company"; "city";
    "state"; "source"; "status"; "score"; "lead_value"; "last_activity_at";
    "is_qualified" ].

(** What the driver sends as NULL. *)
Definition is_null (v : value) : bool :=
  match v with
  | Atom Null | Atom Undefined => true
  | _ => false
  end.

End Tables.

(** ** Placeholders of a rendered clause *)

Module ScanFacts.

Import JS Sql Leads.

Lemma append_cons (x : ascii) (t b : string) :
  String x t +:+ b = String x (t +:+ b).
Proof. reflexivity. Qed.

Lemma append_empty (b : string) : "" +:+ b = b.
Proof. reflexivity. Qed.

Lemma append_assoc (a b c : string) : (a +:+ b) +:+ c = a +:+ (b +:+ c).
Proof.
  induction a as [|x t IH]; [reflexivity |].
  rewrite !append_cons. now rewrite IH.
Qed.

Lemma append_nil_r (a : string) : a +:+ "" = a.
Proof.
  induction a as [|x t IH]; [reflexivity |].
  rewrite append_cons. now rewrite IH.
Qed.

Lemma scan_literal (s rest : string) :
  dollar_free s = true -> scan None (s +:+ rest) = scan None rest.
Proof.
  induction s as [|c s IH]; [reflexivity |].
  rewrite append_cons. simpl.
  intros [Hc Hs]%andb_prop.
  destruct (Ascii.eqb c "$") eqn:Ec; [discriminate |].
  now apply IH.
Qed.

Lemma scan_boundary (n : nat) (rest : string) :
  boundary rest = true -> scan (Some n) rest = n :: scan None rest.
Proof.
  destruct rest as [|c r]; simpl; [reflexivity |].
  destruct (Ascii.eqb c "$") eqn:Ec; [reflexivity |].
  destruct (is_digit c); [discriminate | reflexivity].
Qed.

Lemma scan_numeral (d : Decimal.uint) (acc : nat) (rest : string) :
  scan (Some acc) (NilEmpty.string_of_uint d +:+ rest)
  = scan (Some (Nat.of_uint_acc d acc)) rest.
Proof.
  revert acc.
  induction d; intros acc; simpl NilEmpty.string_of_uint;
    [reflexivity | ..];
    rewrite append_cons; simpl; rewrite IHd, Nat.tail_mul_spec;
    do 3 f_equal; lia.
Qed.

Lemma scan_placeholder (k : nat) (rest : string) :
  boundary rest = true ->
  scan None (placeholder k +:+ rest) = k :: scan None rest.
Proof.
  intros Hb. unfold placeholder, decimal.
  rewrite append_assoc, append_cons, append_empty. simpl.
  rewrite scan_numeral.
  change (Nat.of_uint_acc (Nat.to_uint k) 0) with (Nat.of_uint (Nat.to_uint k)).
  rewrite DecimalNat.Unsigned.of_to.
  now apply scan_boundary.
Qed.

Lemma dollar_free_app (a b : string) :
  dollar_free (a +:+ b) = dollar_free a && dollar_free b.
Proof.
  induction a as [|x t IH]; [reflexivity |].
  rewrite append_cons. simpl. rewrite IH. now rewrite andb_assoc.
Qed.

Lemma scan_join_placeholders (phs : list nat) (rest : string) :
  boundary rest = true ->
  scan None (join "," (map placeholder phs) +:+ rest) = phs ++ scan None rest.
Proof.
  intros Hb. induction phs as [|k [|k' r] IH].
  - reflexivity.
  - simpl. now apply scan_placeholder.
  - change (join "," (map placeholder (k :: k' :: r)))
      with (placeholder k +:+ "," +:+ join "," (map placeholder (k' :: r))).
    rewrite !append_assoc, scan_placeholder by reflexivity.
    rewrite scan_literal by reflexivity.
    rewrite IH. reflexivity.
Qed.

Lemma scan_render (c : condition) (rest : string) :
  clean c = true -> boundary rest = true ->
  scan None (render c +:+ rest) = condition_placeholders c ++ scan None rest.
Proof.
  intros Hc Hb. destruct c as [lhs op k | f phs | f a b]; simpl in Hc; unfold render.
  - apply andb_prop in Hc as [H1 H2].
    rewrite !append_assoc.
    rewrite (scan_literal lhs) by assumption.
    rewrite (scan_literal " ") by reflexivity.
    rewrite (scan_literal op) by assumption.
    rewrite (scan_literal " ") by reflexivity.
    now rewrite scan_placeholder.
  - rewrite !append_assoc.
    rewrite (scan_literal f) by assumption.
    rewrite (scan_literal " IN (") by reflexivity.
    rewrite scan_join_placeholders by reflexivity.
    rewrite (scan_literal ")") by reflexivity. reflexivity.
  - rewrite !append_assoc.
    rewrite (scan_literal f) by assumption.
    rewrite (scan_literal " BETWEEN ") by reflexivity.
    rewrite scan_placeholder by reflexivity.
    rewrite (scan_literal " AND ") by reflexivity.
    now rewrite scan_placeholder.
Qed.

Lemma scan_where (cs : list condition) (rest : string) :
  forallb clean cs = true -> boundary rest = true ->
  scan None (join " AND " (map render cs) +:+ rest)
  = concat (map condition_placeholders cs) ++ scan None rest.
Proof.
  intros Hc Hb. induction cs as [|c [|c' r] IH].
  - reflexivity.
  - simpl in Hc. apply andb_prop in Hc as [Hc _]. simpl.
    rewrite app_nil_r. now apply scan_render.
  - change (join " AND " (map render (c :: c' :: r)))
      with (render c +:+ " AND " +:+ join " AND " (map render (c' :: r))).
    simpl in Hc. apply andb_prop in Hc as [Hc Hr].
    rewrite !append_assoc, scan_render by (assumption || reflexivity).
    rewrite scan_literal by reflexivity.
    rewrite IH by exact Hr.
    simpl. now rewrite <- !app_assoc.
Qed.

Lemma placeholders_of_where_text (cs : list condition) :
  forallb clean cs = true ->
  placeholders_of (where_text cs) = concat (map condition_placeholders cs).
Proof.
  intros Hc. unfold placeholders_of.
  destruct cs as [|c r]; [reflexivity |].
  unfold where_text.
  rewrite <- (append_nil_r (join " AND " (map render (c :: r)))).
  rewrite scan_where by (assumption || reflexivity).
  simpl scan. now rewrite app_nil_r.
Qed.




End ScanFacts.

(** ** The builder keeps its placeholders consecutive *)

Module BuilderFacts.

Import JS Sql Leads ScanFacts.


Lemma extends_refl st : extends st st.
Proof. exists [], []. now rewrite !app_nil_r. Qed.

Lemma extends_trans a b c : extends a b -> extends b c -> extends a c.
Proof.
  intros (cs & vs & H1 & H2) (cs' & vs' & H3 & H4).
  exists (cs ++ cs'), (vs ++ vs'). rewrite H3, H4, H1, H2.
  now rewrite !app_assoc.
Qed.

Lemma extends_push c vs n st : extends st (push c vs n st).
Proof. exists [c], vs. split; reflexivity. Qed.

Lemma consecutive_push c vs n st :
  consecutive st ->
  condition_placeholders c = seq (i st) (length vs) ->
  n = length vs -> clean c = true ->
  consecutive (push c vs n st).
Proof.
  intros (Hp & Hi & Hc) Hph -> Hcl. unfold consecutive, push; simpl.
  repeat split.
  - rewrite map_app, concat_app, Hp. simpl. rewrite app_nil_r, Hph, Hi.
    rewrite length_app, seq_app. reflexivity.
  - rewrite Hi, length_app. lia.
  - rewrite forallb_app, Hc. simpl. now rewrite Hcl.
Qed.

Lemma sound_push (shape : nat -> condition) (vs : builder -> list value) n :
  (forall st, condition_placeholders (shape (i st)) = seq (i st) (length (vs st))) ->
  (forall st, n = length (vs st)) ->
  (forall k, clean (shape k) = true) ->
  sound (fun st => Some (push (shape (i st)) (vs st) n st)).
Proof.
  intros H1 H2 H3 st st' Hst [= <-]. split.
  - apply consecutive_push; auto.
  - apply extends_push.
Qed.

Lemma sound_if_truthy o body :
  (forall v, sound (body v)) -> sound (if_truthy o body).
Proof.
  intros Hb st st' Hst. unfold if_truthy.
  destruct o as [v|]; [destruct (truthy_q v) |].
  - apply Hb, Hst.
  - intros [= <-]. split; [assumption | apply extends_refl].
  - intros [= <-]. split; [assumption | apply extends_refl].
Qed.

Lemma sound_if_defined o body :
  (forall v, sound (body v)) -> sound (if_defined o body).
Proof.
  intros Hb st st' Hst. unfold if_defined.
  destruct o as [v|].
  - apply Hb, Hst.
  - intros [= <-]. split; [assumption | apply extends_refl].
Qed.

Lemma sound_bind f g : sound f -> sound g -> sound (fun st => f st ≫= g).
Proof.
  intros Hf Hg st st' Hst H.
  destruct (f st) as [st1|] eqn:E; [| discriminate]. simpl in H.
  destruct (Hf _ _ Hst E) as [H1 H2].
  destruct (Hg _ _ H1 H) as [H3 H4].
  split; [assumption | eapply extends_trans; eassumption].
Qed.

Lemma sound_after {A} (m : option A) (k : A -> builder -> option builder) :
  (forall a, sound (k a)) -> sound (fun st => m ≫= fun a => k a st).
Proof.
  intros Hk st st' Hst H. destruct m as [a|]; [| discriminate].
  now apply (Hk a).
Qed.

Lemma sound_id_or (b : bool) f : sound f -> sound (fun st => if b then f st else Some st).
Proof.
  intros Hf st st' Hst. destruct b; [apply Hf, Hst |].
  intros [= <-]. split; [assumption | apply extends_refl].
Qed.

Lemma sound_skip : sound Some.
Proof. intros st st' Hst [= <-]. split; [assumption | apply extends_refl]. Qed.

Ltac sound_compare :=
  apply (sound_push (fun k => Compare _ _ k) (fun _ => [_]) 1);
  [ reflexivity | reflexivity
  | intros; simpl; rewrite ?dollar_free_app; repeat (apply andb_true_intro; split);
    first [assumption | reflexivity] ].

Lemma sound_stringField q field :
  dollar_free field = true -> sound (stringField q field).
Proof.
  intros Hf. unfold stringField. apply sound_bind.
  - apply sound_if_truthy. intros v. sound_compare.
  - apply sound_if_truthy. intros v.
    apply (sound_after (ToString v)). intros s. sound_compare.
Qed.

Lemma sound_enumField q field :
  dollar_free field = true -> sound (enumField q field).
Proof.
  intros Hf. unfold enumField. apply sound_bind.
  - apply sound_if_truthy. intros v. sound_compare.
  - apply sound_if_truthy. intros v.
    apply (sound_after (ToString v)). intros s.
    destruct (filter _ _) as [|x l] eqn:El; [apply sound_skip |].
    apply (sound_push (fun k => InList field (seq k (length (x :: l))))
             (fun _ => map str (x :: l)) (length (x :: l))).
    + intros st. simpl. now rewrite length_map.
    + intros st. simpl. now rewrite length_map.
    + intros k. exact Hf.
Qed.

Lemma sound_numberField q field :
  dollar_free field = true -> sound (numberField q field).
Proof.
  intros Hf. unfold numberField. repeat apply sound_bind.
  - apply sound_if_defined. intros v.
    apply (sound_after (Number v)). intros n. sound_compare.
  - apply sound_if_defined. intros v.
    apply (sound_after (Number v)). intros n. sound_compare.
  - apply sound_if_defined. intros v.
    apply (sound_after (Number v)). intros n. sound_compare.
  - apply sound_if_truthy. intros v.
    apply (sound_after (ToString v)). intros s.
    destruct (split_comma s) as [|min [|max r]]; try apply sound_skip.
    apply (sound_push (fun k => Between field k (k + 1)) (fun _ => [_; _]) 2).
    + intros st. simpl. do 2 f_equal. lia.
    + reflexivity.
    + intros k. exact Hf.
Qed.

Lemma sound_dateField q field :
  dollar_free field = true -> sound (dateField q field).
Proof.
  intros Hf. unfold dateField. repeat apply sound_bind.
  - apply sound_if_truthy. intros v. sound_compare.
  - apply sound_if_truthy. intros v. sound_compare.
  - apply sound_if_truthy. intros v. sound_compare.
  - apply sound_if_truthy. intros v.
    apply (sound_after (ToString v)). intros s.
    destruct (split_comma s) as [|from [|to r]]; try apply sound_skip.
    apply sound_id_or.
    apply (sound_push (fun k => Between field k (k + 1)) (fun _ => [_; _]) 2).
    + intros st. simpl. do 2 f_equal. lia.
    + reflexivity.
    + intros k. exact Hf.
Qed.

Lemma sound_run l : Forall sound l -> sound (run l).
Proof.
  induction 1 as [|f r Hf Hr IH]; simpl.
  - apply sound_skip.
  - now apply sound_bind.
Qed.

Lemma sound_steps q : Forall sound (steps q).
Proof.
  unfold steps.
  repeat (apply Forall_cons; split);
    try (first [ apply sound_stringField | apply sound_enumField
               | apply sound_numberField | apply sound_dateField ]; reflexivity);
    try (apply Forall_nil; exact I).
  - apply sound_if_defined. intros v.
    apply (sound_after (Number v)). intros n. sound_compare.
  - apply sound_if_defined. intros v.
    apply (sound_after (Number v)). intros n. sound_compare.
  - apply sound_if_truthy. intros v. sound_compare.
  - apply sound_if_truthy. intros v. sound_compare.
  - apply sound_if_defined. intros v.
    apply (sound_after (ToString v)). intros n. sound_compare.
Qed.

Lemma bind_ext {A B} (m : option A) (f g : A -> option B) :
  (forall a, f a = g a) -> m ≫= f = m ≫= g.
Proof. intros H. destruct m; simpl; auto. Qed.

Lemma bind_Some_r {A} (m : option A) : m = m ≫= Some.
Proof. now destruct m. Qed.

Lemma build_run qo :
  build qo = run (steps (params qo)) (owner_scope (userId qo)).
Proof.
  unfold build, steps. simpl.
  repeat (apply bind_ext; intros ?).
  apply bind_Some_r.
Qed.

Lemma consecutive_owner_scope uid : consecutive (owner_scope uid).
Proof. repeat split. Qed.

Lemma build_sound qo st :
  build qo = Some st ->
  consecutive st /\ extends (owner_scope (userId qo)) st.
Proof.
  rewrite build_run. apply sound_run.
  - apply sound_steps.
  - apply consecutive_owner_scope.
Qed.

(** *** What a step binds *)

Lemma param_app_l (vs vs' : list value) k v :
  param vs k = Some v -> param (vs ++ vs') k = Some v.
Proof.
  destruct k as [|k]; simpl; [discriminate |].
  intros H. now apply lookup_app_l_Some.
Qed.

Lemma param_next (vs : list value) v rest :
  param (vs ++ v :: rest) (S (length vs)) = Some v.
Proof. simpl. now rewrite list_lookup_middle. Qed.

Lemma stable_binds shape v :
  stable (fun st => binds (conditions st) (values st) shape v).
Proof.
  intros st st' (cs & vs & -> & ->) (k & Hin & Hp). exists k. split.
  - apply in_or_app. now left.
  - now apply param_app_l.
Qed.

Lemma stable_binds_between f v1 v2 :
  stable (fun st => binds_between (conditions st) (values st) f v1 v2).
Proof.
  intros st st' (cs & vs & -> & ->) (k & Hin & Hp & Hq). exists k. repeat split.
  - apply in_or_app. now left.
  - now apply param_app_l.
  - now apply param_app_l.
Qed.

Lemma binds_push shape v st :
  consecutive st ->
  binds (conditions (push (shape (i st)) [v] 1 st))
        (values (push (shape (i st)) [v] 1 st)) shape v.
Proof.
  intros (_ & Hi & _). exists (i st). split.
  - simpl. apply in_or_app. right. now left.
  - rewrite Hi. apply param_next.
Qed.

Lemma binds_between_push f v1 v2 st :
  consecutive st ->
  binds_between (conditions (push (Between f (i st) (i st + 1)) [v1; v2] 2 st))
                (values (push (Between f (i st) (i st + 1)) [v1; v2] 2 st)) f v1 v2.
Proof.
  intros (_ & Hi & _). exists (i st). repeat split.
  - simpl. apply in_or_app. right. now left.
  - rewrite Hi. apply param_next.
  - rewrite Hi. replace (S (length (values st)) + 1)%nat
      with (S (length (values st ++ [v1]))) by (rewrite length_app; simpl; lia).
    simpl values.
    change (values st ++ [v1; v2]) with (values st ++ [v1] ++ [v2]).
    rewrite app_assoc. apply param_next.
Qed.

Lemma establishes_bind_l P f g :
  stable P -> establishes P f -> sound f -> sound g ->
  establishes P (fun st => f st ≫= g).
Proof.
  intros HP Hf Sf Sg st st' Hst H. cbv beta in H.
  destruct (f st) as [st1|] eqn:E; [| discriminate]. simpl in H.
  destruct (Sf _ _ Hst E) as [H1 _].
  destruct (Sg _ _ H1 H) as [_ H2].
  eapply HP; [exact H2 |]. exact (Hf _ _ Hst E).
Qed.

Lemma establishes_bind_r P f g :
  sound f -> establishes P g -> establishes P (fun st => f st ≫= g).
Proof.
  intros Sf Hg st st' Hst H. cbv beta in H.
  destruct (f st) as [st1|] eqn:E; [| discriminate]. simpl in H.
  destruct (Sf _ _ Hst E) as [H1 _].
  exact (Hg _ _ H1 H).
Qed.

Lemma establishes_run P l :
  stable P -> Forall sound l -> Exists (establishes P) l ->
  establishes P (run l).
Proof.
  intros HP Hs He. induction He as [f r Hf | f r He IH]; simpl.
  - apply Forall_cons in Hs as [Sf Sr].
    apply establishes_bind_l; auto. now apply sound_run.
  - apply Forall_cons in Hs as [Sf Sr].
    apply establishes_bind_r; auto.
Qed.

Lemma establishes_if_defined P (o : option qvalue) body v :
  o = Some v -> establishes P (body v) -> establishes P (if_defined o body).
Proof. intros -> H. exact H. Qed.

Lemma establishes_if_truthy P (o : option qvalue) body v :
  o = Some v -> truthy_q v = true ->
  establishes P (body v) -> establishes P (if_truthy o body).
Proof. intros -> Ht H. unfold if_truthy. now rewrite Ht. Qed.

Lemma establishes_number (q : gmap string qvalue) (key : string) lhs op s :
  q !! key = Some (Atom s) ->
  establishes
    (fun st => binds (conditions st) (values st) (Compare lhs op) (num (Number_string s)))
    (if_defined (q !! key)
       (fun v st => n ← Number v; Some (push (Compare lhs op (i st)) [num n] 1 st))).
Proof.
  intros Hq. eapply establishes_if_defined; [exact Hq |].
  intros st st' Hst [= <-].
  now apply (binds_push (Compare lhs op)).
Qed.

Ltac sound_step :=
  first
    [ apply sound_if_defined; intros ?
    | apply sound_if_truthy; intros ?
    | apply (sound_after (Number _)); intros ?
    | apply (sound_after (ToString _)); intros ?
    | apply sound_skip
    | sound_compare ].

Lemma sound_number_step (q : gmap string qvalue) (key : string) lhs op :
  dollar_free lhs = true -> dollar_free op = true ->
  sound (if_defined (q !! key)
       (fun v st => n ← Number v; Some (push (Compare lhs op (i st)) [num n] 1 st))).
Proof. intros H1 H2. repeat sound_step. Qed.

Lemma sound_between_step (q : gmap string qvalue) (key : string) field :
  dollar_free field = true ->
  sound (if_truthy (q !! key)
    (fun v st =>
       s ← ToString v;
       match split_comma s with
       | min :: max :: _ =>
           Some (push (Between field (i st) (i st + 1))
                   [num (Number_string min); num (Number_string max)] 2 st)
       | _ => Some st
       end)).
Proof.
  intros Hf. apply sound_if_truthy. intros v.
  apply (sound_after (ToString v)). intros s.
  destruct (split_comma s) as [|min [|max r]]; try apply sound_skip.
  apply (sound_push (fun k => Between field k (k + 1)) (fun _ => [_; _]) 2).
  - intros st. simpl. do 2 f_equal. lia.
  - reflexivity.
  - intros k. exact Hf.
Qed.

Section number_field.

Variable q : gmap string qvalue.
Variable field : string.
Hypothesis field_clean : dollar_free field = true.

Lemma numberField_equals s :
  q !! field = Some (Atom s) ->
  establishes
    (fun st => binds (conditions st) (values st) (Compare field "=")
                 (num (Number_string s)))
    (numberField q field).
Proof.
  intros Hq. unfold numberField.
  apply establishes_bind_l.
  - apply stable_binds.
  - now apply establishes_number.
  - now apply sound_number_step.
  - repeat apply sound_bind;
      first [ now apply sound_number_step | now apply sound_between_step ].
Qed.

Lemma numberField_gt s :
  q !! (field +:+ "_gt") = Some (Atom s) ->
  establishes
    (fun st => binds (conditions st) (values st) (Compare field ">")
                 (num (Number_string s)))
    (numberField q field).
Proof.
  intros Hq. unfold numberField.
  apply establishes_bind_r; [now apply sound_number_step |].
  apply establishes_bind_l.
  - apply stable_binds.
  - now apply establishes_number.
  - now apply sound_number_step.
  - repeat apply sound_bind;
      first [ now apply sound_number_step | now apply sound_between_step ].
Qed.

Lemma numberField_lt s :
  q !! (field +:+ "_lt") = Some (Atom s) ->
  establishes
    (fun st => binds (conditions st) (values st) (Compare field "<")
                 (num (Number_string s)))
    (numberField q field).
Proof.
  intros Hq. unfold numberField.
  apply establishes_bind_r; [now apply sound_number_step |].
  apply establishes_bind_r; [now apply sound_number_step |].
  apply establishes_bind_l.
  - apply stable_binds.
  - now apply establishes_number.
  - now apply sound_number_step.
  - now apply sound_between_step.
Qed.

Lemma numberField_between s min max rest :
  q !! (field +:+ "_between") = Some (Atom s) ->
  split_comma s = min :: max :: rest ->
  s <> "" ->
  establishes
    (fun st => binds_between (conditions st) (values st) field
                 (num (Number_string min)) (num (Number_string max)))
    (numberField q field).
Proof.
  intros Hq Hs Hne. unfold numberField.
  do 3 (apply establishes_bind_r; [now apply sound_number_step |]).
  eapply establishes_if_truthy; [exact Hq | now destruct s |].
  intros st st' Hst. simpl. rewrite Hs. intros [= <-].
  now apply binds_between_push.
Qed.

End number_field.

(** *** Steps that never throw *)

Lemma never_throws_bind f g :
  never_throws f -> never_throws g -> never_throws (fun st => f st ≫= g).
Proof.
  intros Hf Hg st. destruct (Hf st) as [st1 E]. cbv beta. rewrite E. apply Hg.
Qed.

Lemma never_throws_if_truthy (o : option qvalue) body :
  (forall v, o = Some v -> exists s, v = Atom s) ->
  (forall s, never_throws (body (Atom s))) ->
  never_throws (if_truthy o body).
Proof.
  intros Ho Hb st. unfold if_truthy. destruct o as [v|]; [| now eexists].
  destruct (Ho v eq_refl) as [s ->].
  destruct (truthy_q (Atom s)); [apply Hb | now eexists].
Qed.

Lemma never_throws_if_defined (o : option qvalue) body :
  (forall v, o = Some v -> exists s, v = Atom s) ->
  (forall s, never_throws (body (Atom s))) ->
  never_throws (if_defined o body).
Proof.
  intros Ho Hb st. unfold if_defined. destruct o as [v|]; [| now eexists].
  destruct (Ho v eq_refl) as [s ->]. apply Hb.
Qed.

Lemma never_throws_run l : Forall never_throws l -> never_throws (run l).
Proof.
  induction 1 as [|f r Hf Hr IH]; simpl.
  - intros st. now eexists.
  - now apply never_throws_bind.
Qed.

Ltac never_throws_body :=
  let s := fresh "s" in let st := fresh "st" in
  intros s st; simpl; repeat case_match; now eexists.

Ltac never_throws_step Hq :=
  first [ apply never_throws_if_truthy | apply never_throws_if_defined ];
  [ intros ? ?; eapply Hq; eassumption | never_throws_body ].

Lemma never_throws_steps q : string_valued q -> Forall never_throws (steps q).
Proof.
  intros Hq. unfold steps, stringField, enumField, numberField, dateField.
  repeat (apply Forall_cons; split);
    try (apply Forall_nil; exact I);
    repeat apply never_throws_bind; never_throws_step Hq.
Qed.

Lemma build_never_throws qo :
  string_valued (params qo) -> is_Some (build qo).
Proof.
  intros Hq. rewrite build_run. now apply never_throws_run, never_throws_steps.
Qed.

Lemma build_establishes P qo st :
  stable P -> Exists (establishes P) (steps (params qo)) ->
  build qo = Some st -> P st.
Proof.
  intros HP He. rewrite build_run.
  apply establishes_run; auto using sound_steps, consecutive_owner_scope.
Qed.

Lemma buildWhereClause_build qo wc :
  buildWhereClause qo = Some wc ->
  exists st, build qo = Some st
             /\ where_conditions wc = conditions st
             /\ where_ wc = where_text (conditions st)
             /\ bound wc = values st.
Proof.
  unfold buildWhereClause. destruct (build qo) as [st|]; [| discriminate].
  intros [= <-]. now exists st.
Qed.

Lemma lower_is_true_spec s :
  lower_is_true s = true <-> map lower_code (codes s) = codes "true".
Proof.
  unfold lower_is_true.
  destruct (codes s) as [|t [|r [|u [|e [|x l]]]]]; try (split; discriminate).
  change (codes "true") with [116; 114; 117; 101]%N. simpl map.
  unfold lower_code.
  split.
  - intros H. repeat (apply andb_prop in H as [H ?]).
    repeat match goal with
           | H : (_ || _) = true |- _ => apply orb_prop in H as [H|H]
           | H : (_ =? _)%N = true |- _ => apply N.eqb_eq in H; subst
           end; reflexivity.
  - intros [= Ht Hr Hu He].
    repeat match goal with
           | H : (if ?b then _ else _) = _ |- _ => destruct b eqn:?; subst
           end;
    repeat match goal with
           | H : (_ + 32 = _)%N |- _ =>
               apply (f_equal (fun x => (x - 32)%N)) in H;
               rewrite N.add_sub in H; simpl in H; subst
           end; reflexivity.
Qed.

Lemma string_valued_of_list (l : list (string * qvalue)) :
  Forall (fun kv => exists s, snd kv = Atom s) l ->
  string_valued (list_to_map l).
Proof.
  intros H k v Hk. apply elem_of_list_to_map_2 in Hk.
  rewrite Forall_forall in H. exact (H _ Hk).
Qed.

End BuilderFacts.


(** ** Numbers the handlers compute *)

Module NumberFacts.

Import JS Sql Leads.

Lemma rne_one (n : Z) : rne n 1 = n.
Proof.
  unfold rne. rewrite Z.div_1_r, Z.mod_1_r. reflexivity.
Qed.

Lemma Qred_scaled (a c : Z) :
  0 < c -> Qred (a * c # Z.to_pos c) = inject_Z a.
Proof.
  intros Hc.
  transitivity (Qred (inject_Z a)).
  - apply Qred_complete. unfold Qeq, inject_Z. simpl.
    rewrite Z2Pos.id by assumption. ring.
  - apply Qred_identity. simpl. apply Z.gcd_1_r.
Qed.

Lemma round_pos_whole neg (m : Z) : 0 < m -> whole (round_pos neg m 1).
Proof.
  intros Hm. unfold round_pos.
  set (u := Z.max (binade m 1 - 52) (-1074)).
  destruct (0 <=? u) eqn:Hu.
  - destruct (_ =? 0); [exact I |].
    destruct (_ || _); [exact I |]. simpl. eauto.
  - rewrite rne_one.
    destruct (_ =? 0); [exact I |].
    destruct (_ || _); [exact I |]. simpl.
    apply Z.leb_gt in Hu.
    assert (Hc : 0 < 2 ^ (- u)) by (apply Z.pow_pos_nonneg; lia).
    destruct neg.
    + exists (- m). rewrite <- Qred_scaled with (c := 2 ^ (- u)) by assumption.
      f_equal. f_equal. ring.
    + exists m. now rewrite <- Qred_scaled with (c := 2 ^ (- u)) by assumption.
Qed.

Lemma signed_whole neg m : 0 <= m -> whole (signed neg m).
Proof.
  intros Hm. unfold signed. destruct (m =? 0) eqn:E; [exact I |].
  apply round_pos_whole. apply Z.eqb_neq in E. lia.
Qed.

Lemma digits_value_nonneg radix ds :
  0 <= radix -> Forall (fun d => 0 <= d) ds -> 0 <= digits_value radix ds.
Proof.
  intros Hr. unfold digits_value.
  assert (G : forall acc, 0 <= acc -> Forall (fun d => 0 <= d) ds ->
                0 <= fold_left (fun acc d => acc * radix + d) ds acc).
  { induction ds as [|d ds IH]; simpl; intros acc Ha Hd; [assumption |].
    apply Forall_cons in Hd as [Hd Hds]. apply IH; [nia | assumption]. }
  apply G. lia.
Qed.

Lemma digit_of_nonneg radix c d : digit_of radix c = Some d -> 0 <= d.
Proof.
  unfold digit_of.
  repeat match goal with
         | |- context [if ?b then _ else _] => destruct b
         end; intros [= <-]; lia.
Qed.

Lemma span_digits_nonneg radix l :
  Forall (fun d => 0 <= d) (fst (span_digits radix l)).
Proof.
  induction l as [|c t IH]; simpl; [constructor |].
  destruct (digit_of radix c) as [d|] eqn:E; [| constructor].
  destruct (span_digits radix t) as [ds r]. simpl in *.
  constructor; [eapply digit_of_nonneg; eassumption | assumption].
Qed.

(** [parseInt] yields [NaN], a zero, an infinity or an integer. *)
Lemma parseInt_string_whole s :
  parseInt_string s = NaN \/ whole (parseInt_string s).
Proof.
  unfold parseInt_string.
  destruct (match trim_start (codes s) with
            | 45%N :: t => (true, t) | 43%N :: t => (false, t)
            | _ => (false, trim_start (codes s)) end) as [neg l1].
  destruct (match l1 with
            | 48%N :: 120%N :: t | 48%N :: 88%N :: t => (16%N, t)
            | _ => (10%N, l1) end) as [radix l2].
  pose proof (span_digits_nonneg radix l2) as Hd.
  destruct (fst (span_digits radix l2)) as [|d ds]; [now left | right].
  apply signed_whole, digits_value_nonneg; [lia | assumption].
Qed.

Lemma lt_inject_Z (a b : Z) :
  lt (Finite (inject_Z a)) (Finite (inject_Z b)) = (a <? b).
Proof.
  unfold lt, Qcompare, inject_Z. simpl. rewrite !Z.mul_1_r.
  unfold Z.ltb. now destruct (a ?= b).
Qed.

(** Line 155: whatever [parseInt] gave, the limit is an integer from 1 to
    100. *)
Lemma limit_clamped (l : number) :
  l = NaN \/ whole l ->
  exists n, 1 <= n <= 100
    /\ Math_min (Math_max (or_default l (Finite 20)) (Finite 1)) (Finite 100)
       = Finite (inject_Z n).
Proof.
  intros [-> | Hl].
  - exists 20. split; [lia | reflexivity].
  - destruct l as [| [|] | b | q]; try contradiction.
    + exists 1. split; [lia | reflexivity].
    + exists 100. split; [lia | reflexivity].
    + exists 20. split; [lia | reflexivity].
    + destruct Hl as [z ->].
      change (Finite 1) with (Finite (inject_Z 1)).
      change (Finite 100) with (Finite (inject_Z 100)).
      unfold or_default, truthy_number, Math_max. simpl is_NaN. simpl orb.
      rewrite lt_inject_Z.
      destruct (z <? 1) eqn:E1.
      * exists 1. split; [lia | reflexivity].
      * unfold Math_min. simpl is_NaN. simpl orb. rewrite lt_inject_Z.
        destruct (100 <? z) eqn:E2.
        -- exists 100. split; [lia | reflexivity].
        -- exists z. split; [lia | reflexivity].
Qed.


(** An integer below [2^53] is a double. *)
Lemma binade_le (n d : Z) : binade n d <= Z.log2 n - Z.log2 d.
Proof. unfold binade. cbv zeta. repeat case_match; lia. Qed.

Lemma round_pos_exact neg (m : Z) :
  0 < m < 2 ^ 53 ->
  round_pos neg m 1 = Finite (inject_Z (if neg then - m else m)).
Proof.
  intros [Hm Hlt]. unfold round_pos.
  assert (Hb : binade m 1 <= 52).
  { pose proof (binade_le m 1) as H. change (Z.log2 1) with 0 in H.
    assert (Z.log2 m < 53) by (apply Z.log2_lt_pow2; lia). lia. }
  set (u := Z.max (binade m 1 - 52) (-1074)).
  assert (Hu : -1074 <= u <= 0) by (unfold u; lia).
  assert (Hc : 0 < 2 ^ (- u)) by (apply Z.pow_pos_nonneg; lia).
  assert (H971 : (971 <? u) || (u =? 971) && (2 ^ 53 <=?
            (if 0 <=? u then rne m (1 * 2 ^ u) else rne (m * 2 ^ (- u)) 1)) = false).
  { replace (971 <? u) with false by (symmetry; apply Z.ltb_ge; lia).
    replace (u =? 971) with false by (symmetry; apply Z.eqb_neq; lia).
    reflexivity. }
  rewrite H971. clear H971.
  destruct (0 <=? u) eqn:E.
  - assert (u = 0) as -> by (apply Z.leb_le in E; lia).
    change (1 * 2 ^ 0) with 1. rewrite rne_one.
    replace (m =? 0) with false by (symmetry; apply Z.eqb_neq; lia).
    rewrite Z.mul_1_r. reflexivity.
  - rewrite rne_one.
    replace (m * 2 ^ (- u) =? 0) with false by (symmetry; apply Z.eqb_neq; nia).
    destruct neg.
    + rewrite <- Qred_scaled with (c := 2 ^ (- u)) by assumption.
      do 2 f_equal. f_equal. ring.
    + now rewrite <- Qred_scaled with (c := 2 ^ (- u)) by assumption.
Qed.

(** *** Reading back a count *)

Lemma codes_cons (a : ascii) (s : string) :
  codes (String a s) = N_of_ascii a :: codes s.
Proof. reflexivity. Qed.

Lemma trim_start_keeps (a : N) (t : list N) :
  ws1 a = false -> (forall b, ws2 a b = false) ->
  (forall b c, ws3 a b c = false) ->
  trim_start (a :: t) = a :: t.
Proof.
  intros H1 H2 H3. simpl. rewrite H1.
  destruct t as [|b [|c t3]]; [reflexivity | now rewrite H2 |].
  now rewrite H2, H3.
Qed.

(** The digits of a numeral, most significant first. *)
Lemma span_digits_numeral (d : Decimal.uint) :
  exists ds,
    span_digits 10 (codes (NilEmpty.string_of_uint d)) = (ds, [])
    /\ (d <> Decimal.Nil -> ds <> [])
    /\ forall acc : nat,
         fold_left (fun a x => a * 10 + x) ds (Z.of_nat acc)
         = Z.of_nat (Nat.of_uint_acc d acc).
Proof.
  induction d as [|d IH|d IH|d IH|d IH|d IH|d IH|d IH|d IH|d IH|d IH].
  1: { exists []. split; [reflexivity |]. split; [congruence | reflexivity]. }
  all: destruct IH as (ds & Hs & _ & Hv);
    simpl NilEmpty.string_of_uint; rewrite codes_cons;
    simpl span_digits; rewrite Hs;
    eexists; (split; [reflexivity |]); (split; [discriminate |]);
    intros acc; simpl fold_left; simpl Nat.of_uint_acc;
    rewrite Nat.tail_mul_spec, <- Hv; f_equal; lia.
Qed.

Ltac eval_codes :=
  repeat match goal with
         | |- context [N_of_ascii ?a] =>
             let v := eval vm_compute in (N_of_ascii a) in
             change (N_of_ascii a) with v
         | H : context [N_of_ascii ?a] |- _ =>
             let v := eval vm_compute in (N_of_ascii a) in
             change (N_of_ascii a) with v in H
         end.

Lemma parseInt_decimal (k : nat) :
  parseInt_string (decimal k) = signed false (Z.of_nat k).
Proof.
  unfold decimal, parseInt_string.
  assert (Hn : Nat.to_uint k <> Decimal.Nil).
  { rewrite <- (DecimalNat.Unsigned.of_to k) at 1.
    rewrite DecimalNat.Unsigned.to_of. apply DecimalFacts.unorm_nonnil. }
  destruct (span_digits_numeral (Nat.to_uint k)) as (ds & Hs & Hne & Hv).
  specialize (Hne Hn). specialize (Hv 0%nat).
  change (Nat.of_uint_acc (Nat.to_uint k) 0) with (Nat.of_uint (Nat.to_uint k)) in Hv.
  rewrite DecimalNat.Unsigned.of_to in Hv.
  revert Hs Hn.
  destruct (Nat.to_uint k) as [|d|d|d|d|d|d|d|d|d|d]; intros Hs Hn;
    [congruence | destruct d | ..];
    simpl NilEmpty.string_of_uint in *; rewrite ?codes_cons in *;
    eval_codes; change (codes "") with (@nil N) in *;
    (rewrite trim_start_keeps by (intros; reflexivity));
    cbv iota beta; rewrite Hs; simpl fst;
    (destruct ds; [congruence |]);
    unfold digits_value; simpl Z.of_N; now rewrite <- Hv.
Qed.

End NumberFacts.

(** ** Statements and handlers *)

Module HandlerFacts.

Import JS Sql Leads ScanFacts BuilderFacts NumberFacts.

Lemma matches_int_true col p :
  matches_int col p = true -> p = col /\ col <> None.
Proof.
  destruct col as [a|], p as [b|]; simpl; try discriminate.
  intros H%Z.eqb_eq. subst. split; congruence.
Qed.

#[local] Arguments matches_int : simpl never.

Section engine_facts.

Variable E : engine.

Lemma by_id_and_owner_true idv uidv p r :
  by_id_and_owner E (Some idv) (Some uidv) = Some p -> p r = true ->
  pg_integer E idv = Some (Some (id r))
  /\ pg_integer E uidv = Some (user_id r) /\ user_id r <> None.
Proof.
  unfold by_id_and_owner. simpl.
  destruct (pg_integer E idv) as [i|]; [| discriminate].
  destruct (pg_integer E uidv) as [u|]; [| discriminate]. simpl.
  intros [= <-] [H1 H2]%andb_prop.
  apply matches_int_true in H1 as [-> _].
  apply matches_int_true in H2 as [-> ?]. auto.
Qed.

Lemma by_id_and_owner_Some idv uidv i u :
  pg_integer E idv = Some i -> pg_integer E uidv = Some u ->
  by_id_and_owner E (Some idv) (Some uidv)
  = Some (fun r => matches_int (Some (id r)) i && matches_int (user_id r) u).
Proof. intros H1 H2. unfold by_id_and_owner. simpl. now rewrite H1, H2. Qed.

Lemma where_sem_owner cs vs uid p r :
  where_sem E (Compare "user_id" "=" 1 :: cs) (uid :: vs) = Some p ->
  p r = true -> pg_integer E uid = Some (user_id r).
Proof.
  simpl. destruct (pg_integer E uid) as [u|]; [| discriminate]. simpl.
  destruct (where_sem E cs (uid :: vs)) as [ps|]; [| discriminate]. simpl.
  intros [= <-] [H _]%andb_prop.
  now apply matches_int_true in H as [-> _].
Qed.

Lemma exec_list_subset db cs l o vs rs p :
  where_sem E cs vs = Some p ->
  exec_list E db cs l o vs = Some rs ->
  forall r, In r rs -> In r (rows db) /\ p r = true.
Proof.
  intros Hp. unfold exec_list. rewrite Hp. simpl.
  destruct (param vs l) as [vl|]; [| discriminate]. simpl.
  destruct (param vs o) as [vo|]; [| discriminate]. simpl.
  destruct (pg_bigint E vl) as [n|]; [| discriminate]. simpl.
  destruct (pg_bigint E vo) as [m|]; [| discriminate]. simpl.
  intros [= <-] r Hr.
  apply filter_In.
  apply list_elem_of_In in Hr. apply list_elem_of_In.
  apply subseteq_take, subseteq_drop in Hr.
  unfold newest_first in Hr. now rewrite merge_sort_Permutation in Hr.
Qed.

Lemma exec_list_filter db cs l o vs rs :
  exec_list E db cs l o vs = Some rs -> exists p, where_sem E cs vs = Some p.
Proof.
  unfold exec_list. destruct (where_sem E cs vs) as [p|]; [eauto | discriminate].
Qed.

(** What [buildWhereClause] returns begins with the owner scope. *)
Lemma buildWhereClause_owner qo wc :
  buildWhereClause qo = Some wc ->
  exists cs vs rest,
    where_conditions wc = Compare "user_id" "=" 1 :: cs
    /\ bound wc = userId qo :: vs
    /\ where_ wc = "user_id = $1" +:+ rest.
Proof.
  intros (st & Hb & Hc & Hw & Hv)%buildWhereClause_build.
  destruct (build_sound _ _ Hb) as [_ (cs & vs & H1 & H2)].
  simpl in H1, H2.
  exists cs, vs.
  exists (match cs with [] => "" | _ => " AND " +:+ join " AND " (map render cs) end).
  rewrite Hc, Hw, Hv, H1, H2. repeat split.
  destruct cs; reflexivity.
Qed.

Lemma get_leads_owned uid req db l :
  In l (returned_leads (sent (get_leads E uid req db))) ->
  pg_integer E uid = Some (user_id l).
Proof.
  unfold get_leads.
  destruct (paging (query req)) as [[[pg lim] off]|]; [| contradiction].
  destruct (buildWhereClause _) as [w|] eqn:Hw; [| contradiction].
  destruct (exec_count E db _ _) as [c|]; [| contradiction].
  destruct (exec_list E db _ _ _ _) as [rs|] eqn:Hl; [| contradiction].
  simpl. intros Hin.
  assert (Hr : In l rs) by (apply in_app_or in Hin; tauto). clear Hin.
  apply buildWhereClause_owner in Hw as (cs & vs & rest & Hc & Hv & _).
  simpl in Hv. simpl snd in Hl.
  destruct (exec_list_filter _ _ _ _ _ _ Hl) as [p Hp].
  destruct (exec_list_subset _ _ _ _ _ _ _ Hp Hl l Hr) as [_ Ht].
  rewrite Hc, Hv in Hp.
  eapply where_sem_owner; [exact Hp | exact Ht].
Qed.

Lemma exec_select_spec db idv uidv rs :
  exec_select E db [idv; uidv] = Some rs ->
  exists p, by_id_and_owner E (Some idv) (Some uidv) = Some p
            /\ rs = List.filter p (rows db).
Proof.
  unfold exec_select. simpl param.
  destruct (by_id_and_owner E _ _) as [p|]; [| discriminate].
  intros [= <-]. now exists p.
Qed.

Lemma get_lead_owned uid req db l :
  In l (returned_leads (sent (get_lead E uid req db))) ->
  pg_integer E uid = Some (user_id l).
Proof.
  unfold get_lead.
  destruct (exec_select E db _) as [[|r rs]|] eqn:Hs; try contradiction.
  simpl. intros [<- | []].
  apply exec_select_spec in Hs as (p & Hp & Hrs).
  assert (Hin : In r (List.filter p (rows db))) by (rewrite <- Hrs; now left).
  apply filter_In in Hin as [_ Ht].
  now destruct (by_id_and_owner_true _ _ _ _ Hp Ht) as (_ & ? & _).
Qed.

Lemma post_lead_owned uid req db l :
  In l (returned_leads (sent (post_lead E uid req db))) ->
  pg_integer E uid = Some (user_id l).
Proof.
  unfold post_lead.
  destruct (missing_required (body req)); [contradiction |].
  unfold exec_insert, data_values.
  destruct (pg_integer E uid) as [owner|]; [| contradiction]. simpl.
  destruct (admissible E _); [| contradiction].
  simpl. intros [<- | []]. reflexivity.
Qed.

Lemma put_lead_owned uid req db l :
  In l (returned_leads (sent (put_lead E uid req db))) ->
  pg_integer E uid = Some (user_id l).
Proof.
  unfold put_lead.
  destruct (exec_select E db _) as [[|r0 rs0]|]; try contradiction.
  destruct (missing_required (body req)); [contradiction |].
  unfold exec_update, data_values. cbn [app]. cbv beta iota.
  destruct (by_id_and_owner E _ _) as [p|] eqn:Hp; [| contradiction]. simpl.
  destruct (admissible E _); [| contradiction]. simpl.
  destruct (List.filter p (rows db)) as [|r rs] eqn:Hf; [contradiction |].
  simpl. intros [<- | []]. simpl.
  assert (Hin : In r (List.filter p (rows db))) by (rewrite Hf; now left).
  apply filter_In in Hin as [_ Ht].
  now destruct (by_id_and_owner_true _ _ _ _ Hp Ht) as (_ & ? & _).
Qed.

Lemma delete_lead_returns_none uid req db :
  returned_leads (sent (delete_lead E uid req db)) = [].
Proof.
  unfold delete_lead.
  destruct (exec_delete E db _) as [[[|i0 ids] db1]|]; reflexivity.
Qed.

End engine_facts.

Section handler_facts.

Variable E : engine.

(** A condition reads only the placeholders it names: values bound after
    them do not change what it denotes. *)
Lemma param_app_known (vs extra : list value) (k : nat) :
  (1 <= k <= length vs)%nat -> param (vs ++ extra) k = param vs k.
Proof.
  destruct k as [|k]; [lia |]. intros H. simpl.
  apply lookup_app_l. lia.
Qed.

Lemma condition_sem_app c vs extra :
  Forall (fun k => (1 <= k <= length vs)%nat) (condition_placeholders c) ->
  condition_sem E c (vs ++ extra) = condition_sem E c vs.
Proof.
  intros Hk.
  assert (Ho : operands c (vs ++ extra) = operands c vs).
  { unfold operands. apply map_ext_Forall.
    eapply Forall_impl; [exact Hk |]. intros k Hk'. now apply param_app_known. }
  destruct c as [lhs op k | f phs | f a b]; simpl; rewrite ?Ho; try reflexivity.
  destruct (_ && _); [| reflexivity].
  rewrite param_app_known; [reflexivity |].
  now apply Forall_cons in Hk as [? _].
Qed.

Lemma where_sem_app cs vs extra :
  Forall (fun k => (1 <= k <= length vs)%nat) (concat (map condition_placeholders cs)) ->
  where_sem E cs (vs ++ extra) = where_sem E cs vs.
Proof.
  induction cs as [|c cs IH]; simpl; [reflexivity |].
  intros [Hc Hcs]%Forall_app.
  now rewrite condition_sem_app, IH.
Qed.

Lemma buildWhereClause_placeholders qo wc :
  buildWhereClause qo = Some wc ->
  concat (map condition_placeholders (where_conditions wc))
  = seq 1 (length (bound wc))
  /\ forallb clean (where_conditions wc) = true.
Proof.
  intros (st & Hb & Hc & Hw & Hv)%buildWhereClause_build.
  destruct (build_sound _ _ Hb) as [(H1 & _ & H3) _].
  rewrite Hc, Hv. auto.
Qed.

Lemma where_sem_extra qo wc extra :
  buildWhereClause qo = Some wc ->
  where_sem E (where_conditions wc) (bound wc ++ extra)
  = where_sem E (where_conditions wc) (bound wc).
Proof.
  intros [H _]%buildWhereClause_placeholders.
  apply where_sem_app. rewrite H.
  apply Forall_forall. intros k Hk%elem_of_seq. lia.
Qed.

(** The successful run of GET /leads, step by step. *)
Lemma get_leads_success uid req db :
  code (sent (get_leads E uid req db)) = 200%nat ->
  exists pg lim off w p n m,
    paging (query req) = Some (pg, lim, off)
    /\ buildWhereClause {| userId := uid; params := query req |} = Some w
    /\ where_sem E (where_conditions w) (bound w) = Some p
    /\ pg_bigint E (num lim) = Some n
    /\ pg_bigint E (num off) = Some m
    /\ get_leads E uid req db =
       let rs := take n (drop m (newest_first (List.filter p (rows db)))) in
       let tot := parseInt_string (decimal (length (List.filter p (rows db)))) in
       let tp := Math_ceil (div tot lim) in
       {| sent :=
            {| code := 200;
               content := ListBody
                 {| data := rs; page := pg; limit := lim; total := tot;
                    totalPages := tp; leads := rs;
                    pagination := {| p_page := pg; p_limit := lim;
                                     p_total := tot; pages := tp |} |} |};
          final := db;
          issued :=
            [ (CountLeads (where_conditions w), bound w);
              (ListLeads (where_conditions w)
                 (length (bound w) + 1) (length (bound w) + 2),
               bound w ++ [num lim; num off]) ] |}.
Proof.
  unfold get_leads.
  destruct (paging (query req)) as [[[pg lim] off]|]; [| discriminate].
  destruct (buildWhereClause _) as [w|] eqn:Hw; [| discriminate].
  unfold exec_count, exec_list. simpl snd.
  rewrite (where_sem_extra _ _ _ Hw).
  destruct (where_sem E _ _) as [p|] eqn:Hp; [| discriminate]. simpl.
  assert (Hl : param (bound w ++ [num lim; num off]) (length (bound w) + 1)
               = Some (num lim)).
  { rewrite Nat.add_1_r. apply param_next. }
  assert (Ho : param (bound w ++ [num lim; num off]) (length (bound w) + 2)
               = Some (num off)).
  { replace (length (bound w) + 2)%nat with (S (length (bound w ++ [num lim])))
      by (rewrite length_app; simpl; lia).
    change (bound w ++ [num lim; num off]) with (bound w ++ [num lim] ++ [num off]).
    rewrite app_assoc. apply param_next. }
  rewrite Hl, Ho. simpl.
  destruct (pg_bigint E (num lim)) as [n|] eqn:Hn; [| discriminate]. simpl.
  destruct (pg_bigint E (num off)) as [m|] eqn:Hm; [| discriminate]. simpl.
  intros _. exists pg, lim, off, w, p, n, m. repeat split; (assumption || reflexivity).
Qed.

(** Rows the statement does not select stay as they are. *)
Lemma filter_none {A} (p : A -> bool) (l : list A) :
  (forall x, In x l -> p x = false) -> List.filter p l = [].
Proof.
  induction l as [|x l IH]; simpl; [reflexivity |].
  intros H. rewrite (H x) by now left. apply IH. intros y Hy. apply H. now right.
Qed.

Lemma filter_all {A} (p : A -> bool) (l : list A) :
  (forall x, In x l -> p x = true) -> List.filter p l = l.
Proof.
  induction l as [|x l IH]; simpl; [reflexivity |].
  intros H. rewrite (H x) by now left. f_equal. apply IH.
  intros y Hy. apply H. now right.
Qed.

Lemma database_eta db :
  {| rows := rows db; next_id := next_id db; now := now db |} = db.
Proof. now destruct db. Qed.

Lemma none_owned_false db i u l :
  none_owned db i u -> In l (rows db) ->
  matches_int (Some (id l)) i && matches_int (user_id l) u = false.
Proof.
  intros Hn Hl. apply not_true_is_false. intros [H1 H2]%andb_prop.
  apply matches_int_true in H1 as [-> _].
  apply matches_int_true in H2 as [-> ?].
  apply (Hn l Hl). auto.
Qed.

End handler_facts.

End HandlerFacts.

(** ** The definitions at work *)

Module Examples.

Import JS Sql Leads.

Example parseInt_examples :
  map parseInt_string ["12"; " 12px"; "-0"; "0x1F"; "abc"; ""; "1e3"; "-7.9"]
  = [Finite 12; Finite 12; Zero true; Finite 31; NaN; NaN; Finite 1; Finite (-7)].
Proof. vm_compute. reflexivity. Qed.

Example parseInt_rounds_to_double :
  parseInt_string "9007199254740993" = Finite 9007199254740992.
Proof. vm_compute. reflexivity. Qed.

Example Number_examples :
  map Number_string ["12"; " 12 "; ""; "abc"; "12px"; "0x1F"; "1e3"; ".5"; "-Infinity"; "1,2"]
  = [Finite 12; Finite 12; Zero false; NaN; NaN; Finite 31; Finite 1000;
     Finite (1 # 2); Infinity true; NaN].
Proof. vm_compute. reflexivity. Qed.

Example Number_rounds_to_double :
  Number_string "0.1" = Finite (3602879701896397 # 36028797018963968).
Proof. vm_compute. reflexivity. Qed.

Example split_examples :
  map split_comma ["a,b"; ""; "abc"; "a,,b,"]
  = [["a"; "b"]; [""]; ["abc"]; ["a"; ""; "b"; ""]].
Proof. reflexivity. Qed.

Example ToString_examples :
  map ToString
    [Atom "x"; Arr [Atom "a"; Arr [Atom "b"; Atom "c"]]; Obj [("k", Atom "v")];
     Obj [("toString", Atom "v")]]
  = [Some "x"; Some "a,b,c"; Some "[object Object]"; None].
Proof. reflexivity. Qed.

(** [?limit=1000] is cut to 100, [?limit=0] falls back to 20, [?page=-3]
    is raised to 1, a page that is no number is 1. *)
Example paging_examples :
  map (fun q => paging (list_to_map q))
    [ [("page", Atom "3"); ("limit", Atom "1000")];
      [("page", Atom "-3"); ("limit", Atom "0")];
      [("page", Atom "two"); ("limit", Atom "7.5")];
      [("page", Arr [Atom "2"; Atom "9"])];
      [("page", Obj [("toString", Atom "1")])] ]
  = [ Some (Finite 3, Finite 100, Finite 200);
      Some (Finite 1, Finite 20, Zero false);
      Some (Finite 1, Finite 7, Zero false);
      Some (Finite 2, Finite 20, Finite 20);
      None ].
Proof. vm_compute. reflexivity. Qed.

Example buildWhereClause_example :
  buildWhereClause C10_sample_query
  = Some {| where_conditions :=
              [ Compare "user_id" "=" 1; Compare "email" "ILIKE" 2;
                InList "status" [3; 4]%nat; Between "score" 5 6;
                Compare "is_qualified" "=" 7 ];
            where_ := "user_id = $1 AND email ILIKE $2 AND status IN ($3,$4) AND score BETWEEN $5 AND $6 AND is_qualified = $7";
            bound := [ num (Finite 7); str "%x.io%"; str "new"; str "won";
                       num (Finite 10); num (Finite 200); Atom (Bool false) ] |}.
Proof. vm_compute. reflexivity. Qed.

(** An object with an own [toString] makes [String(...)] throw; GET /leads
    answers 500 without a statement. *)
Example conversion_throws :
  buildWhereClause
    {| userId := num (Finite 7);
       params := {[ "is_qualified" := Obj [("toString", Atom "x")] ]} |} = None
  /\ get_leads sample_engine (num (Finite 7))
       (sample_request "token-7" "" [("is_qualified", Obj [("toString", Atom "x")])] [])
       sample_db
     = {| sent := server_error; final := sample_db; issued := [] |}.
Proof. split; vm_compute; reflexivity. Qed.

(** Creating a lead, then fetching it by the id it got. *)
Example create_then_get :
  let created := post_lead sample_engine (num (Finite 7)) C8_sample_request sample_db in
  code (sent created) = 201%nat
  /\ exists l,
       content (sent created) = MessageLeadBody "Lead created successfully" (Some l)
       /\ id l = 4
       /\ content (sent (get_lead sample_engine (num (Finite 7))
                           (sample_request "token-7" "4" [] []) (final created)))
          = LeadBody l.
Proof. vm_compute. split; [reflexivity |]. eexists. repeat split. Qed.

End Examples.

(** ** The claims *)

Module Claims.

Import JS Sql Leads ScanFacts BuilderFacts NumberFacts HandlerFacts.

#[local] Arguments matches_int : simpl never.

Ltac find_step tac :=
  unfold steps;
  repeat first [ apply Exists_cons_hd; solve [tac] | apply Exists_cons_tl ].

(** C1: every access is scoped to the owner.  [buildWhereClause] puts
    [user_id = $1] first, with the caller's user id as first value; the
    statements of the three routes on one lead name the id and the user
    id by two placeholders and bind the request's id and the caller's id
    to them; every lead a response carries has the caller's id as owner
    (as the database reads it); and a row of the table that the caller
    does not own is still there, unchanged, after the request. *)
Theorem C1_owner_scoped (E : engine) :
  (forall qo wc,
     buildWhereClause qo = Some wc ->
     exists cs vs rest,
       where_conditions wc = Compare "user_id" "=" 1 :: cs
       /\ bound wc = userId qo :: vs
       /\ where_ wc = "user_id = $1" +:+ rest)
  /\ (forall r uid req db s vs,
        In r [GetLead; PutLead; DeleteLeadRoute] ->
        In (s, vs) (issued (handler E r uid req db)) ->
        match s with
        | SelectLead | SelectLeadId | DeleteLead =>
            placeholders_of (sql s) = [1; 2]%nat
            /\ vs = [str (id_param req); uid]
        | UpdateLead =>
            placeholders_of (sql s) = seq 1 15
            /\ param vs 14 = Some (str (id_param req))
            /\ param vs 15 = Some uid
        | _ => False
        end)
  /\ (forall r uid req db l,
        In l (returned_leads (sent (handler E r uid req db))) ->
        pg_integer E uid = Some (user_id l))
  /\ (forall r uid req db l,
        In l (rows db) ->
        ~ (pg_integer E uid = Some (user_id l) /\ user_id l <> None) ->
        In l (rows (final (handler E r uid req db)))).
Proof.
  split; [| split; [| split]].
  - apply buildWhereClause_owner.
  - intros r uid req db s vs Hr. simpl in Hr.
    destruct Hr as [<- | [<- | [<- | []]]]; simpl handler.
    + unfold get_lead.
      destruct (exec_select E db _) as [[|? ?]|];
        intros [[= <- <-] | []]; split; reflexivity.
    + unfold put_lead.
      destruct (exec_select E db _) as [[|? ?]|];
        try (intros [[= <- <-] | []]; split; reflexivity).
      destruct (missing_required _);
        [intros [[= <- <-] | []]; split; reflexivity |].
      destruct (exec_update E db _) as [[? ?]|];
        (intros [[= <- <-] | [[= <- <-] | []]];
         [split; reflexivity | split; [reflexivity | split; reflexivity]]).
    + unfold delete_lead.
      destruct (exec_delete E db _) as [[[|? ?] ?]|];
        intros [[= <- <-] | []]; split; reflexivity.
  - intros r uid req db l Hl. destruct r; simpl in Hl.
    + now apply get_leads_owned in Hl.
    + now apply get_lead_owned in Hl.
    + now apply post_lead_owned in Hl.
    + now apply put_lead_owned in Hl.
    + now rewrite delete_lead_returns_none in Hl.
  - intros r uid req db l Hl Hno.
    assert (Hkeep : forall vi p,
              by_id_and_owner E (Some vi) (Some uid) = Some p -> p l = false).
    { intros vi p Hp. apply not_true_is_false. intros Ht.
      destruct (by_id_and_owner_true E _ _ _ _ Hp Ht) as (_ & ? & ?). tauto. }
    destruct r; simpl.
    + unfold get_leads.
      destruct (paging (query req)) as [[[pg lim] off]|]; [| exact Hl].
      destruct (buildWhereClause _); [| exact Hl].
      destruct (exec_count E db _ _); [| exact Hl].
      destruct (exec_list E db _ _ _ _); exact Hl.
    + unfold get_lead. destruct (exec_select E db _) as [[|? ?]|]; exact Hl.
    + unfold post_lead. destruct (missing_required _); [exact Hl |].
      unfold exec_insert, data_values.
      destruct (pg_integer E uid); [| exact Hl]. simpl.
      destruct (admissible E _); [| exact Hl].
      simpl. apply in_or_app. now left.
    + unfold put_lead. destruct (exec_select E db _) as [[|? ?]|]; try exact Hl.
      destruct (missing_required _); [exact Hl |].
      unfold exec_update, data_values. cbn [app]. cbv beta iota.
      destruct (by_id_and_owner E _ _) as [p|] eqn:Hp; [| exact Hl]. simpl.
      destruct (admissible E _); [| exact Hl]. simpl.
      apply in_map_iff. exists l. split; [| exact Hl].
      now rewrite (Hkeep _ _ Hp).
    + unfold delete_lead, exec_delete. simpl param.
      destruct (by_id_and_owner E _ _) as [p|] eqn:Hp; [| exact Hl]. simpl.
      assert (Hin : In l (List.filter (fun r => negb (p r)) (rows db))).
      { apply filter_In. split; [exact Hl |]. now rewrite (Hkeep _ _ Hp). }
      destruct (map id (List.filter p (rows db))); exact Hin.
Qed.

(** C2, as stated, fails for an id that is no integer.  The table declares
    [id SERIAL], so the database reads [$1] of [WHERE id = $1] as an
    integer; for GET /leads/abc no lead has that id, yet the statement
    fails on the parameter and the [catch] answers 500, not 404. *)
Lemma C2_counterexample :
  no_such_lead sample_engine (num (Finite 7)) malformed_id_request sample_db
  /\ sent (handler sample_engine GetLead (num (Finite 7)) malformed_id_request sample_db)
     = server_error
  /\ ~ not_found_unless_owned GetLead.
Proof.
  assert (Hn : no_such_lead sample_engine (num (Finite 7)) malformed_id_request
                 sample_db).
  { intros l _ (Hi & _). discriminate Hi. }
  split; [exact Hn |]. split; [reflexivity |].
  intros H. destruct (H sample_engine _ _ _ Hn) as [Hs _]. discriminate Hs.
Qed.

(** C2, amended: for GET, PUT and DELETE /leads/:id, if no lead with the
    given id is owned by the requesting user (in particular when the lead
    belongs to someone else), no row is inserted, modified or deleted and
    the only statement issued is the one that looks the lead up; the
    response is 404 with [{ error: 'Lead not found' }] when the database
    accepts the id and the user id as integer parameters, and 500 with
    [{ error: 'Server error' }] when it rejects one of them. *)
Theorem C2_not_found (E : engine) (r : route) (uid : value) (req : request)
    (db : database) :
  In r [GetLead; PutLead; DeleteLeadRoute] ->
  no_such_lead E uid req db ->
  final (handler E r uid req db) = db
  /\ (exists s, issued (handler E r uid req db) = [(s, [str (id_param req); uid])]
                /\ In s [SelectLead; SelectLeadId; DeleteLead])
  /\ sent (handler E r uid req db)
     = match pg_integer E (str (id_param req)), pg_integer E uid with
       | Some _, Some _ => not_found
       | _, _ => server_error
       end.
Proof.
  intros Hr Hno.
  destruct (pg_integer E (str (id_param req))) as [i|] eqn:Hi.
  1: destruct (pg_integer E uid) as [u|] eqn:Hu.
  - assert (Hn : none_owned db i u).
    { intros l Hl (-> & -> & Ho). apply (Hno l Hl). rewrite Hi, Hu. auto. }
    assert (Hp := by_id_and_owner_Some E _ _ _ _ Hi Hu).
    assert (Hf : List.filter
                   (fun l => matches_int (Some (id l)) i && matches_int (user_id l) u)
                   (rows db) = []).
    { apply filter_none. intros l Hl. now apply none_owned_false with (db := db). }
    simpl in Hr. destruct Hr as [<- | [<- | [<- | []]]]; simpl handler.
    + unfold get_lead, exec_select. simpl param. rewrite Hp. simpl. rewrite Hf.
      repeat split. exists SelectLead. split; [reflexivity | now left].
    + unfold put_lead, exec_select. simpl param. rewrite Hp. simpl. rewrite Hf.
      repeat split. exists SelectLeadId. split; [reflexivity | right; now left].
    + unfold delete_lead, exec_delete. simpl param. rewrite Hp. simpl. rewrite Hf.
      simpl. repeat split.
      * rewrite filter_all; [apply database_eta |].
        intros l Hl. now rewrite (none_owned_false db i u l Hn Hl).
      * exists DeleteLead. split; [reflexivity | right; right; now left].
  - simpl in Hr.
    destruct Hr as [<- | [<- | [<- | []]]]; simpl handler;
      [unfold get_lead | unfold put_lead | unfold delete_lead];
      unfold exec_select, exec_delete, by_id_and_owner; simpl param; simpl;
      rewrite Hi, Hu; simpl; repeat split; eexists; (split; [reflexivity |]);
      simpl; tauto.
  - simpl in Hr.
    destruct Hr as [<- | [<- | [<- | []]]]; simpl handler;
      [unfold get_lead | unfold put_lead | unfold delete_lead];
      unfold exec_select, exec_delete, by_id_and_owner; simpl param; simpl;
      rewrite Hi; simpl; repeat split; eexists; (split; [reflexivity |]);
      simpl; tauto.
Qed.

(** The lead 2 belongs to user 8: user 7 gets 404 when updating it, and
    the table stays as it was. *)
Lemma C2_witness :
  no_such_lead sample_engine (num (Finite 7)) C2_sample_request sample_db
  /\ sent (handler sample_engine PutLead (num (Finite 7)) C2_sample_request sample_db)
     = not_found
  /\ final (handler sample_engine PutLead (num (Finite 7)) C2_sample_request sample_db)
     = sample_db.
Proof.
  assert (Hn : no_such_lead sample_engine (num (Finite 7)) C2_sample_request
                 sample_db).
  { intros l Hl (Hi & Hu & _). simpl in Hl.
    destruct Hl as [<- | [<- | [<- | []]]];
      vm_compute in Hi; vm_compute in Hu; congruence. }
  split; [exact Hn |].
  destruct (C2_not_found sample_engine PutLead (num (Finite 7)) C2_sample_request
              sample_db) as (H1 & _ & H2);
    [right; now left | exact Hn |].
  split; [exact H2 | exact H1].
Defined.

(** C3: POST /leads answers 400 and issues no statement when one of
    [first_name], [last_name], [email] is missing or the empty string; PUT
    /leads/:id answers 400 in the same case when the lead exists and
    belongs to the user, issues only the statement that looks the lead up,
    and leaves the table as it was. *)
Theorem C3_required_fields (E : engine) (uid : value) (req : request)
    (db : database) (name : string) :
  In name ["first_name"; "last_name"; "email"] ->
  body req !! name = None \/ body req !! name = Some (str "") ->
  (sent (post_lead E uid req db) = bad_request
   /\ code bad_request = 400%nat
   /\ final (post_lead E uid req db) = db
   /\ issued (post_lead E uid req db) = [])
  /\ (forall l,
        In l (rows db) ->
        pg_integer E (str (id_param req)) = Some (Some (id l)) ->
        pg_integer E uid = Some (user_id l) -> user_id l <> None ->
        sent (put_lead E uid req db) = bad_request
        /\ final (put_lead E uid req db) = db
        /\ issued (put_lead E uid req db)
           = [(SelectLeadId, [str (id_param req); uid])]).
Proof.
  intros Hname Hmiss.
  assert (Hm : missing_required (body req) = true).
  { unfold missing_required, field. simpl in Hname.
    destruct Hname as [<- | [<- | [<- | []]]];
      destruct Hmiss as [-> | ->]; simpl;
      rewrite ?orb_true_r; reflexivity. }
  split.
  - unfold post_lead. rewrite Hm. repeat split.
  - intros l Hl Hi Hu Ho.
    unfold put_lead, exec_select. simpl param.
    rewrite (by_id_and_owner_Some E _ _ _ _ Hi Hu). simpl.
    destruct (List.filter _ (rows db)) as [|x xs] eqn:Hf.
    + exfalso.
      assert (Hin : In l (List.filter
                (fun r => matches_int (Some (id r)) (Some (id l))
                          && matches_int (user_id r) (user_id l)) (rows db))).
      { apply filter_In. split; [assumption |].
        unfold matches_int. rewrite Z.eqb_refl.
        destruct (user_id l); [now rewrite Z.eqb_refl | congruence]. }
      now rewrite Hf in Hin.
    + rewrite Hm. repeat split.
Qed.

Lemma C3_witness :
  body C3_sample_request !! "email" = Some (str "")
  /\ sent (post_lead sample_engine (num (Finite 7)) C3_sample_request sample_db)
     = bad_request
  /\ issued (post_lead sample_engine (num (Finite 7)) C3_sample_request sample_db) = []
  /\ sent (put_lead sample_engine (num (Finite 7)) C3_sample_request sample_db)
     = bad_request
  /\ final (put_lead sample_engine (num (Finite 7)) C3_sample_request sample_db)
     = sample_db.
Proof.
  assert (Hb : body C3_sample_request !! "email" = Some (str ""))
    by (vm_compute; reflexivity).
  split; [exact Hb |].
  destruct (C3_required_fields sample_engine (num (Finite 7)) C3_sample_request
              sample_db "email") as [(H1 & _ & _ & H2) Hput];
    [right; right; now left | now right |].
  destruct (Hput (sample_lead 1 7 "a@x.io" "won" 100)) as (H3 & H4 & _);
    [now left | reflexivity | reflexivity | discriminate |].
  repeat split; assumption.
Defined.

(** C4, as stated, fails for PUT /leads/:id: with an empty body, which
    fails the validation, the handler has already issued the SELECT that
    looks the lead up. *)
Lemma C4_counterexample :
  missing_required (body C4_sample_request) = true
  /\ issued (serve sample_engine sample_auth PutLead C4_sample_request sample_db)
     = [(SelectLeadId, [str "1"; num (Finite 7)])]
  /\ ~ validates_before_querying PutLead.
Proof.
  split; [reflexivity |]. split; [reflexivity |].
  intros H.
  specialize (H sample_engine sample_auth C4_sample_request sample_db eq_refl).
  discriminate H.
Qed.

(** C4, amended: every route runs the middleware first, and a request it
    denies reaches neither the handler nor the database; POST /leads
    validates the required fields before its only statement; PUT
    /leads/:id first issues the SELECT that looks the lead up, whatever
    the body, and issues the UPDATE only after the validation passed; the
    other three routes have no validation; no route issues more than two
    statements. *)
Theorem C4_step_order (E : engine) (auth : request -> auth_result)
    (req : request) (db : database) :
  (forall r resp,
     auth req = Denied resp ->
     sent (serve E auth r req db) = resp
     /\ issued (serve E auth r req db) = []
     /\ final (serve E auth r req db) = db)
  /\ (missing_required (body req) = true ->
      issued (serve E auth PostLead req db) = [])
  /\ (forall uid,
        auth req = Granted uid ->
        exists rest,
          issued (serve E auth PutLead req db)
          = (SelectLeadId, [str (id_param req); uid]) :: rest
          /\ (rest = []
              \/ missing_required (body req) = false
                 /\ exists vs, rest = [(UpdateLead, vs)]))
  /\ (forall r uid b,
        In r [GetLeads; GetLead; DeleteLeadRoute] ->
        handler E r uid (with_body req b) db = handler E r uid req db)
  /\ (forall r, (length (issued (serve E auth r req db)) <= 2)%nat).
Proof.
  split; [| split; [| split; [| split]]].
  - intros r resp Ha. unfold serve. rewrite Ha. repeat split.
  - intros Hm. unfold serve. destruct (auth req); [| reflexivity].
    simpl. unfold post_lead. now rewrite Hm.
  - intros uid Ha. unfold serve. rewrite Ha. simpl. unfold put_lead.
    destruct (exec_select E db _) as [[|r0 rs0]|];
      try (eexists; split; [reflexivity | now left]).
    destruct (missing_required (body req));
      [eexists; split; [reflexivity | now left] |].
    destruct (exec_update E db _) as [[rs db']|];
      (eexists; split; [reflexivity | right; split; [reflexivity | eauto]]).
  - intros r uid b Hr. simpl in Hr.
    destruct Hr as [<- | [<- | [<- | []]]]; reflexivity.
  - intros r. unfold serve. destruct (auth req) as [uid | resp]; [| simpl; lia].
    destruct r; simpl.
    + unfold get_leads.
      destruct (paging (query req)) as [[[pg lim] off]|]; [| simpl; lia].
      destruct (buildWhereClause _); [| simpl; lia].
      destruct (exec_count E db _ _); [| simpl; lia].
      destruct (exec_list E db _ _ _ _); simpl; lia.
    + unfold get_lead. destruct (exec_select E db _) as [[|? ?]|]; simpl; lia.
    + unfold post_lead. destruct (missing_required _); [simpl; lia |].
      destruct (exec_insert E db _) as [[? ?]|]; simpl; lia.
    + unfold put_lead. destruct (exec_select E db _) as [[|? ?]|]; try (simpl; lia).
      destruct (missing_required _); [simpl; lia |].
      destruct (exec_update E db _) as [[? ?]|]; simpl; lia.
    + unfold delete_lead.
      destruct (exec_delete E db _) as [[[|? ?] ?]|]; simpl; lia.
Qed.


(** C6: on a query whose parameters are all strings [buildWhereClause]
    returns, whatever the strings are.  A value given for a numeric
    operator is bound as [Number] of it, which is [NaN] for a string that
    is no numeral (for [_between], [Number] of the two parts around the
    first commas, when the value has a comma; a value without one adds no
    condition); the value of [is_qualified] is bound as the boolean
    "its lower case is [true]". *)
Theorem C6_coerced_not_rejected (qo : query_object) :
  string_valued (params qo) ->
  exists wc,
    buildWhereClause qo = Some wc
    /\ (forall key shape s,
          In (key, shape) numeric_operators ->
          params qo !! key = Some (Atom s) ->
          binds (where_conditions wc) (bound wc) shape (num (Number_string s)))
    /\ (forall field s min max rest,
          In field ["score"; "lead_value"] ->
          params qo !! (field +:+ "_between") = Some (Atom s) ->
          s <> "" -> split_comma s = min :: max :: rest ->
          binds_between (where_conditions wc) (bound wc) field
            (num (Number_string min)) (num (Number_string max)))
    /\ (forall s,
          params qo !! "is_qualified" = Some (Atom s) ->
          binds (where_conditions wc) (bound wc) (Compare "is_qualified" "=")
            (Atom (Bool (lower_is_true s)))
          /\ (lower_is_true s = true <-> map lower_code (codes s) = codes "true"))
    /\ Number_string "abc" = NaN.
Proof.
  intros Hq.
  destruct (build_never_throws qo Hq) as [st Hst].
  exists {| where_conditions := conditions st;
            where_ := where_text (conditions st);
            bound := values st |}.
  split; [unfold buildWhereClause; now rewrite Hst |].
  simpl. repeat split.
  - intros key shape s Hin Hk.
    apply (build_establishes _ qo st (stable_binds shape _)); [| exact Hst].
    simpl in Hin.
    repeat (destruct Hin as [[= <- <-] | Hin]); try contradiction.
    + find_step ltac:(now apply numberField_equals).
    + find_step ltac:(now apply (numberField_gt _ "score")).
    + find_step ltac:(now apply (numberField_lt _ "score")).
    + find_step ltac:(now apply numberField_equals).
    + find_step ltac:(now apply (numberField_gt _ "lead_value")).
    + find_step ltac:(now apply (numberField_lt _ "lead_value")).
    + find_step ltac:(now apply establishes_number).
    + find_step ltac:(now apply establishes_number).
  - intros field s min max rest Hin Hk Hne Hs.
    apply (build_establishes _ qo st (stable_binds_between field _ _)); [| exact Hst].
    simpl in Hin. destruct Hin as [<- | [<- | []]].
    + find_step ltac:(now apply (numberField_between _ "score" eq_refl s min max rest)).
    + find_step ltac:(now apply (numberField_between _ "lead_value" eq_refl s min max rest)).
  - apply (build_establishes _ qo st (stable_binds _ _)); [| exact Hst].
    find_step ltac:(eapply establishes_if_defined; [eassumption |];
                    intros st0 st1 Hc [= <-];
                    now apply (binds_push (Compare "is_qualified" "="))).
  - now apply lower_is_true_spec.
  - now apply lower_is_true_spec.
Qed.

Lemma C6_witness :
  string_valued (params C6_sample_query)
  /\ exists wc,
       buildWhereClause C6_sample_query = Some wc
       /\ bound wc = [ num (Finite 7); num NaN; num (Finite 10); num NaN;
                       num (Zero false); Atom (Bool false) ]
       /\ binds (where_conditions wc) (bound wc) (Compare "score" "=") (num NaN).
Proof.
  assert (Hs : string_valued (params C6_sample_query)).
  { apply string_valued_of_list. repeat constructor; simpl; eauto. }
  split; [exact Hs |].
  destruct (C6_coerced_not_rejected C6_sample_query Hs)
    as (wc & Hwc & Hnum & _ & _ & Hnan).
  exists wc. split; [exact Hwc |]. split.
  - revert Hwc. vm_compute. now intros [= <-].
  - rewrite <- Hnan.
    apply (Hnum "score" (Compare "score" "=") "abc"); [now left | reflexivity].
Defined.

(** C7: every successful response of GET /leads carries both envelope
    shapes, and they agree: [leads] is [data], [pagination] is
    [{ page, limit, total, pages }] with [pages] equal to [totalPages],
    and [totalPages] is [Math.ceil(total / limit)]. *)
Theorem C7_envelopes_agree (E : engine) (uid : value) (req : request) (db : database) :
  code (sent (get_leads E uid req db)) = 200%nat ->
  exists pl,
    content (sent (get_leads E uid req db)) = ListBody pl
    /\ leads pl = data pl
    /\ pagination pl = {| p_page := page pl; p_limit := limit pl;
                          p_total := total pl; pages := totalPages pl |}
    /\ totalPages pl = Math_ceil (div (total pl) (limit pl)).
Proof.
  intros (pg & lim & off & w & p & n & m & _ & _ & _ & _ & _ & ->)%get_leads_success.
  eexists. simpl. repeat split.
Qed.

Lemma C7_witness :
  code (sent (get_leads sample_engine (num (Finite 7)) C7_sample_request sample_db)) = 200%nat
  /\ exists pl,
       content (sent (get_leads sample_engine (num (Finite 7)) C7_sample_request sample_db))
       = ListBody pl
       /\ leads pl = data pl
       /\ pagination pl = {| p_page := page pl; p_limit := limit pl;
                             p_total := total pl; pages := totalPages pl |}
       /\ totalPages pl = Math_ceil (div (total pl) (limit pl))
       /\ total pl = Finite 2 /\ limit pl = Finite 1 /\ totalPages pl = Finite 2.
Proof.
  assert (H : code (sent (get_leads sample_engine (num (Finite 7))
                            C7_sample_request sample_db)) = 200%nat)
    by (vm_compute; reflexivity).
  split; [exact H |].
  destruct (C7_envelopes_agree sample_engine (num (Finite 7)) C7_sample_request
              sample_db H) as (pl & Hc & H1 & H2 & H3).
  exists pl. repeat (split; [assumption |]).
  revert Hc. vm_compute. intros [= <-]. repeat split.
Defined.

(** C8: when [status] is absent from the body (or falsy), POST /leads
    binds ['new'] for it ([$10] of the INSERT) and PUT /leads/:id binds
    ['new'] for it ([$9] of the UPDATE); the update replaces every data
    column, so after a successful PUT the lead of that id and owner has
    status ['new'], whatever it was before. *)
Theorem C8_status_defaults_to_new (E : engine) (uid : value) (req : request)
    (db : database) :
  truthy (field (body req) "status") = false ->
  (missing_required (body req) = false ->
   exists vs, issued (post_lead E uid req db) = [(InsertLead, vs)]
              /\ param vs 10 = Some (str "new"))
  /\ (forall vs, In (UpdateLead, vs) (issued (put_lead E uid req db)) ->
                 param vs 9 = Some (str "new"))
  /\ (code (sent (put_lead E uid req db)) = 200%nat ->
      exists p vs,
        by_id_and_owner E (Some (str (id_param req))) (Some uid) = Some p
        /\ issued (put_lead E uid req db)
           = [(SelectLeadId, [str (id_param req); uid]); (UpdateLead, vs)]
        /\ (exists l, In l (rows db) /\ p l = true)
        /\ forall l, In l (rows (final (put_lead E uid req db))) ->
                     p l = true -> status l = str "new").
Proof.
  intros Hs.
  assert (Hnew : or_else (field (body req) "status") (str "new") = str "new").
  { unfold or_else. now rewrite Hs. }
  split; [| split].
  - intros Hm. unfold post_lead. rewrite Hm.
    eexists. split.
    + destruct (exec_insert E db _) as [[rs db']|]; reflexivity.
    + unfold data_values. simpl. now rewrite Hnew.
  - intros vs. unfold put_lead.
    destruct (exec_select E db _) as [[|r0 rs0]|];
      try (intros [[=] | []]).
    destruct (missing_required (body req)); [intros [[=] | []] |].
    assert (G : In (UpdateLead, vs)
                  [(SelectLeadId, [str (id_param req); uid]);
                   (UpdateLead, data_values (body req) ++ [str (id_param req); uid])] ->
                param vs 9 = Some (str "new")).
    { intros [[=] | [[= <-] | []]]. unfold data_values. simpl. now rewrite Hnew. }
    destruct (exec_update E db _) as [[rs db']|]; exact G.
  - unfold put_lead.
    destruct (exec_select E db _) as [[|r0 rs0]|] eqn:Hsel; try discriminate.
    destruct (missing_required (body req)); [discriminate |].
    unfold exec_update, data_values. cbn [app]. cbv beta iota.
    destruct (by_id_and_owner E _ _) as [p|] eqn:Hp; [| discriminate]. simpl.
    destruct (admissible E _); [| discriminate]. simpl.
    intros _. exists p. eexists. split; [reflexivity |]. split; [reflexivity |].
    split.
    + apply exec_select_spec in Hsel as (p' & Hp' & Hrs).
      rewrite Hp in Hp'. injection Hp' as <-.
      exists r0. apply filter_In. rewrite <- Hrs. now left.
    + intros l Hl Hpl. apply in_map_iff in Hl as (r & <- & Hr).
      destruct (p r) eqn:Hr'; [simpl; exact Hnew |].
      congruence.
Qed.

(** The lead 1 had status ['won']; a PUT without [status] makes it ['new']. *)
Lemma C8_witness :
  truthy (field (body C8_sample_request) "status") = false
  /\ map status (rows sample_db) = [str "won"; str "new"; str "new"]
  /\ code (sent (put_lead sample_engine (num (Finite 7)) C8_sample_request sample_db))
     = 200%nat
  /\ (forall l,
        In l (rows (final (put_lead sample_engine (num (Finite 7))
                             C8_sample_request sample_db))) ->
        id l = 1 -> status l = str "new").
Proof.
  split; [reflexivity |]. split; [reflexivity |].
  assert (Hc : code (sent (put_lead sample_engine (num (Finite 7))
                             C8_sample_request sample_db)) = 200%nat)
    by (vm_compute; reflexivity).
  split; [exact Hc |].
  destruct (C8_status_defaults_to_new sample_engine (num (Finite 7))
              C8_sample_request sample_db eq_refl) as (_ & _ & Hput).
  destruct (Hput Hc) as (p & vs & Hp & _ & _ & Hall).
  intros l Hl Hid. apply Hall; [exact Hl |].
  vm_compute in Hp. injection Hp as <-.
  revert Hl. vm_compute.
  intros [<- | [<- | [<- | []]]]; simpl in Hid; try discriminate; reflexivity.
Defined.


(** C10: for every input for which [buildWhereClause] returns, the text of
    the WHERE fragment names the placeholders [$1], ..., [$n] once each
    and in this order, where [n] is the length of the returned values, and
    the first value is the owner's id. *)
Theorem C10_placeholders_consecutive (qo : query_object) (wc : where_clause) :
  buildWhereClause qo = Some wc ->
  placeholders_of (where_ wc) = seq 1 (length (bound wc))
  /\ param (bound wc) 1 = Some (userId qo).
Proof.
  intros H.
  destruct (buildWhereClause_placeholders _ _ H) as [Hp Hc].
  destruct (buildWhereClause_owner _ _ H) as (cs & vs & rest & _ & Hv & _).
  destruct (buildWhereClause_build _ _ H) as (st & _ & Hcs & Hw & _).
  split.
  - rewrite Hw, <- Hcs. now rewrite placeholders_of_where_text.
  - now rewrite Hv.
Qed.

Lemma C10_witness :
  exists wc,
    buildWhereClause C10_sample_query = Some wc
    /\ where_ wc = "user_id = $1 AND email ILIKE $2 AND status IN ($3,$4) AND score BETWEEN $5 AND $6 AND is_qualified = $7"
    /\ placeholders_of (where_ wc) = seq 1 (length (bound wc))
    /\ param (bound wc) 1 = Some (userId C10_sample_query).
Proof.
  eexists. split; [vm_compute; reflexivity |].
  split; [reflexivity |].
  apply (C10_placeholders_consecutive C10_sample_query).
  vm_compute. reflexivity.
Defined.

End Claims.

(** ** The filter table *)

Module TableFacts.

Import JS Sql Leads ScanFacts BuilderFacts Tables.

Lemma run_app l1 l2 st : run (l1 ++ l2) st = run l1 st ≫= run l2.
Proof.
  revert st. induction l1 as [|f r IH]; intros st; simpl; [reflexivity |].
  destruct (f st) as [st1|]; simpl; [apply IH | reflexivity].
Qed.

Lemma run_refine f gs r r' :
  (forall st, f st = run gs st) -> (forall st, run r st = run r' st) ->
  forall st, run (f :: r) st = run (gs ++ r') st.
Proof.
  intros Hf Hr st. rewrite run_app. simpl. rewrite Hf.
  destruct (run gs st); simpl; [apply Hr | reflexivity].
Qed.

Lemma run2 (g1 g2 : builder -> option builder) st :
  run [g1; g2] st = g1 st ≫= g2.
Proof. simpl. destruct (g1 st); simpl; [now destruct (g2 _) | reflexivity]. Qed.

Lemma run4 (g1 g2 g3 g4 : builder -> option builder) st :
  run [g1; g2; g3; g4] st
  = g1 st ≫= fun st => g2 st ≫= fun st => g3 st ≫= g4.
Proof.
  simpl. destruct (g1 st) as [s1|]; simpl; [| reflexivity].
  destruct (g2 s1) as [s2|]; simpl; [| reflexivity].
  destruct (g3 s2) as [s3|]; simpl; [| reflexivity].
  now destruct (g4 s3).
Qed.

Lemma run1 (g : builder -> option builder) st : run [g] st = g st.
Proof. simpl. now destruct (g st). Qed.

(** [build] runs the blocks of the table in order. *)
Lemma steps_table q st : run (steps q) st = run (table_steps q) st.
Proof.
  revert st. unfold steps, table_steps, filter_table.
  cbn [map fst snd].
  repeat first
    [ apply (run_refine _ [_; _]);
        [ intros st; rewrite run2; reflexivity |]
    | apply (run_refine _ [_; _; _; _]);
        [ intros st; rewrite run4; reflexivity |]
    | apply (run_refine _ [_]);
        [ intros st; rewrite run1; reflexivity |] ].
  reflexivity.
Qed.

Lemma build_table qo :
  build qo = run (table_steps (params qo)) (owner_scope (userId qo)).
Proof. rewrite build_run. apply steps_table. Qed.

(** *** Steps of the table *)
Lemma run_ext l1 l2 :
  Forall2 (fun f g : builder -> option builder => forall st, f st = g st) l1 l2 ->
  forall st, run l1 st = run l2 st.
Proof.
  induction 1 as [|f g l1 l2 Hfg _ IH]; intros st; simpl; [reflexivity |].
  rewrite Hfg. destruct (g st); simpl; [apply IH | reflexivity].
Qed.

Lemma filter_step_None kind st : filter_step kind None st = Some st.
Proof. now destruct kind. Qed.

Lemma table_steps_agree (q1 q2 : gmap string qvalue) :
  (forall k, In k filter_keys -> q1 !! k = q2 !! k) ->
  table_steps q1 = table_steps q2.
Proof.
  intros H. unfold table_steps. apply map_ext_in. intros [k kind] Hin.
  simpl. rewrite (H k); [reflexivity |].
  unfold filter_keys. now apply (in_map fst) in Hin.
Qed.

Lemma buildWhereClause_table uid q :
  buildWhereClause {| userId := uid; params := q |}
  = st ← run (table_steps q) (owner_scope uid);
    Some {| where_conditions := conditions st;
            where_ := where_text (conditions st);
            bound := values st |}.
Proof. unfold buildWhereClause. now rewrite build_table. Qed.

Lemma filter_keys_NoDup : NoDup (map fst filter_table).
Proof. apply (bool_decide_unpack _). vm_compute. reflexivity. Qed.

Lemma table_kind_unique k kind kind' :
  In (k, kind) filter_table -> In (k, kind') filter_table -> kind = kind'.
Proof.
  intros H1 H2. pose proof filter_keys_NoDup as Hnd.
  revert H1 H2 Hnd. generalize filter_table as l.
  induction l as [|[k0 kd0] l IH]; simpl; [tauto |].
  intros H1 H2 Hnd. apply NoDup_cons in Hnd as [Hn Hnd].
  destruct H1 as [E1 | H1], H2 as [E2 | H2].
  - congruence.
  - exfalso. apply Hn. apply list_elem_of_In. apply (in_map fst) in H2.
    now inversion E1; subst.
  - exfalso. apply Hn. apply list_elem_of_In. apply (in_map fst) in H1.
    now inversion E2; subst.
  - now apply IH.
Qed.

(** A value the block of its key skips is as good as no value. *)
Lemma table_steps_skip k kind v (q : gmap string qvalue) :
  In (k, kind) filter_table ->
  (forall st, filter_step kind (Some v) st = Some st) ->
  forall st, run (table_steps (<[k:=v]> q)) st = run (table_steps (delete k q)) st.
Proof.
  intros Hin Hskip. apply run_ext. unfold table_steps.
  apply Forall2_fmap, Forall_Forall2_diag, Forall_forall.
  intros [k' kind'] Hin' st. simpl. apply list_elem_of_In in Hin'.
  destruct (decide (k' = k)) as [-> | Hne].
  - rewrite lookup_insert_eq, lookup_delete_eq.
    rewrite (table_kind_unique _ _ _ Hin' Hin).
    now rewrite Hskip, filter_step_None.
  - now rewrite lookup_insert_ne, lookup_delete_ne by congruence.
Qed.

Lemma buildWhereClause_skip uid k kind v (q : gmap string qvalue) :
  In (k, kind) filter_table ->
  (forall st, filter_step kind (Some v) st = Some st) ->
  buildWhereClause {| userId := uid; params := <[k:=v]> q |}
  = buildWhereClause {| userId := uid; params := delete k q |}.
Proof.
  intros Hin Hskip. rewrite !buildWhereClause_table.
  now rewrite (table_steps_skip _ _ _ _ Hin Hskip).
Qed.

(** *** [split] *)
Lemma split_comma_nonempty s : split_comma s <> [].
Proof.
  destruct s as [|c r]; simpl; [discriminate |].
  destruct (Ascii.eqb c ","); [discriminate |].
  destruct (split_comma r); discriminate.
Qed.

Lemma split_comma_no_comma s :
  ~ In ","%char (list_ascii_of_string s) -> split_comma s = [s].
Proof.
  induction s as [|c r IH]; simpl; [reflexivity |].
  intros H. destruct (Ascii.eqb c ",") eqn:E.
  - apply Ascii.eqb_eq in E. exfalso. apply H. now left.
  - rewrite IH; [reflexivity |]. intros Hr. apply H. now right.
Qed.

Lemma join_split_comma s : join "," (split_comma s) = s.
Proof.
  induction s as [|c r IH]; simpl; [reflexivity |].
  destruct (Ascii.eqb c ",") eqn:E.
  - apply Ascii.eqb_eq in E. subst c.
    pose proof (split_comma_nonempty r) as Hne.
    destruct (split_comma r) as [|p ps]; [congruence |].
    change (join "," ("" :: p :: ps)) with ("" +:+ "," +:+ join "," (p :: ps)).
    now rewrite IH.
  - pose proof (split_comma_nonempty r) as Hne.
    destruct (split_comma r) as [|p ps]; [congruence |].
    destruct ps as [|p' ps].
    + simpl in *. now rewrite IH.
    + change (join "," (String c p :: p' :: ps))
        with (String c p +:+ "," +:+ join "," (p' :: ps)).
      change (join "," (p :: p' :: ps)) with (p +:+ "," +:+ join "," (p' :: ps)) in IH.
      rewrite append_cons. now rewrite IH.
Qed.

Ltac sound_guard :=
  lazymatch goal with
  | |- sound (if_truthy _ _) => apply sound_if_truthy; intros ?
  | |- sound (if_defined _ _) => apply sound_if_defined; intros ?
  end.

Ltac sound_body :=
  first
    [ sound_compare
    | apply (sound_after (Number _)); intros ?; sound_compare
    | apply (sound_after (ToString _)); intros ?;
      first
        [ sound_compare
        | destruct (filter _ _) as [|x l] eqn:El; [apply sound_skip |];
          apply (sound_push (fun k => InList _ (seq k (length (x :: l))))
                   (fun _ => map str (x :: l)) (length (x :: l)));
          [ intros st; simpl; now rewrite length_map
          | intros st; simpl; now rewrite length_map
          | intros k; reflexivity ]
        | destruct (split_comma _) as [|x1 [|x2 r]]; try apply sound_skip;
          try apply sound_id_or;
          apply (sound_push (fun k => Between _ k (k + 1)) (fun _ => [_; _]) 2);
          [ intros st; simpl; do 2 f_equal; lia
          | reflexivity
          | intros k; reflexivity ] ] ].

Lemma sound_filter_step_table (q : gmap string qvalue) :
  Forall (fun e => sound (filter_step (snd e) (q !! fst e))) filter_table.
Proof.
  unfold filter_table.
  repeat (apply Forall_cons; split); try (apply Forall_nil; exact I);
    cbn [fst snd filter_step]; sound_guard; sound_body.
Qed.

Lemma sound_table_steps q : Forall sound (table_steps q).
Proof.
  unfold table_steps. apply Forall_fmap. apply sound_filter_step_table.
Qed.

Lemma Exists_table_step (P : (builder -> option builder) -> Prop)
    (q : gmap string qvalue) k kind :
  In (k, kind) filter_table -> P (filter_step kind (q !! k)) ->
  Exists P (table_steps q).
Proof.
  intros Hin HP. unfold table_steps. apply Exists_exists.
  exists (filter_step kind (q !! k)). split; [| exact HP].
  apply list_elem_of_In. apply (in_map (fun e => filter_step (snd e) (q !! fst e))) in Hin.
  exact Hin.
Qed.

(** What one block brings about holds of the clause returned. *)
Lemma table_establishes (P : builder -> Prop) qo wc k kind :
  stable P -> In (k, kind) filter_table ->
  establishes P (filter_step kind (params qo !! k)) ->
  buildWhereClause qo = Some wc ->
  P {| conditions := where_conditions wc; values := bound wc;
       i := S (length (bound wc)) |}.
Proof.
  intros HP Hin He Hw.
  destruct (buildWhereClause_build _ _ Hw) as (st & Hst & -> & _ & ->).
  pose proof (build_sound _ _ Hst) as [(_ & Hi & _) _].
  rewrite <- Hi.
  replace {| conditions := conditions st; values := values st; i := i st |}
    with st by now destruct st.
  rewrite build_table in Hst. revert Hst.
  apply establishes_run; auto using sound_table_steps, consecutive_owner_scope.
  eapply Exists_table_step; eauto.
Qed.

Lemma ToString_None_truthy v : ToString v = None -> truthy_q v = true.
Proof. destruct v; [discriminate | reflexivity | reflexivity]. Qed.

Lemma filter_step_throws kind v st :
  filter_step kind (Some v) st = None <-> converts kind = true /\ ToString v = None.
Proof.
  split.
  - intros H. destruct (ToString v) as [s|] eqn:Hv.
    + exfalso. revert H.
      destruct kind; simpl; unfold if_truthy, if_defined, Number;
        rewrite ?Hv; simpl; repeat case_match; discriminate.
    + split; [| reflexivity]. revert H.
      destruct kind; simpl; unfold if_truthy; [| reflexivity ..].
      now destruct (truthy_q v).
  - intros [Hc Hv]. pose proof (ToString_None_truthy _ Hv) as Ht.
    destruct kind; try discriminate; simpl;
      unfold if_truthy, if_defined, Number; rewrite ?Ht, Hv; reflexivity.
Qed.

Lemma run_None l st :
  run l st = None -> Exists (fun f => exists st', f st' = None) l.
Proof.
  revert st. induction l as [|f r IH]; intros st; simpl; [discriminate |].
  destruct (f st) as [st1|] eqn:E; simpl.
  - intros H. apply Exists_cons_tl. eapply IH; eauto.
  - intros _. apply Exists_cons_hd. eauto.
Qed.

Lemma run_throws l st :
  Exists (fun f => forall st', f st' = None) l -> run l st = None.
Proof.
  intros H. revert st. induction H as [f r Hf | f r _ IH]; intros st; simpl.
  - now rewrite Hf.
  - destruct (f st); simpl; [apply IH | reflexivity].
Qed.

Lemma stable_binds_list f xs :
  stable (fun st => binds_list (conditions st) (values st) f xs).
Proof.
  intros st st' (cs & vs & -> & ->) (k & Hin & Hp). exists k. split.
  - apply in_or_app. now left.
  - intros j x Hx. apply param_app_l. now apply Hp.
Qed.

Lemma binds_list_push f (xs : list string) st :
  consecutive st ->
  binds_list (conditions (push (InList f (seq (i st) (length xs))) (map str xs)
                            (length xs) st))
             (values (push (InList f (seq (i st) (length xs))) (map str xs)
                        (length xs) st)) f xs.
Proof.
  intros (_ & Hi & _). exists (i st). split.
  - simpl. apply in_or_app. right. now left.
  - intros j x Hx. rewrite Hi. simpl.
    rewrite lookup_app_r by lia.
    replace (length (values st) + j - length (values st))%nat with j by lia.
    rewrite list_lookup_fmap, Hx. reflexivity.
Qed.

Lemma filter_step_conditions kind o st st' :
  filter_step kind o st = Some st' ->
  conditions st' = conditions st
  \/ exists c, conditions st' = conditions st ++ [c]
               /\ column c = kind_column kind /\ is_Some o.
Proof.
  destruct o as [v|]; [| rewrite filter_step_None; intros [= <-]; now left].
  assert (Ho : is_Some (Some v)) by eauto.
  destruct kind; simpl; unfold if_truthy, if_defined, Number;
    destruct (ToString v) as [s|]; simpl; intros H;
    simpl in H; try discriminate;
    repeat (case_match; simpl in *; try discriminate);
    injection H as <-; simpl; eauto 6.
Qed.

Lemma run_table_conditions (q : gmap string qvalue) (l : list (string * filter_kind)) st st' :
  run (map (fun e => filter_step (snd e) (q !! fst e)) l) st = Some st' ->
  exists cs es,
    conditions st' = conditions st ++ cs
    /\ sublist es l
    /\ Forall2 (fun c e => column c = kind_column (snd e) /\ is_Some (q !! fst e)) cs es.
Proof.
  revert st. induction l as [|e l IH]; intros st; simpl.
  - intros [= <-]. exists [], []. rewrite app_nil_r. repeat split; constructor.
  - destruct (filter_step (snd e) (q !! fst e) st) as [st1|] eqn:E1; [| discriminate].
    simpl. intros Hr. destruct (IH _ Hr) as (cs & es & Hc & Hs & Hf).
    destruct (filter_step_conditions _ _ _ _ E1) as [H1 | (c & H1 & Hcol & Ho)].
    + exists cs, es. rewrite Hc, H1. repeat split; [| exact Hf].
      now apply sublist_cons.
    + exists (c :: cs), (e :: es). rewrite Hc, H1, <- app_assoc. repeat split.
      * now apply sublist_skip.
      * constructor; auto.
Qed.

Lemma filter_columns_not_owner :
  Forall (fun e : string * filter_kind => kind_column (snd e) <> "user_id") filter_table.
Proof.
  unfold filter_table.
  repeat (apply Forall_cons; split); try (apply Forall_nil; exact I);
    simpl; discriminate.
Qed.

End TableFacts.

(** ** Rows, pages and whole numbers *)

Module ServiceFacts.

Import JS Sql Leads ScanFacts BuilderFacts NumberFacts HandlerFacts Tables TableFacts.
Import Qround.

#[local] Arguments matches_int : simpl never.

Lemma filter_nil_none {A} (p : A -> bool) (l : list A) :
  List.filter p l = [] -> forall x, In x l -> p x = false.
Proof.
  induction l as [|y l IH]; simpl; [tauto |].
  destruct (p y) eqn:E; [discriminate |].
  intros H x [<- | Hx]; auto.
Qed.

Lemma filter_negb_all {A} (p : A -> bool) (l : list A) :
  List.filter p l = [] -> List.filter (fun x => negb (p x)) l = l.
Proof.
  intros H. apply filter_all. intros x Hx.
  now rewrite (filter_nil_none p l H x Hx).
Qed.

Lemma filter_filter_negb {A} (p : A -> bool) (l : list A) :
  List.filter p (List.filter (fun x => negb (p x)) l) = [].
Proof.
  apply filter_none. intros x Hx. apply filter_In in Hx as [_ Hx].
  now destruct (p x).
Qed.

Lemma post_lead_created (E : engine) uid req db :
  code (sent (post_lead E uid req db)) = 201%nat ->
  exists owner,
    pg_integer E uid = Some owner
    /\ missing_required (body req) = false
    /\ let l := {| id := next_id db; user_id := owner;
                   first_name := field (body req) "first_name";
                   last_name := field (body req) "last_name";
                   email := field (body req) "email";
                   phone := or_else (field (body req) "phone") (Atom Null);
                   company := or_else (field (body req) "company") (Atom Null);
                   city := or_else (field (body req) "city") (Atom Null);
                   state := or_else (field (body req) "state") (Atom Null);
                   source := or_else (field (body req) "source") (Atom Null);
                   status := or_else (field (body req) "status") (str "new");
                   score := number_or (field (body req) "score") (Atom Null);
                   lead_value := number_or (field (body req) "lead_value") (Atom Null);
                   last_activity_at :=
                     or_else (field (body req) "last_activity_at") (Atom Null);
                   is_qualified :=
                     boolean_or (field (body req) "is_qualified") (Atom (Bool false));
                   created_at := now db; updated_at := now db |} in
       admissible E (rows db ++ [l]) = true
       /\ sent (post_lead E uid req db) = created_response l
       /\ final (post_lead E uid req db)
          = {| rows := rows db ++ [l]; next_id := next_id db + 1; now := now db |}.
Proof.
  unfold post_lead. destruct (missing_required (body req)); [discriminate |].
  unfold exec_insert, data_values.
  destruct (pg_integer E uid) as [owner|]; [| discriminate]. simpl.
  destruct (admissible E _) eqn:Ha; [| discriminate]. simpl.
  intros _. exists owner. repeat split. exact Ha.
Qed.

Lemma matches_int_refl z : matches_int (Some z) (Some z) = true.
Proof. unfold matches_int. apply Z.eqb_refl. Qed.

Lemma matches_int_Some a b : matches_int (Some a) (Some b) = (a =? b).
Proof. reflexivity. Qed.


Lemma post_lead_final (E : engine) uid req db :
  final (post_lead E uid req db) = db
  \/ exists l, id l = next_id db
       /\ final (post_lead E uid req db)
          = {| rows := rows db ++ [l]; next_id := next_id db + 1; now := now db |}.
Proof.
  unfold post_lead. destruct (missing_required (body req)); [now left |].
  unfold exec_insert, data_values.
  destruct (pg_integer E uid) as [owner|]; [| now left]. simpl.
  destruct (admissible E _); [| now left]. right. eexists.
  split; [| reflexivity]. reflexivity.
Qed.

Lemma put_lead_final (E : engine) uid req db :
  final (put_lead E uid req db) = db
  \/ exists (p : lead -> bool) (set : lead -> lead),
       (forall r, id (set r) = id r)
       /\ final (put_lead E uid req db)
          = {| rows := map (fun r => if p r then set r else r) (rows db);
               next_id := next_id db; now := now db |}.
Proof.
  unfold put_lead, exec_select. cbn [snd]. simpl param.
  destruct (by_id_and_owner E _ _) as [p|] eqn:Hp; [| now left].
  pose proof Hp as Hp'. unfold by_id_and_owner in Hp'. simpl in Hp'. simpl.
  destruct (List.filter p (rows db)) as [|x xs] eqn:Hf; [now left |].
  destruct (missing_required (body req)); [now left |].
  rewrite Hp'. simpl.
  destruct (admissible E _); [| now left]. right.
  exists p. eexists. split; [| reflexivity]. reflexivity.
Qed.

Lemma delete_lead_final (E : engine) uid req db :
  final (delete_lead E uid req db) = db
  \/ exists p : lead -> bool,
       final (delete_lead E uid req db)
       = {| rows := List.filter p (rows db); next_id := next_id db; now := now db |}.
Proof.
  unfold delete_lead, exec_delete. simpl param.
  destruct (by_id_and_owner E _ _) as [p|]; [| now left]. simpl.
  right. exists (fun r => negb (p r)). now destruct (map id _).
Qed.

Lemma NoDup_map_filter {A B} (f : A -> B) (p : A -> bool) (l : list A) :
  NoDup (map f l) -> NoDup (map f (List.filter p l)).
Proof.
  induction l as [|x l IH]; simpl; [auto |].
  intros [Hn Hd]%NoDup_cons. destruct (p x); [| now apply IH].
  simpl. apply NoDup_cons. split; [| now apply IH].
  intros Hx. apply Hn. apply list_elem_of_In in Hx. apply list_elem_of_In.
  apply in_map_iff in Hx as (y & Hy & Hin). apply in_map_iff. exists y.
  apply filter_In in Hin as [Hin _]. auto.
Qed.

Lemma signed_of_Z t : 0 <= t -> signed false t = of_Z t.
Proof.
  intros Ht. unfold signed, of_Z, round_Q, inject_Z. simpl.
  destruct t as [|p|p]; [reflexivity | reflexivity | lia].
Qed.

Lemma of_Z_exact z : 0 <= z < 2 ^ 53 -> of_Z z = exact z.
Proof.
  intros [H0 H1]. unfold exact. destruct (z =? 0) eqn:E.
  - apply Z.eqb_eq in E. now subst.
  - apply Z.eqb_neq in E. rewrite <- signed_of_Z by lia.
    unfold signed. rewrite (proj2 (Z.eqb_neq _ _) E).
    now rewrite round_pos_exact by lia.
Qed.








(** *** The quotient of two whole numbers, rounded, has the same ceiling *)
Lemma binade_ge (n d : Z) : Z.log2 n - Z.log2 d - 1 <= binade n d.
Proof. unfold binade. cbv zeta. repeat case_match; lia. Qed.

Lemma binade_lower (n d : Z) :
  0 < n -> 0 < d -> 0 <= binade n d -> d * 2 ^ binade n d <= n.
Proof.
  intros Hn Hd. unfold binade. cbv zeta.
  pose proof (Z.log2_spec n Hn) as [Hn1 Hn2].
  pose proof (Z.log2_spec d Hd) as [Hd1 Hd2].
  pose proof (Z.log2_nonneg n). pose proof (Z.log2_nonneg d).
  set (e0 := Z.log2 n - Z.log2 d) in *.
  destruct (0 <=? e0) eqn:E0.
  - destruct (d * 2 ^ e0 <=? n) eqn:E1.
    + intros _. now apply Z.leb_le in E1.
    + intros He.
      assert (Hs : Z.log2 n = Z.succ (Z.log2 d) + (e0 - 1)) by (unfold e0; lia).
      rewrite Hs in Hn1. rewrite Z.pow_add_r in Hn1 by lia.
      assert (0 < 2 ^ (e0 - 1)) by (apply Z.pow_pos_nonneg; lia).
      nia.
  - apply Z.leb_gt in E0. destruct (d <=? n * 2 ^ (- e0)); lia.
Qed.

Lemma rne_ceiling (n d m N : Z) :
  0 < d -> 0 <= m -> d < 2 ^ (m + 1) -> (N - 1) * d < n <= N * d ->
  (N - 1) * 2 ^ m < rne (n * 2 ^ m) d <= N * 2 ^ m.
Proof.
  intros Hd Hm Hlt [Hlo Hhi]. unfold rne.
  rewrite Z.pow_add_r in Hlt by lia. change (2 ^ 1) with 2 in Hlt.
  assert (HM : 0 < 2 ^ m) by (apply Z.pow_pos_nonneg; lia).
  set (M := 2 ^ m) in *.
  pose proof (Z.div_mod (n * M) d ltac:(lia)) as Hx.
  pose proof (Z.mod_pos_bound (n * M) d Hd) as Hr.
  set (q := n * M / d) in *. set (r := (n * M) mod d) in *.
  assert (H1 : (N - 1) * d * M < n * M) by nia.
  assert (H2 : n * M <= N * d * M) by nia.
  assert (Hq1 : (N - 1) * M <= q) by nia.
  assert (Hq2 : q <= N * M) by nia.
  assert (Hlow : q = (N - 1) * M -> d < 2 * r).
  { intros ->. assert (M <= r) by nia. lia. }
  assert (Hup : q = N * M -> r = 0) by (intros ->; nia).
  destruct (2 * r <? d) eqn:E1; [apply Z.ltb_lt in E1 | apply Z.ltb_ge in E1].
  - split; [| lia]. destruct (Z.eq_dec q ((N - 1) * M)) as [E | E]; [| lia].
    specialize (Hlow E). lia.
  - destruct (d <? 2 * r) eqn:E2; [apply Z.ltb_lt in E2 | apply Z.ltb_ge in E2].
    + split; [lia |]. destruct (Z.eq_dec q (N * M)) as [E | E]; [| lia].
      specialize (Hup E). lia.
    + destruct (Z.even q).
      * split; [| lia]. destruct (Z.eq_dec q ((N - 1) * M)) as [E | E]; [| lia].
        specialize (Hlow E). lia.
      * split; [lia |]. destruct (Z.eq_dec q (N * M)) as [E | E]; [| lia].
        specialize (Hup E). lia.
Qed.

Lemma ceil_scaled (k M N : Z) :
  0 < M -> (N - 1) * M < k <= N * M -> - ((- k) / M) = N.
Proof.
  intros HM [H1 H2].
  rewrite <- (Z.div_unique (- k) M (- N) (N * M - k)); lia.
Qed.

Lemma Math_ceil_Qceiling (q : Q) :
  Math_ceil (Finite q)
  = if Qceiling q =? 0 then Zero true else Finite (inject_Z (Qceiling q)).
Proof. destruct q as [a b]. reflexivity. Qed.

Lemma Qceiling_scaled (k M N : Z) :
  0 < M -> (N - 1) * M < k <= N * M -> Qceiling (Qred (k # Z.to_pos M)) = N.
Proof.
  intros HM HN. rewrite (Qceiling_comp _ _ (Qred_correct _)).
  unfold Qceiling, Qfloor, Qopp. simpl. rewrite Z2Pos.id by lia.
  now apply ceil_scaled.
Qed.

(** The reduced fraction of [t / L]. *)
Lemma Qred_quotient (t L : Z) :
  0 < t -> 0 < L ->
  let q := Qred (inject_Z t / inject_Z L) in
  0 < Qnum q /\ Qnum q * L = t * Zpos (Qden q) /\ Zpos (Qden q) <= L.
Proof.
  intros Ht HL q.
  assert (Heq : q == t # Z.to_pos L).
  { unfold q. rewrite Qred_correct.
    unfold Qdiv, Qinv, inject_Z. simpl.
    destruct L as [|p|p]; try lia. simpl.
    unfold Qeq, Qmult. simpl. lia. }
  unfold Qeq in Heq. simpl in Heq. rewrite Z2Pos.id in Heq by lia.
  assert (Hn : 0 < Qnum q) by nia.
  repeat split; [exact Hn | exact Heq |].
  assert (Hg : Z.gcd (Qnum q) (Zpos (Qden q)) = 1).
  { apply Qred_identity2. unfold q. apply Qred_involutive. }
  assert (Hdiv : (Zpos (Qden q) | L)).
  { apply Z.gauss with (m := Qnum q).
    - exists t. lia.
    - now rewrite Z.gcd_comm. }
  apply Z.divide_pos_le in Hdiv; lia.
Qed.

Lemma div_ceiling (t L : Z) :
  0 < t < 2 ^ 53 -> 1 <= L <= 100 ->
  Math_ceil (div (Finite (inject_Z t)) (Finite (inject_Z L)))
  = Finite (inject_Z ((t + L - 1) / L)).
Proof.
  intros [Ht Ht53] [HL HL100].
  set (N := (t + L - 1) / L).
  assert (HN : (N - 1) * L < t <= N * L).
  { pose proof (Z.div_mod (t + L - 1) L ltac:(lia)) as Hx.
    pose proof (Z.mod_pos_bound (t + L - 1) L ltac:(lia)) as Hr.
    fold N in Hx. nia. }
  assert (HN1 : 1 <= N) by nia.
  unfold div.
  destruct (Qred_quotient t L ltac:(lia) ltac:(lia)) as (Hn & Hnd & HdL).
  set (q := Qred (inject_Z t / inject_Z L)) in *.
  unfold round_Q.
  destruct (Qnum q) as [|n|n] eqn:En; try lia.
  set (d := Zpos (Qden q)) in *.
  assert (Hd : 0 < d) by (unfold d; lia).
  assert (Hnt : Zpos n <= t) by nia.
  assert (HNd : (N - 1) * d < Zpos n <= N * d) by nia.
  unfold round_pos.
  pose proof (binade_le (Zpos n) d) as Hb1.
  pose proof (binade_ge (Zpos n) d) as Hb2.
  pose proof (binade_lower (Zpos n) d ltac:(lia) Hd) as Hb3.
  assert (Hl1 : Z.log2 (Zpos n) < 53) by (apply Z.log2_lt_pow2; lia).
  assert (Hl2 : Z.log2 d < 7) by (apply Z.log2_lt_pow2; lia).
  pose proof (Z.log2_nonneg (Zpos n)). pose proof (Z.log2_nonneg d).
  set (e := binade (Zpos n) d) in *.
  replace (Z.max (e - 52) (-1074)) with (e - 52) by lia.
  assert (H971 : forall k, (971 <? e - 52) || (e - 52 =? 971) && (2 ^ 53 <=? k) = false).
  { intros k. replace (971 <? e - 52) with false by (symmetry; apply Z.ltb_ge; lia).
    replace (e - 52 =? 971) with false by (symmetry; apply Z.eqb_neq; lia).
    reflexivity. }
  rewrite H971.
  destruct (0 <=? e - 52) eqn:Eu; [apply Z.leb_le in Eu | apply Z.leb_gt in Eu].
  - assert (He : e = 52) by lia. rewrite He in *. clear Eu.
    specialize (Hb3 ltac:(lia)).
    change (52 - 52) with 0. change (2 ^ 0) with 1. rewrite !Z.mul_1_r.
    assert (d = 1) by lia.
    replace d with 1 by lia. rewrite rne_one.
    replace (Zpos n =? 0) with false by (symmetry; apply Z.eqb_neq; lia).
    rewrite Math_ceil_Qceiling. rewrite Qceiling_Z.
    replace (Zpos n) with N by nia.
    now replace (N =? 0) with false by (symmetry; apply Z.eqb_neq; lia).
  - set (m := - (e - 52)).
    assert (Hm : 0 <= m) by (unfold m; lia).
    assert (Hdm : d < 2 ^ (m + 1)).
    { destruct (Z.le_gt_cases 0 e) as [He | He].
      - specialize (Hb3 He).
        assert (H53 : 2 ^ 53 = 2 ^ e * 2 ^ (m + 1)).
        { rewrite <- Z.pow_add_r by lia. f_equal. unfold m. lia. }
        assert (0 < 2 ^ e) by (apply Z.pow_pos_nonneg; lia).
        nia.
      - assert (2 ^ 7 <= 2 ^ (m + 1)) by (apply Z.pow_le_mono_r; unfold m; lia).
        assert (d < 2 ^ 7) by lia. lia. }
    pose proof (rne_ceiling (Zpos n) d m N Hd Hm Hdm HNd) as Hk.
    set (k := rne (Zpos n * 2 ^ m) d) in *.
    assert (HM : 0 < 2 ^ m) by (apply Z.pow_pos_nonneg; lia).
    replace (k =? 0) with false by (symmetry; apply Z.eqb_neq; nia).
    rewrite Math_ceil_Qceiling.
    rewrite (Qceiling_scaled k (2 ^ m) N HM Hk).
    now replace (N =? 0) with false by (symmetry; apply Z.eqb_neq; lia).
Qed.

Lemma exact_pos z : 0 < z -> exact z = Finite (inject_Z z).
Proof. intros H. unfold exact. now rewrite (proj2 (Z.eqb_neq _ _)) by lia. Qed.



Lemma page_count_Z (n L : nat) :
  (1 <= L)%nat ->
  Z.of_nat (page_count n L) = (Z.of_nat n + Z.of_nat L - 1) / Z.of_nat L.
Proof.
  intros HL. unfold page_count. rewrite Nat2Z.inj_div. f_equal. lia.
Qed.


Lemma total_exact (n : nat) :
  Z.of_nat n < 2 ^ 53 -> parseInt_string (decimal n) = exact (Z.of_nat n).
Proof.
  intros H. rewrite parseInt_decimal, signed_of_Z by lia.
  apply of_Z_exact. lia.
Qed.


Lemma paging_limit (q : gmap string qvalue) pg lim off :
  paging q = Some (pg, lim, off) ->
  exists L : nat, (1 <= L <= 100)%nat /\ lim = Finite (inject_Z (Z.of_nat L)).
Proof.
  unfold paging.
  destruct (parseInt (q !! "page")) as [p0|]; [| discriminate]. simpl.
  destruct (parseInt (q !! "limit")) as [l0|] eqn:El; [| discriminate]. simpl.
  intros [= _ <- _].
  assert (Hl : l0 = NaN \/ whole l0).
  { unfold parseInt in El. destruct (q !! "limit") as [v|].
    - destruct (ToString v) as [s|]; [| discriminate]. simpl in El.
      injection El as <-. apply parseInt_string_whole.
    - injection El as <-. now left. }
  destruct (limit_clamped l0 Hl) as (n & Hn & ->).
  exists (Z.to_nat n). split; [lia |]. now rewrite Z2Nat.id by lia.
Qed.

Lemma totalPages_exact (count L : nat) :
  (1 <= L <= 100)%nat -> Z.of_nat count < 2 ^ 53 ->
  Math_ceil (div (exact (Z.of_nat count)) (Finite (inject_Z (Z.of_nat L))))
  = exact (Z.of_nat (page_count count L)).
Proof.
  intros HL Hc. rewrite page_count_Z by lia.
  destruct count as [|c].
  - change (Z.of_nat 0) with 0. rewrite Z.add_0_l.
    replace ((Z.of_nat L - 1) / Z.of_nat L) with 0
      by (symmetry; apply Z.div_small; lia).
    unfold exact. simpl. unfold is_neg, inject_Z. simpl.
    now rewrite (proj2 (Z.ltb_ge _ _)) by lia.
  - rewrite exact_pos by lia. rewrite div_ceiling by lia.
    symmetry. apply exact_pos.
    apply Z.div_str_pos. lia.
Qed.


Lemma not_older_total : Total not_older.
Proof. intros a b. unfold not_older. lia. Qed.

Lemma not_older_transitive : Transitive not_older.
Proof. intros a b c. unfold not_older. lia. Qed.

Lemma newest_first_sorted (l : list lead) : StronglySorted not_older (newest_first l).
Proof.
  apply (@StronglySorted_merge_sort _ not_older _ not_older_transitive not_older_total).
Qed.

Lemma StronglySorted_slice {A} (R : relation A) (n m : nat) (l : list A) :
  StronglySorted R l -> StronglySorted R (take n (drop m l)).
Proof.
  intros H. rewrite <- (take_drop m l) in H.
  apply StronglySorted_app_1_r in H.
  rewrite <- (take_drop n (drop m l)) in H.
  now apply StronglySorted_app_1_l in H.
Qed.

Lemma filter_at_most_one {A B} (f : A -> B) (p : A -> bool) (l : list A) :
  NoDup (map f l) ->
  (forall x y, p x = true -> p y = true -> f x = f y) ->
  (length (List.filter p l) <= 1)%nat.
Proof.
  intros Hnd Hp. induction l as [|x l IH]; simpl; [lia |].
  simpl in Hnd. apply NoDup_cons in Hnd as [Hx Hnd].
  destruct (p x) eqn:Ex; [| now apply IH].
  rewrite filter_none; [simpl; lia |].
  intros y Hy. destruct (p y) eqn:Ey; [| reflexivity].
  exfalso. apply Hx. rewrite (Hp x y Ex Ey).
  apply list_elem_of_In. now apply in_map.
Qed.

Lemma filter_length_negb {A} (p : A -> bool) (l : list A) :
  (length (List.filter p l) + length (List.filter (fun x => negb (p x)) l)
   = length l)%nat.
Proof.
  induction l as [|x l IH]; simpl; [reflexivity |].
  destruct (p x); simpl; lia.
Qed.

End ServiceFacts.

(** ** Further properties of the routes *)

Module Properties.

Import JS Sql Leads ScanFacts BuilderFacts NumberFacts HandlerFacts.
Import Tables TableFacts ServiceFacts.

#[local] Arguments matches_int : simpl never.

(** X1: [buildWhereClause] reads the user id and the thirty-five
    parameters of [filter_keys] and nothing else: two query strings that
    agree on those give the same result (the same clause and values, or
    the same exception).  In particular [page], [limit] and any parameter
    the function does not know have no effect on the filter. *)
Theorem unread_parameters_ignored (uid : value) (q1 q2 : gmap string qvalue) :
  (forall k, In k filter_keys -> q1 !! k = q2 !! k) ->
  buildWhereClause {| userId := uid; params := q1 |}
  = buildWhereClause {| userId := uid; params := q2 |}.
Proof.
  intros H. rewrite !buildWhereClause_table.
  now rewrite (table_steps_agree q1 q2 H).
Qed.

Lemma unread_parameters_ignored_witness :
  buildWhereClause {| userId := num (Finite 7); params := paged_query |}
  = buildWhereClause {| userId := num (Finite 7); params := status_query |}.
Proof.
  apply unread_parameters_ignored.
  intros k Hk. unfold filter_keys in Hk. simpl in Hk.
  repeat (destruct Hk as [<- | Hk]; [vm_compute; reflexivity |]).
  destruct Hk.
Defined.

(** X2: for a filter guarded by [if (q[key])] (every filter but the
    numeric comparisons and [is_qualified]) a parameter given as the empty
    string is the same as a parameter not given. *)
Theorem empty_value_is_absent (uid : value) (k : string) (kind : filter_kind)
    (q : gmap string qvalue) :
  In (k, kind) filter_table -> truthy_guarded kind = true ->
  buildWhereClause {| userId := uid; params := <[k := Atom ""]> q |}
  = buildWhereClause {| userId := uid; params := delete k q |}.
Proof.
  intros Hin Hg. apply (buildWhereClause_skip uid k kind); [exact Hin |].
  intros st. destruct kind; try discriminate; reflexivity.
Qed.

Lemma empty_value_is_absent_witness :
  buildWhereClause {| userId := num (Finite 7);
                      params := <["email_contains" := Atom ""]> status_query |}
  = buildWhereClause {| userId := num (Finite 7);
                        params := delete "email_contains" status_query |}.
Proof.
  apply (empty_value_is_absent _ "email_contains" (Contains "email")).
  - simpl. tauto.
  - reflexivity.
Defined.

(** X3: a [_between] parameter whose value has no comma adds no
    condition: [score_between=10], like [created_at_between=2024-01-01],
    is silently dropped. *)
Theorem between_without_comma_is_absent (uid : value) (k : string)
    (kind : filter_kind) (v : qvalue) (s : string) (q : gmap string qvalue) :
  In (k, kind) filter_table -> is_between kind = true ->
  ToString v = Some s -> ~ In ","%char (list_ascii_of_string s) ->
  buildWhereClause {| userId := uid; params := <[k := v]> q |}
  = buildWhereClause {| userId := uid; params := delete k q |}.
Proof.
  intros Hin Hb Hs Hc. apply (buildWhereClause_skip uid k kind); [exact Hin |].
  intros st. apply split_comma_no_comma in Hc.
  destruct kind; try discriminate; simpl; unfold if_truthy;
    destruct (truthy_q v); try reflexivity; rewrite Hs; simpl; now rewrite Hc.
Qed.

Lemma between_without_comma_is_absent_witness :
  buildWhereClause {| userId := num (Finite 7);
                      params := <["score_between" := Atom "10"]> status_query |}
  = buildWhereClause {| userId := num (Finite 7);
                        params := delete "score_between" status_query |}.
Proof.
  apply (between_without_comma_is_absent _ "score_between" (NumericBetween "score")
           (Atom "10") "10").
  - simpl. tauto.
  - reflexivity.
  - reflexivity.
  - simpl. intros [H | [H | []]]; discriminate.
Defined.

(** X4: a date range needs both ends: when the first or the second part
    of a [created_at_between] or [last_activity_at_between] value is
    empty, the parameter adds no condition. *)
Theorem date_range_needs_both_ends (uid : value) (k f : string) (v : qvalue)
    (s from to : string) (rest : list string) (q : gmap string qvalue) :
  In (k, DateBetween f) filter_table ->
  ToString v = Some s -> split_comma s = from :: to :: rest ->
  from = "" \/ to = "" ->
  buildWhereClause {| userId := uid; params := <[k := v]> q |}
  = buildWhereClause {| userId := uid; params := delete k q |}.
Proof.
  intros Hin Hs Hp He.
  apply (buildWhereClause_skip uid k (DateBetween f)); [exact Hin |].
  intros st. simpl. unfold if_truthy.
  destruct (truthy_q v); try reflexivity. rewrite Hs. simpl. rewrite Hp.
  destruct He as [-> | ->]; simpl; [reflexivity |].
  now rewrite andb_false_r.
Qed.

Lemma date_range_needs_both_ends_witness :
  buildWhereClause {| userId := num (Finite 7);
                      params := <["created_at_between" := Atom "2024-01-01,"]> status_query |}
  = buildWhereClause {| userId := num (Finite 7);
                        params := delete "created_at_between" status_query |}.
Proof.
  apply (date_range_needs_both_ends _ "created_at_between" "created_at"
           (Atom "2024-01-01,") "2024-01-01," "2024-01-01" "" []).
  - simpl. tauto.
  - reflexivity.
  - reflexivity.
  - now right.
Defined.

(** X5: a [status_in] or [source_in] list all of whose items are blank
    (empty after trimming) adds no condition, rather than an empty
    [IN ()]. *)
Theorem blank_list_is_absent (uid : value) (k f : string) (v : qvalue)
    (s : string) (q : gmap string qvalue) :
  In (k, InSet f) filter_table ->
  ToString v = Some s -> items s = [] ->
  buildWhereClause {| userId := uid; params := <[k := v]> q |}
  = buildWhereClause {| userId := uid; params := delete k q |}.
Proof.
  intros Hin Hs Hi.
  apply (buildWhereClause_skip uid k (InSet f)); [exact Hin |].
  intros st. simpl. unfold if_truthy.
  destruct (truthy_q v); try reflexivity. rewrite Hs. simpl.
  unfold items in Hi. now rewrite Hi.
Qed.

Lemma blank_list_is_absent_witness :
  buildWhereClause {| userId := num (Finite 7);
                      params := <["status_in" := Atom " , ,"]> status_query |}
  = buildWhereClause {| userId := num (Finite 7);
                        params := delete "status_in" status_query |}.
Proof.
  apply (blank_list_is_absent _ "status_in" "status" (Atom " , ,") " , ,").
  - simpl. tauto.
  - reflexivity.
  - vm_compute. reflexivity.
Defined.

(** X6: [buildWhereClause] throws exactly when a parameter it converts
    with [String] or [Number] (every filter but the plain comparisons
    [_equals], [status], [source], [_on], [_before], [_after],
    [created_after], [created_before]) holds a value whose conversion
    throws. *)
Theorem buildWhereClause_throws_iff (qo : query_object) :
  buildWhereClause qo = None
  <-> exists k kind v,
        In (k, kind) filter_table /\ converts kind = true
        /\ params qo !! k = Some v /\ ToString v = None.
Proof.
  destruct qo as [uid q]. rewrite buildWhereClause_table. cbn [params]. split.
  - intros H.
    destruct (run (table_steps q) (owner_scope uid)) as [st|] eqn:Hr;
      [simpl in H; discriminate |].
    apply run_None in Hr. unfold table_steps in Hr.
    apply Exists_exists in Hr as (f & Hf & st' & Hst').
    apply list_elem_of_In, in_map_iff in Hf as ([k kind] & <- & Hin).
    simpl in Hst'. exists k, kind.
    destruct (q !! k) as [v|] eqn:Hq.
    + exists v. apply filter_step_throws in Hst' as [Hc Hv]. auto.
    + rewrite filter_step_None in Hst'. discriminate.
  - intros (k & kind & v & Hin & Hc & Hq & Hv).
    rewrite run_throws; [reflexivity |].
    apply (Exists_table_step _ q k kind Hin).
    intros st'. rewrite Hq. apply filter_step_throws. auto.
Qed.

(** X7: a plain comparison binds the parameter as it is, without
    converting it: [<field>_equals], [status], [source], [<date>_on],
    [<date>_before], [<date>_after], [created_after] and [created_before]
    with a truthy value [v] add their comparison on the column with [v]
    itself as the value (an array stays an array). *)
Theorem plain_filter_binds_value (qo : query_object) (wc : where_clause)
    (k lhs op : string) (v : qvalue) :
  In (k, Plain lhs op) filter_table ->
  params qo !! k = Some v -> truthy_q v = true ->
  buildWhereClause qo = Some wc ->
  binds (where_conditions wc) (bound wc) (Compare lhs op) (embed v).
Proof.
  intros Hin Hq Ht Hw.
  apply (table_establishes
           (fun st => binds (conditions st) (values st) (Compare lhs op) (embed v))
           qo wc k (Plain lhs op)); auto using stable_binds.
  simpl. eapply establishes_if_truthy; [exact Hq | exact Ht |].
  intros st st' Hst [= <-]. now apply (binds_push (Compare lhs op)).
Qed.

Lemma plain_filter_binds_value_witness :
  exists wc,
    buildWhereClause filters_query = Some wc
    /\ binds (where_conditions wc) (bound wc) (Compare "created_at::date" ">=")
         (str "2024-01-01").
Proof.
  eexists. split; [vm_compute; reflexivity |].
  apply (plain_filter_binds_value filters_query _ "created_after"
           "created_at::date" ">=" (Atom "2024-01-01")).
  - simpl. tauto.
  - reflexivity.
  - reflexivity.
  - vm_compute. reflexivity.
Defined.

(** X8: [<field>_contains] with a truthy value adds [<field> ILIKE $k]
    and binds the value wrapped in two percent signs; the value's own [%]
    and [_] are not escaped, they reach the pattern as they are. *)
Theorem contains_binds_pattern (qo : query_object) (wc : where_clause)
    (k f : string) (v : qvalue) (s : string) :
  In (k, Contains f) filter_table ->
  params qo !! k = Some v -> truthy_q v = true -> ToString v = Some s ->
  buildWhereClause qo = Some wc ->
  binds (where_conditions wc) (bound wc) (Compare f "ILIKE")
    (str ("%" +:+ s +:+ "%")).
Proof.
  intros Hin Hq Ht Hs Hw.
  apply (table_establishes
           (fun st => binds (conditions st) (values st) (Compare f "ILIKE")
                        (str ("%" +:+ s +:+ "%")))
           qo wc k (Contains f)); auto using stable_binds.
  simpl. eapply establishes_if_truthy; [exact Hq | exact Ht |].
  intros st st' Hst. rewrite Hs. simpl. intros [= <-].
  now apply (binds_push (Compare f "ILIKE")).
Qed.

Lemma contains_binds_pattern_witness :
  exists wc,
    buildWhereClause filters_query = Some wc
    /\ binds (where_conditions wc) (bound wc) (Compare "email" "ILIKE")
         (str "%x.io%").
Proof.
  eexists. split; [vm_compute; reflexivity |].
  apply (contains_binds_pattern filters_query _ "email_contains" "email"
           (Atom "x.io") "x.io").
  - simpl. tauto.
  - reflexivity.
  - reflexivity.
  - reflexivity.
  - vm_compute. reflexivity.
Defined.

(** X9: [status_in] and [source_in] with at least one item that is not
    blank add one [IN] condition with as many consecutive placeholders as
    there are such items, bound to the trimmed items in order. *)
Theorem in_list_binds_items (qo : query_object) (wc : where_clause)
    (k f : string) (v : qvalue) (s : string) :
  In (k, InSet f) filter_table ->
  params qo !! k = Some v -> ToString v = Some s -> items s <> [] ->
  buildWhereClause qo = Some wc ->
  binds_list (where_conditions wc) (bound wc) f (items s).
Proof.
  intros Hin Hq Hs Hi Hw.
  assert (Ht : truthy_q v = true).
  { destruct v as [a| |]; try reflexivity. simpl in Hs. injection Hs as ->.
    destruct s; [| reflexivity]. exfalso. apply Hi. vm_compute. reflexivity. }
  apply (table_establishes
           (fun st => binds_list (conditions st) (values st) f (items s))
           qo wc k (InSet f)); auto using stable_binds_list.
  simpl. eapply establishes_if_truthy; [exact Hq | exact Ht |].
  intros st st' Hst. rewrite Hs. simpl. fold (items s).
  destruct (items s) as [|x l] eqn:E; [congruence |].
  intros [= <-]. now apply binds_list_push.
Qed.

Lemma in_list_binds_items_witness :
  exists wc,
    buildWhereClause filters_query = Some wc
    /\ binds_list (where_conditions wc) (bound wc) "status" ["new"; "won"].
Proof.
  eexists. split; [vm_compute; reflexivity |].
  change ["new"; "won"] with (items "new, won,,").
  apply (in_list_binds_items filters_query _ "status_in" "status"
           (Atom "new, won,,") "new, won,,").
  - simpl. tauto.
  - reflexivity.
  - reflexivity.
  - vm_compute. discriminate.
  - vm_compute. reflexivity.
Defined.

(** X10: a date range with two non-empty ends adds [<field> BETWEEN $k
    AND $k+1] and binds the two ends as strings, untrimmed and
    unconverted. *)
Theorem date_range_binds_ends (qo : query_object) (wc : where_clause)
    (k f : string) (v : qvalue) (s from to : string) (rest : list string) :
  In (k, DateBetween f) filter_table ->
  params qo !! k = Some v -> ToString v = Some s ->
  split_comma s = from :: to :: rest -> from <> "" -> to <> "" ->
  buildWhereClause qo = Some wc ->
  binds_between (where_conditions wc) (bound wc) f (str from) (str to).
Proof.
  intros Hin Hq Hs Hp Hf Ht Hw.
  assert (Hv : truthy_q v = true).
  { destruct v as [a| |]; try reflexivity. simpl in Hs. injection Hs as ->.
    destruct s; [| reflexivity]. simpl in Hp. discriminate. }
  apply (table_establishes
           (fun st => binds_between (conditions st) (values st) f (str from) (str to))
           qo wc k (DateBetween f)); auto using stable_binds_between.
  simpl. eapply establishes_if_truthy; [exact Hq | exact Hv |].
  intros st st' Hst. rewrite Hs. simpl. rewrite Hp.
  destruct from; [congruence |]. destruct to; [congruence |]. simpl.
  intros [= <-]. now apply binds_between_push.
Qed.

Lemma date_range_binds_ends_witness :
  exists wc,
    buildWhereClause filters_query = Some wc
    /\ binds_between (where_conditions wc) (bound wc) "created_at"
         (str "2024-01-01") (str "2024-02-01").
Proof.
  eexists. split; [vm_compute; reflexivity |].
  apply (date_range_binds_ends filters_query _ "created_at_between" "created_at"
           (Atom "2024-01-01,2024-02-01") "2024-01-01,2024-02-01"
           "2024-01-01" "2024-02-01" []).
  - simpl. tauto.
  - reflexivity.
  - reflexivity.
  - reflexivity.
  - discriminate.
  - discriminate.
  - vm_compute. reflexivity.
Defined.

(** X11: a filter that converts its value binds the converted value,
    whatever the value is (a string, or an array or object the
    query-string parser built): a numeric comparison binds [Number] of
    it, also for the empty string; [is_qualified] binds whether its
    string, in lower case, is ['true']; a numeric range with a comma
    binds [Number] of its first two parts and ignores any further
    part. *)
Theorem converting_filter_binds (qo : query_object) (wc : where_clause)
    (k : string) (kind : filter_kind) (v : qvalue) (s : string) :
  In (k, kind) filter_table ->
  params qo !! k = Some v -> ToString v = Some s ->
  buildWhereClause qo = Some wc ->
  match kind with
  | Numeric lhs op =>
      binds (where_conditions wc) (bound wc) (Compare lhs op)
        (num (Number_string s))
  | Flag lhs =>
      binds (where_conditions wc) (bound wc) (Compare lhs "=")
        (Atom (Bool (lower_is_true s)))
  | NumericBetween f =>
      forall min max rest,
        truthy_q v = true -> split_comma s = min :: max :: rest ->
        binds_between (where_conditions wc) (bound wc) f
          (num (Number_string min)) (num (Number_string max))
  | _ => True
  end.
Proof.
  intros Hin Hq Hs Hw. destruct kind as [| | |lhs op|f| |lhs]; try exact I.
  - apply (table_establishes
             (fun st => binds (conditions st) (values st) (Compare lhs op)
                          (num (Number_string s)))
             qo wc k (Numeric lhs op)); auto using stable_binds.
    simpl. eapply establishes_if_defined; [exact Hq |].
    intros st st' Hst. unfold Number. rewrite Hs. simpl. intros [= <-].
    now apply (binds_push (Compare lhs op)).
  - intros min max rest Ht Hp.
    apply (table_establishes
             (fun st => binds_between (conditions st) (values st) f
                          (num (Number_string min)) (num (Number_string max)))
             qo wc k (NumericBetween f)); auto using stable_binds_between.
    simpl. eapply establishes_if_truthy; [exact Hq | exact Ht |].
    intros st st' Hst. rewrite Hs. simpl. rewrite Hp. intros [= <-].
    now apply binds_between_push.
  - apply (table_establishes
             (fun st => binds (conditions st) (values st) (Compare lhs "=")
                          (Atom (Bool (lower_is_true s))))
             qo wc k (Flag lhs)); auto using stable_binds.
    simpl. eapply establishes_if_defined; [exact Hq |].
    intros st st' Hst. rewrite Hs. simpl. intros [= <-].
    now apply (binds_push (Compare lhs "=")).
Qed.

Lemma converting_filter_binds_witness :
  exists wc,
    buildWhereClause numbers_query = Some wc
    /\ binds (where_conditions wc) (bound wc) (Compare "score" ">")
         (num (Number_string "50")).
Proof.
  eexists. split; [vm_compute; reflexivity |].
  apply (converting_filter_binds numbers_query _ "score_gt" (Numeric "score" ">")
           (Arr [Atom "50"]) "50").
  - simpl. tauto.
  - reflexivity.
  - reflexivity.
  - vm_compute. reflexivity.
Defined.

(** X12: the conditions of the clause are the owner scope followed by at
    most one condition per parameter of the table, in the order of the
    table, each on the column of its parameter and only for a parameter
    that is given.  No query parameter adds a condition on [user_id]: the
    owner scope is the only one, and there are at most thirty-six
    conditions. *)
Theorem conditions_follow_table (qo : query_object) (wc : where_clause) :
  buildWhereClause qo = Some wc ->
  exists cs es,
    where_conditions wc = Compare "user_id" "=" 1 :: cs
    /\ sublist es filter_table
    /\ Forall2 (fun c e => column c = kind_column (snd e)
                           /\ is_Some (params qo !! fst e)) cs es
    /\ Forall (fun c => column c <> "user_id") cs
    /\ (length cs <= 35)%nat.
Proof.
  intros Hw.
  destruct (buildWhereClause_build _ _ Hw) as (st & Hst & -> & _ & _).
  rewrite build_table in Hst. unfold table_steps in Hst.
  destruct (run_table_conditions _ _ _ _ Hst) as (cs & es & Hc & Hs & Hf).
  exists cs, es. repeat split; try assumption.
  - pose proof filter_columns_not_owner as Hn.
    assert (Hes : Forall (fun e : string * filter_kind =>
                            kind_column (snd e) <> "user_id") es).
    { rewrite Forall_forall in Hn |- *. intros e He. apply Hn.
      eapply elem_of_sublist; eauto. }
    clear -Hf Hes. induction Hf as [|c e cs es [Hce _] _ IH]; constructor.
    + apply Forall_cons in Hes as [He _]. now rewrite Hce.
    + apply Forall_cons in Hes as [_ Hes]. now apply IH.
  - apply Forall2_length in Hf. rewrite Hf.
    apply sublist_length in Hs. exact Hs.
Qed.

Lemma conditions_follow_table_witness :
  exists wc cs es,
    buildWhereClause filters_query = Some wc
    /\ where_conditions wc = Compare "user_id" "=" 1 :: cs
    /\ sublist es filter_table
    /\ Forall2 (fun c e => column c = kind_column (snd e)
                           /\ is_Some (params filters_query !! fst e)) cs es
    /\ Forall (fun c => column c <> "user_id") cs
    /\ (length cs <= 35)%nat.
Proof.
  eexists.
  destruct (conditions_follow_table filters_query _ ltac:(vm_compute; reflexivity))
    as (cs & es & H).
  exists cs, es. split; [vm_compute; reflexivity | exact H].
Defined.

(** X13: each route answers with one of its own status codes only: GET
    /leads with 200 or 500 (a filter value it cannot use is never a 400),
    GET /leads/:id and DELETE with 200, 404 or 500, POST with 201, 400 or
    500, PUT with 200, 400, 404 or 500.  The body of a 500 is always
    [{ error: 'Server error' }]. *)
Theorem status_codes_by_route (E : engine) (r : route) (uid : value)
    (req : request) (db : database) :
  In (code (sent (handler E r uid req db))) (status_codes r)
  /\ (code (sent (handler E r uid req db)) = 500%nat ->
      sent (handler E r uid req db) = server_error).
Proof.
  destruct r; simpl;
    [ unfold get_leads | unfold get_lead | unfold post_lead
    | unfold put_lead | unfold delete_lead ];
    repeat case_match; simpl; split; try tauto; try discriminate; auto.
Qed.



(** X15: the validation of POST and PUT is what the schema of db.js
    needs: when a body passes it, no value bound to a NOT NULL column of
    the INSERT is NULL or undefined, whatever the other fields are; and
    the value bound to [status] when the body gives none is one the CHECK
    on [status] allows. *)
Theorem validation_meets_schema (uid : value) (b : gmap string value) :
  missing_required b = false ->
  (forall c v,
     In (c, v) (combine insert_columns (uid :: data_values b)) ->
     In (c, true) leads_columns -> is_null v = false)
  /\ (truthy (field b "status") = false ->
      exists s, In ("status", str s) (combine insert_columns (uid :: data_values b))
                /\ In s status_values).
Proof.
  intros Hm. unfold missing_required in Hm.
  apply orb_false_elim in Hm as [Hm H3]. apply orb_false_elim in Hm as [H1 H2].
  apply negb_false_iff in H1, H2, H3.
  assert (Ht : forall v, truthy v = true -> is_null v = false).
  { intros [[| | | |]| |]; simpl; congruence. }
  split.
  - intros c v Hin Hc. unfold insert_columns, data_values in Hin. simpl in Hin.
    unfold leads_columns in Hc. simpl in Hc.
    repeat (destruct Hin as [[= <- <-] | Hin];
            [ first [ now apply Ht
                    | exfalso; repeat (destruct Hc as [Hc | Hc]; [discriminate |]);
                      exact Hc ] |]).
    destruct Hin.
  - intros Hs. exists "new". split.
    + unfold insert_columns, data_values, or_else. rewrite Hs. simpl. tauto.
    + simpl. tauto.
Qed.

Lemma validation_meets_schema_witness :
  missing_required (body create_request) = false
  /\ (forall c v,
        In (c, v) (combine insert_columns
                     (num (Finite 7) :: data_values (body create_request))) ->
        In (c, true) leads_columns -> is_null v = false)
  /\ (truthy (field (body create_request) "status") = false ->
      exists s, In ("status", str s)
                  (combine insert_columns
                     (num (Finite 7) :: data_values (body create_request)))
                /\ In s status_values).
Proof.
  split; [vm_compute; reflexivity |].
  apply validation_meets_schema. vm_compute. reflexivity.
Defined.



(** X17: a lead that was created can be fetched: when the [id] sequence
    is ahead of the rows, the caller's user id is not NULL and the engine
    reads the id in the path as the id of the lead POST returned, GET
    /leads/:id by the same caller, on the table POST left, answers 200
    with that very lead. *)
Theorem created_lead_can_be_fetched (E : engine) (uid : value)
    (req req' : request) (db : database) (l : lead) (u : Z) :
  sent (post_lead E uid req db) = created_response l ->
  fresh_ids db ->
  pg_integer E uid = Some (Some u) ->
  pg_integer E (str (id_param req')) = Some (Some (id l)) ->
  sent (get_lead E uid req' (final (post_lead E uid req db)))
  = {| code := 200; content := LeadBody l |}.
Proof.
  intros Hs [Hfresh _] Hu Hid.
  assert (Hc : code (sent (post_lead E uid req db)) = 201%nat) by now rewrite Hs.
  destruct (post_lead_created E uid req db Hc) as (owner & Ho & _ & _ & Hs' & Hf).
  rewrite Hu in Ho. injection Ho as <-.
  rewrite Hs in Hs'. injection Hs' as ->. simpl in Hid. rewrite Hf.
  unfold get_lead, exec_select. simpl param.
  rewrite (by_id_and_owner_Some E _ _ _ _ Hid Hu). simpl.
  rewrite List.filter_app.
  rewrite filter_none.
  - simpl. now rewrite !matches_int_refl.
  - intros r Hr. rewrite Forall_forall in Hfresh.
    apply list_elem_of_In, Hfresh in Hr.
    rewrite matches_int_Some.
    apply andb_false_intro1. apply Z.eqb_neq. lia.
Qed.

Lemma created_lead_can_be_fetched_witness :
  sent (get_lead sample_engine (num (Finite 7)) (lead_request "4")
          (final (post_lead sample_engine (num (Finite 7)) create_request sample_db)))
  = {| code := 200; content := LeadBody created_lead |}.
Proof.
  apply (created_lead_can_be_fetched sample_engine _ create_request
           (lead_request "4") sample_db created_lead 7).
  - vm_compute. reflexivity.
  - split.
    + repeat constructor.
    + apply (bool_decide_unpack _). vm_compute. reflexivity.
  - reflexivity.
  - vm_compute. reflexivity.
Defined.



(** X19: a lead that was deleted is gone: after a DELETE answered with
    200, on the table it left, GET, PUT and DELETE of the same id by the
    same caller are all answered with 404, and that second DELETE removes
    nothing.  The DELETE removed only rows with that id and owner. *)
Theorem deleted_lead_is_gone (E : engine) (uid : value) (req : request)
    (db : database) (b : gmap string value) :
  code (sent (delete_lead E uid req db)) = 200%nat ->
  let db' := final (delete_lead E uid req db) in
  sent (get_lead E uid req db') = not_found
  /\ sent (put_lead E uid (with_body req b) db') = not_found
  /\ sent (delete_lead E uid req db') = not_found
  /\ final (delete_lead E uid req db') = db'
  /\ forall r, In r (rows db) ->
       In r (rows db')
       \/ (pg_integer E (str (id_param req)) = Some (Some (id r))
           /\ pg_integer E uid = Some (user_id r)).
Proof.
  unfold delete_lead at 1 2, exec_delete. simpl param.
  destruct (by_id_and_owner E _ _) as [p|] eqn:Hp; [| discriminate]. simpl.
  intros H.
  assert (Hfin : final
            match map id (List.filter p (rows db)) with
            | [] => {| sent := not_found;
                       final := {| rows := List.filter (fun r => negb (p r)) (rows db);
                                   next_id := next_id db; now := now db |};
                       issued := [(DeleteLead, [str (id_param req); uid])] |}
            | _ :: _ => {| sent := {| code := 200;
                                      content := MessageBody "Lead deleted successfully" |};
                           final := {| rows := List.filter (fun r => negb (p r)) (rows db);
                                       next_id := next_id db; now := now db |};
                           issued := [(DeleteLead, [str (id_param req); uid])] |}
            end
          = {| rows := List.filter (fun r => negb (p r)) (rows db);
               next_id := next_id db; now := now db |}).
  { now destruct (map id _). }
  rewrite Hfin. clear H Hfin.
  pose proof (filter_filter_negb p (rows db)) as Hnone.
  repeat split.
  - unfold get_lead, exec_select. simpl param. rewrite Hp. simpl.
    now rewrite Hnone.
  - unfold put_lead, exec_select, with_body. cbn [id_param snd]. simpl param.
    rewrite Hp. simpl. now rewrite Hnone.
  - unfold delete_lead, exec_delete. simpl param. rewrite Hp. simpl.
    now rewrite Hnone.
  - unfold delete_lead, exec_delete. simpl param. rewrite Hp. simpl.
    rewrite Hnone. simpl. now rewrite (filter_negb_all _ _ Hnone).
  - intros r Hr. destruct (p r) eqn:Hpr.
    + right. destruct (by_id_and_owner_true E _ _ _ _ Hp Hpr) as (H1 & H2 & _).
      auto.
    + left. simpl. apply filter_In. split; [exact Hr | now rewrite Hpr].
Qed.

Lemma deleted_lead_is_gone_witness :
  code (sent (delete_lead sample_engine (num (Finite 7)) (lead_request "1") sample_db))
  = 200%nat
  /\ sent (get_lead sample_engine (num (Finite 7)) (lead_request "1")
             (final (delete_lead sample_engine (num (Finite 7)) (lead_request "1")
                       sample_db)))
     = not_found.
Proof.
  assert (H : code (sent (delete_lead sample_engine (num (Finite 7))
                            (lead_request "1") sample_db)) = 200%nat)
    by (vm_compute; reflexivity).
  split; [exact H |].
  exact (proj1 (deleted_lead_is_gone sample_engine _ _ _ ∅ H)).
Defined.

(** X20: on a table whose ids are distinct, a DELETE answered with 200
    removes exactly one row, the caller's lead with the id of the path,
    and keeps every other row in place. *)
Theorem delete_removes_exactly_one (E : engine) (uid : value) (req : request)
    (db : database) :
  fresh_ids db ->
  code (sent (delete_lead E uid req db)) = 200%nat ->
  exists l,
    In l (rows db)
    /\ pg_integer E (str (id_param req)) = Some (Some (id l))
    /\ pg_integer E uid = Some (user_id l)
    /\ rows (final (delete_lead E uid req db))
       = List.filter (fun r => negb (id r =? id l)) (rows db)
    /\ (length (rows (final (delete_lead E uid req db))) + 1)%nat
       = length (rows db).
Proof.
  intros [_ Hnd]. unfold delete_lead, exec_delete. simpl param.
  destruct (by_id_and_owner E _ _) as [p|] eqn:Hp; [| discriminate]. simpl.
  destruct (List.filter p (rows db)) as [|l ls] eqn:Hf; [discriminate |].
  simpl. intros _.
  assert (Hl : In l (rows db) /\ p l = true).
  { apply filter_In. rewrite Hf. now left. }
  destruct Hl as [Hin Hpl].
  destruct (by_id_and_owner_true E _ _ _ _ Hp Hpl) as (H1 & H2 & H3).
  assert (Hsame : forall x y, p x = true -> p y = true -> id x = id y).
  { intros x y Hx Hy.
    destruct (by_id_and_owner_true E _ _ _ _ Hp Hx) as (Hx1 & _).
    destruct (by_id_and_owner_true E _ _ _ _ Hp Hy) as (Hy1 & _).
    congruence. }
  pose proof (filter_at_most_one id p (rows db) Hnd Hsame) as Hone.
  rewrite Hf in Hone. simpl in Hone.
  assert (Heq : forall r, In r (rows db) -> p r = (id r =? id l)).
  { intros r Hr. destruct (p r) eqn:Er.
    - symmetry. apply Z.eqb_eq. now apply Hsame.
    - symmetry. apply Z.eqb_neq. intros Hid.
      (* two rows with the same id are the same row *)
      assert (r = l).
      { clear -Hnd Hr Hin Hid. induction (rows db) as [|x xs IH]; [destruct Hr |].
        simpl in Hnd. apply NoDup_cons in Hnd as [Hx Hnd].
        destruct Hr as [-> | Hr], Hin as [<- | Hin]; auto.
        - exfalso. apply Hx. rewrite Hid. apply list_elem_of_In. now apply in_map.
        - exfalso. apply Hx. rewrite <- Hid. apply list_elem_of_In. now apply in_map. }
      congruence. }
  exists l. repeat split; try assumption.
  - apply filter_ext_in. intros r Hr. now rewrite (Heq r Hr).
  - pose proof (filter_length_negb p (rows db)) as Hlen.
    rewrite Hf in Hlen. simpl in Hlen. lia.
Qed.

Lemma delete_removes_exactly_one_witness :
  exists l,
    In l (rows sample_db)
    /\ pg_integer sample_engine (str (id_param (lead_request "1"))) = Some (Some (id l))
    /\ pg_integer sample_engine (num (Finite 7)) = Some (user_id l)
    /\ rows (final (delete_lead sample_engine (num (Finite 7)) (lead_request "1")
                      sample_db))
       = List.filter (fun r => negb (id r =? id l)) (rows sample_db)
    /\ (length (rows (final (delete_lead sample_engine (num (Finite 7))
                               (lead_request "1") sample_db))) + 1)%nat
       = length (rows sample_db).
Proof.
  apply delete_removes_exactly_one.
  - split.
    + repeat constructor.
    + apply (bool_decide_unpack _). vm_compute. reflexivity.
  - vm_compute. reflexivity.
Defined.

(** X21: the key of the table is an invariant of every route: if the
    [id] sequence is ahead of every row and no two rows share an [id]
    before a request, the same holds after it, whatever the request and
    its answer. *)
Theorem ids_stay_fresh (E : engine) (r : route) (uid : value) (req : request)
    (db : database) :
  fresh_ids db -> fresh_ids (final (handler E r uid req db)).
Proof.
  intros [Hlt Hnd]. destruct r; simpl.
  - unfold get_leads. repeat case_match; now split.
  - unfold get_lead. repeat case_match; now split.
  - destruct (post_lead_final E uid req db) as [-> | (l & Hl & ->)]; [now split |].
    split; simpl.
    + apply Forall_app. split.
      * eapply Forall_impl; [exact Hlt |]. simpl. intros; lia.
      * apply Forall_cons. split; [lia | apply Forall_nil; exact I].
    + rewrite map_app. simpl. apply NoDup_app. repeat split; [exact Hnd | |].
      * intros x Hx Hx2. apply list_elem_of_In in Hx2 as [<- | []].
        apply list_elem_of_In, in_map_iff in Hx as (y & Hy & Hin).
        rewrite Forall_forall in Hlt. apply list_elem_of_In, Hlt in Hin. lia.
      * apply NoDup_singleton.
  - destruct (put_lead_final E uid req db) as [-> | (p & set & Hset & ->)];
      [now split |].
    assert (Hid : map id (map (fun r => if p r then set r else r) (rows db))
                  = map id (rows db)).
    { rewrite map_map. apply map_ext. intros a. destruct (p a); auto. }
    split; simpl.
    + rewrite Forall_forall in Hlt |- *. intros x Hx.
      apply list_elem_of_In, in_map_iff in Hx as (y & <- & Hin).
      apply list_elem_of_In, Hlt in Hin. destruct (p y); [rewrite Hset |]; exact Hin.
    + now rewrite Hid.
  - destruct (delete_lead_final E uid req db) as [-> | (p & ->)]; [now split |].
    split; simpl.
    + rewrite Forall_forall in Hlt |- *. intros x Hx.
      apply list_elem_of_In, filter_In in Hx as [Hx _].
      apply Hlt. now apply list_elem_of_In.
    + now apply NoDup_map_filter.
Qed.

Lemma ids_stay_fresh_witness :
  fresh_ids (final (handler sample_engine PostLead (num (Finite 7)) create_request
                      sample_db)).
Proof.
  apply ids_stay_fresh. split.
  - repeat constructor.
  - apply (bool_decide_unpack _). vm_compute. reflexivity.
Defined.





(** X24: in every successful answer of GET /leads, [limit] is a whole
    number from 1 to 100 and, when fewer than [2^53] leads match,
    [total] is exactly their number and [totalPages] is exactly the
    number of pages, the ceiling of [total / limit]: the rounding of the
    floating-point division never moves the quotient across a whole
    number. *)
Theorem totalPages_is_ceiling (E : engine) (uid : value) (req : request)
    (db : database) (pl : payload) :
  sent (get_leads E uid req db) = {| code := 200; content := ListBody pl |} ->
  exists (w : where_clause) (p : lead -> bool) (L : nat),
    buildWhereClause {| userId := uid; params := query req |} = Some w
    /\ where_sem E (where_conditions w) (bound w) = Some p
    /\ (1 <= L <= 100)%nat
    /\ limit pl = Finite (inject_Z (Z.of_nat L))
    /\ let count := length (List.filter p (rows db)) in
       Z.of_nat count < 2 ^ 53 ->
       total pl = exact (Z.of_nat count)
       /\ totalPages pl = exact (Z.of_nat (page_count count L)).
Proof.
  intros Hs.
  assert (Hc : code (sent (get_leads E uid req db)) = 200%nat) by now rewrite Hs.
  destruct (get_leads_success E uid req db Hc)
    as (pg & lim & off & w & p & n & m & Hpg & Hw & Hp & _ & _ & Hg).
  rewrite Hg in Hs. simpl in Hs. injection Hs as <-. simpl.
  destruct (paging_limit _ _ _ _ Hpg) as (L & HL & ->).
  exists w, p, L. repeat split; try assumption; try lia.
  - now apply total_exact.
  - rewrite total_exact by assumption. now apply totalPages_exact.
Qed.

Lemma totalPages_is_ceiling_witness :
  exists pl,
    sent (get_leads sample_engine (num (Finite 7)) (page_request all_request 1 1)
            sample_db)
    = {| code := 200; content := ListBody pl |}
    /\ exists (w : where_clause) (p : lead -> bool) (L : nat),
         buildWhereClause {| userId := num (Finite 7);
                             params := query (page_request all_request 1 1) |} = Some w
         /\ where_sem sample_engine (where_conditions w) (bound w) = Some p
         /\ (1 <= L <= 100)%nat
         /\ limit pl = Finite (inject_Z (Z.of_nat L))
         /\ let count := length (List.filter p (rows sample_db)) in
            Z.of_nat count < 2 ^ 53 ->
            total pl = exact (Z.of_nat count)
            /\ totalPages pl = exact (Z.of_nat (page_count count L)).
Proof.
  eexists. split; [vm_compute; reflexivity |].
  apply totalPages_is_ceiling. vm_compute. reflexivity.
Defined.

(** X25: the leads of a page are in the order of the listing, newest
    first: no lead of [data] was created before a lead that follows it.
    And a page is never longer than 100 leads, whatever [limit] asks for,
    when the engine reads a whole number up to 100 as that many rows. *)
Theorem page_is_sorted_and_bounded (E : engine) (uid : value) (req : request)
    (db : database) (pl : payload) :
  sent (get_leads E uid req db) = {| code := 200; content := ListBody pl |} ->
  StronglySorted not_older (data pl)
  /\ (reads_counts E 100 -> (length (data pl) <= 100)%nat).
Proof.
  intros Hs.
  assert (Hc : code (sent (get_leads E uid req db)) = 200%nat) by now rewrite Hs.
  destruct (get_leads_success E uid req db Hc)
    as (pg & lim & off & w & p & n & m & Hpg & Hw & Hp & Hn & Hm & Hg).
  rewrite Hg in Hs. simpl in Hs. injection Hs as <-. simpl. split.
  - apply StronglySorted_slice, newest_first_sorted.
  - intros Hrc. rewrite length_take.
    destruct (paging_limit _ _ _ _ Hpg) as (L & HL & ->).
    rewrite <- exact_pos in Hn by lia.
    rewrite (Hrc (Z.of_nat L)) in Hn by lia. injection Hn as <-. lia.
Qed.

Lemma page_is_sorted_and_bounded_witness :
  exists pl,
    sent (get_leads sample_engine (num (Finite 7)) all_request sample_db)
    = {| code := 200; content := ListBody pl |}
    /\ StronglySorted not_older (data pl)
    /\ (reads_counts sample_engine 100 -> (length (data pl) <= 100)%nat).
Proof.
  eexists. split; [vm_compute; reflexivity |].
  apply (page_is_sorted_and_bounded sample_engine (num (Finite 7)) all_request
           sample_db).
  vm_compute. reflexivity.
Defined.

End Properties.
